(** * job-hunter: the suggestion engine of [review.ts] and the matcher and
      deduplicator of [search.ts]

    A shallow embedding of [resolvePath], [applySuggestion] and [applyByIds]
    (src/lib/review.ts) and of [matchesQuery] and [dedupe] (src/lib/search.ts),
    followed by the properties the specification states about them.

    Modelling conventions.
    - A profile is what [JSON.parse] returns: a tree of maps, arrays and
      scalars without sharing.  [VUndef] is JavaScript's [undefined]; it only
      shows up as the result of reading something absent and as a hole of an
      array.  Numbers are integers.
    - Property access is access to own properties: map members, array
      elements, characters of a string and the [length] of arrays and
      strings.  Members inherited from the built-in prototypes
      ([constructor], [__proto__], [toString], ...) are not modelled.
    - The modules are ES modules and therefore run in strict mode: writing a
      property of a primitive, or deleting a non-configurable one, throws a
      [TypeError].
    - Strings are byte strings; case mapping, white space and digits are the
      ASCII ones, and indices are exact natural numbers ([parseInt] is exact
      below 2^53).
    - The source mutates the profile in place through the [parent] reference
      that [resolvePath] returns.  As the tree has no sharing, the embedding
      keeps the location of [parent] next to its value and writes the new
      parent back at that location ([store]).

    The rest of the two modules and their callers are embedded as well, for
    the further properties at the end: [truncate], [wordWrap],
    [hasSuggestions], [loadSuggestions], [logChange], [writeProfileAtomic]
    and [runInteractiveReview] of review.ts, [searchGreenhouse] and
    [searchLever] of search.ts, and the routes of [handleRequest] that work
    on the profile and the suggestions.
    - What the network answers is an argument of the adapters: each board
      comes with the outcome of its [fetch].
    - A run of the interactive review works on a [session]: the files, the
      chunks standard input will deliver and what has been written to
      standard output.  An [await] on input that does not come ends the run
      as [Awaiting].
    - [tracker.get] and [new Date(ms).toISOString()] belong to modules that
      are not part of these sources; they are arguments of the functions
      that call them. *)

From Stdlib Require Import String Ascii ZArith NArith DecimalString DecimalN Sorted Lia.
From stdpp Require Import gmap strings list fin_maps.

Open Scope string_scope.
Open Scope list_scope.

(** ** Outcomes of a call *)

Inductive exn : Type :=
| TypeError
| Error (msg : string).

(** [OutOfModel] marks the two writes the embedding does not cover: a named
    (non-index) property put on an array object, and an assignment to an
    array's [length].  Nothing is claimed about such runs. *)
Inductive res (A : Type) : Type :=
| Ret (a : A)
| Throw (e : exn)
| OutOfModel.

Arguments Ret {A} a.
Arguments Throw {A} e.
Arguments OutOfModel {A}.

Definition res_bind {A B} (x : res A) (f : A -> res B) : res B :=
  match x with
  | Ret a => f a
  | Throw e => Throw e
  | OutOfModel => OutOfModel
  end.

(** ** Documents *)

#[warnings="-register-all"] Inductive value : Type :=
| VUndef
| VNull
| VBool (b : bool)
| VNum (n : Z)
| VStr (s : string)
| VArr (l : list value)
| VObj (m : gmap string value).

(** [current == null] *)
Definition nullish (v : value) : bool :=
  match v with
  | VUndef | VNull => true
  | _ => false
  end.

(** [!profile] is [negb (truthy profile)] *)
Definition truthy (v : value) : bool :=
  match v with
  | VUndef | VNull => false
  | VBool b => b
  | VNum n => negb (n =? 0)%Z
  | VStr s => negb (s =? "")
  | VArr _ | VObj _ => true
  end.

Definition isContainer (v : value) : bool :=
  match v with
  | VArr _ | VObj _ => true
  | _ => false
  end.

(** ** Paths *)

(** An element of [parts : (string | number)[]] *)
Inductive part : Type :=
| PName (s : string)
| PIndex (n : N).

Definition isDigit (c : ascii) : bool :=
  let n := N_of_ascii c in ((48 <=? n) && (n <=? 57))%N.

(** The class [[^[.\]]] *)
Definition isNameChar (c : ascii) : bool :=
  negb ((c =? "[")%char || (c =? ".")%char || (c =? "]")%char).

(** The longest prefix of [s] whose characters satisfy [p], and the rest *)
Fixpoint span (p : ascii -> bool) (s : string) : string * string :=
  match s with
  | EmptyString => (EmptyString, EmptyString)
  | String c s' =>
      if p c then let '(a, b) := span p s' in (String c a, b)
      else (EmptyString, s)
  end.

(** [parseInt] on a run of decimal digits *)
Definition parseInt (ds : string) : N :=
  fold_left (fun acc c => (10 * acc + (N_of_ascii c - 48))%N)
            (list_ascii_of_string ds) 0%N.

(** One attempt of [/([^[.\]]+)|\[(\d+)\]/] at the start of [s]: the part
    pushed for the match and the text after it *)
Definition matchAt (s : string) : option (part * string) :=
  match s with
  | EmptyString => None
  | String c s' =>
      if isNameChar c then
        let '(name, rest) := span isNameChar s in Some (PName name, rest)
      else if (c =? "[")%char then
        match span isDigit s' with
        | (String d ds, String c' rest) =>
            if (c' =? "]")%char then Some (PIndex (parseInt (String d ds)), rest)
            else None
        | _ => None
        end
      else None
  end.

(** The [while ((match = regex.exec(path)) !== null)] loop: [exec] looks for
    the first position from [lastIndex] on where the pattern matches.  Every
    round consumes a character, so [String.length path] rounds are enough
    (see [execLoop_fuel]). *)
Fixpoint execLoop (fuel : nat) (s : string) : list part :=
  match fuel with
  | O => []
  | S fuel' =>
      match s with
      | EmptyString => []
      | String _ s' =>
          match matchAt s with
          | Some (p, rest) => p :: execLoop fuel' rest
          | None => execLoop fuel' s'
          end
      end
  end.

Definition parsePath (path : string) : list part :=
  execLoop (String.length path) path.

Definition string_of_N (n : N) : string :=
  NilEmpty.string_of_uint (N.to_uint n).

(** The property key a part denotes: a number is turned into its decimal
    string *)
Definition ToPropertyKey (p : part) : string :=
  match p with
  | PName s => s
  | PIndex n => string_of_N n
  end.

Definition allDigits (k : string) : bool :=
  forallb isDigit (list_ascii_of_string k).

(** A property key is an array index when it is the canonical decimal string
    of an integer below 2^32 - 1 *)
Definition arrayIndex (k : string) : option N :=
  if allDigits k then
    let n := parseInt k in
    if (string_of_N n =? k) && (n <? 4294967295)%N then Some n else None
  else None.


(** ** Reading and writing properties *)

Definition elem (l : list value) (i : N) : value :=
  default VUndef (l !! N.to_nat i).

Definition charAt (s : string) (i : N) : value :=
  match String.get (N.to_nat i) s with
  | Some c => VStr (String c EmptyString)
  | None => VUndef
  end.

(** [current[p]] *)
Definition getProp (v : value) (p : part) : res value :=
  let k := ToPropertyKey p in
  match v with
  | VUndef | VNull => Throw TypeError
  | VObj m => Ret (default VUndef (m !! k))
  | VArr l =>
      match arrayIndex k with
      | Some i => Ret (elem l i)
      | None => if k =? "length" then Ret (VNum (Z.of_nat (length l))) else Ret VUndef
      end
  | VStr s =>
      match arrayIndex k with
      | Some i => Ret (charAt s i)
      | None => if k =? "length" then Ret (VNum (Z.of_nat (String.length s))) else Ret VUndef
      end
  | VNum _ | VBool _ => Ret VUndef
  end.

(** [a[i] = v] on an array: in range it overwrites, past the end it extends
    the array, leaving holes *)
Definition arraySet (l : list value) (i : N) (v : value) : list value :=
  if (N.to_nat i <? length l)%nat then <[N.to_nat i := v]> l
  else l ++ replicate (N.to_nat i - length l) VUndef ++ [v].

(** [parent[key] = v] *)
Definition setProp (parent : value) (p : part) (v : value) : res value :=
  let k := ToPropertyKey p in
  match parent with
  | VObj m => Ret (VObj (<[k := v]> m))
  | VArr l =>
      match arrayIndex k with
      | Some i => Ret (VArr (arraySet l i v))
      | None => OutOfModel
      end
  | _ => Throw TypeError
  end.

(** [delete parent[key]] *)
Definition deleteProp (parent : value) (p : part) : res value :=
  let k := ToPropertyKey p in
  match parent with
  | VUndef | VNull => Throw TypeError
  | VObj m => Ret (VObj (delete k m))
  | VArr l =>
      match arrayIndex k with
      | Some i =>
          Ret (VArr (if (N.to_nat i <? length l)%nat then <[N.to_nat i := VUndef]> l else l))
      | None => if k =? "length" then Throw TypeError else Ret parent
      end
  | VStr s =>
      match arrayIndex k with
      | Some i => if (N.to_nat i <? String.length s)%nat then Throw TypeError else Ret parent
      | None => if k =? "length" then Throw TypeError else Ret parent
      end
  | VNum _ | VBool _ => Ret parent
  end.

(** [parent.splice(key, 1)] for a number [key >= 0] *)
Definition splice1 (l : list value) (i : N) : list value :=
  delete (N.to_nat i) l.

(** ** resolvePath *)

(** What [resolvePath] returns: [parent] is a reference into the profile,
    kept here as the value together with the parts that lead to it. *)
Record resolved : Type := Resolved {
  r_loc : list part;
  r_parent : value;
  r_key : part
}.

(** [parts.length - 1] leading parts and [parts[parts.length - 1]] *)
Fixpoint splitLast {A} (l : list A) : option (list A * A) :=
  match l with
  | [] => None
  | x :: l' =>
      match splitLast l' with
      | None => Some ([], x)
      | Some (init, last) => Some (x :: init, last)
      end
  end.

(** The [for] loop over all parts but the last: [None] is the early
    [return null]. *)
Fixpoint descend (current : value) (ps : list part) : res (option value) :=
  match ps with
  | [] => Ret (Some current)
  | p :: ps' =>
      if nullish current then Ret None
      else res_bind (getProp current p) (fun c => descend c ps')
  end.

Definition resolvePath (obj : value) (path : string) : res (option resolved) :=
  match splitLast (parsePath path) with
  | None => Ret None
  | Some (init, last) =>
      res_bind (descend obj init) (fun r =>
        match r with
        | None => Ret None
        | Some current =>
            if nullish current then Ret None
            else Ret (Some (Resolved init current last))
        end)
  end.

(** ** applySuggestion *)

Inductive stype : Type := Rewrite | Restructure | Add | Remove.

Record Suggestion : Type := {
  id : Z;
  section : string;
  type : stype;
  current : string;
  suggested : string;
  reason : string;
  principle : string
}.

Definition isRemove (t : stype) : bool :=
  match t with
  | Remove => true
  | _ => false
  end.

(** The profile after the object at [loc] has become [new] *)
Fixpoint store (d : value) (loc : list part) (new : value) : value :=
  match loc with
  | [] => new
  | p :: rest =>
      let k := ToPropertyKey p in
      match d with
      | VObj m =>
          match m !! k with
          | Some c => VObj (<[k := store c rest new]> m)
          | None => d
          end
      | VArr l =>
          match arrayIndex k with
          | Some i =>
              match l !! N.to_nat i with
              | Some c => VArr (<[N.to_nat i := store c rest new]> l)
              | None => d
              end
          | None => d
          end
      | _ => d
      end
  end.

(** The statement executed on a resolved [{ parent, key }]; the first branch
    is [Array.isArray(parent) && typeof key === "number"] *)
Definition mutate (s : Suggestion) (parent : value) (key : part) : res value :=
  if isRemove (type s) then
    match parent, key with
    | VArr l, PIndex i => Ret (VArr (splice1 l i))
    | _, _ => deleteProp parent key
    end
  else setProp parent key (VStr (suggested s)).

Definition applySuggestion (s : Suggestion) (profile : value) : res value :=
  res_bind (resolvePath profile (section s)) (fun resolved =>
    match resolved with
    | Some r =>
        res_bind (mutate s (r_parent r) (r_key r)) (fun parent' =>
          Ret (store profile (r_loc r) parent'))
    | None => Ret profile
    end).

(** ** Reading a document by path *)

(** The member or element of a container under a property key *)
Definition child (v : value) (k : string) : value :=
  match v with
  | VObj m => default VUndef (m !! k)
  | VArr l =>
      match arrayIndex k with
      | Some i => elem l i
      | None => VUndef
      end
  | _ => VUndef
  end.

(** [get(d, p)]: the value of the document at a path, [VUndef] where there is
    none *)
Fixpoint get (d : value) (ks : list string) : value :=
  match ks with
  | [] => d
  | k :: rest => get (child d k) rest
  end.

(** ** The files applyByIds works on *)

Record SuggestionsFile : Type := {
  generatedAt : string;
  jobId : option string;
  suggestions : list Suggestion
}.

(** The content of a JSON file: text that [JSON.parse] accepts, given by the
    value it denotes, or text that it rejects *)
Inductive file (A : Type) : Type :=
| Parsed (a : A)
| Unparseable (text : string).

Arguments Parsed {A} a.
Arguments Unparseable {A} text.

(** A directory under [data/output] *)
Record dir : Type := {
  suggestions_json : option (file SuggestionsFile);
  changelog_md : option string
}.

(** What [applyByIds] can observe of a call.  It is not part of the program
    state: it records the order of the effects. *)
Inductive event : Type :=
| EMkdir (name : string)
| EBackup
| EMutate (i : Z)
| ELog (i : Z)
| EWriteTmp
| ERename.

Record world : Type := {
  profile_json : option (file value);
  profile_backup_json : option (file value);
  profile_json_tmp : option (file value);
  output : gmap string dir;
  clock : nat -> string;
  ticks : nat;
  trace : list event
}.

Definition M (A : Type) : Type := world -> res A * world.

#[global] Instance M_ret : MRet M := fun A a w => (Ret a, w).

#[global] Instance M_bind : MBind M := fun A B f m w =>
  match m w with
  | (Ret a, w') => f a w'
  | (Throw e, w') => (Throw e, w')
  | (OutOfModel, w') => (OutOfModel, w')
  end.

Definition throw {A} (e : exn) : M A := fun w => (Throw e, w).

Definition lift {A} (r : res A) : M A := fun w => (r, w).

Definition gets {A} (f : world -> A) : M A := fun w => (Ret (f w), w).

Definition modify (f : world -> world) : M unit := fun w => (Ret tt, f w).

Definition emit (e : event) : world -> world := fun w =>
  {| profile_json := profile_json w;
     profile_backup_json := profile_backup_json w;
     profile_json_tmp := profile_json_tmp w;
     output := output w;
     clock := clock w;
     ticks := ticks w;
     trace := trace w ++ [e] |}.

Definition set_output (f : gmap string dir -> gmap string dir) : world -> world := fun w =>
  {| profile_json := profile_json w;
     profile_backup_json := profile_backup_json w;
     profile_json_tmp := profile_json_tmp w;
     output := f (output w);
     clock := clock w;
     ticks := ticks w;
     trace := trace w |}.

(** [new Date().toISOString()] *)
Definition now : M string := fun w =>
  (Ret (clock w (ticks w)),
   {| profile_json := profile_json w;
      profile_backup_json := profile_backup_json w;
      profile_json_tmp := profile_json_tmp w;
      output := output w;
      clock := clock w;
      ticks := S (ticks w);
      trace := trace w |}).

Definition emptyDir : dir := {| suggestions_json := None; changelog_md := None |}.

(** The name under [data/output] of the directory of a job; without a job id
    it is [REVIEW_OUTPUT_DIR] *)
Definition dirName (jobId : option string) : string :=
  match jobId with
  | Some j => if j =? "" then "review" else j
  | None => "review"
  end.

Definition suggestionsDir (jobId : option string) : M string :=
  let name := dirName jobId in
  exists_ ← gets (fun w => bool_decide (is_Some (output w !! name)));
  _ ← (if negb exists_
       then modify (fun w => emit (EMkdir name) (set_output (insert name emptyDir) w))
       else mret tt);
  mret name.

Definition loadSuggestions (jobId : option string) : M (option SuggestionsFile) :=
  name ← suggestionsDir jobId;
  d ← gets (fun w => output w !! name);
  match d ≫= suggestions_json with
  | None => mret None
  | Some (Unparseable _) => mret None
  | Some (Parsed data) => mret (Some data)
  end.

(** [loadProfile]: [VNull] stands for the [null] it returns *)
Definition loadProfile : M value :=
  f ← gets profile_json;
  match f with
  | None => mret VNull
  | Some (Unparseable _) => mret VNull
  | Some (Parsed v) => mret v
  end.

Definition nl : string := String (ascii_of_nat 10) EmptyString.

Definition typeName (t : stype) : string :=
  match t with
  | Rewrite => "rewrite"
  | Restructure => "restructure"
  | Add => "add"
  | Remove => "remove"
  end.

Definition logChange (s : Suggestion) (action : string) (jobId : option string) : M unit :=
  name ← suggestionsDir jobId;
  timestamp ← now;
  let entry := "- [" +:+ timestamp +:+ "] **" +:+ action +:+ "** — " +:+ section s
               +:+ " (" +:+ principle s +:+ "): " +:+ typeName (type s) +:+ nl in
  d ← gets (fun w => default emptyDir (output w !! name));
  let existing :=
    match changelog_md d with
    | Some text => text
    | None => "# Review Changelog" +:+ nl +:+ nl
    end in
  modify (fun w =>
    emit (ELog (id s))
      (set_output (insert name {| suggestions_json := suggestions_json d;
                                  changelog_md := Some (existing +:+ entry) |}) w)).

(** What [JSON.stringify] keeps of a value: a hole or [undefined] in an array
    is written as [null], a member that is [undefined] is left out *)
Fixpoint jsonify (v : value) : value :=
  match v with
  | VUndef => VNull
  | VArr l => VArr (map jsonify l)
  | VObj m => VObj (omap (fun x => match x with VUndef => None | _ => Some (jsonify x) end) m)
  | _ => v
  end.

(** [writeFileSync(tmp, JSON.stringify(profile, null, 2) + "\n")] *)
Definition writeTmp (profile : value) (w : world) : world :=
  emit EWriteTmp
    {| profile_json := profile_json w;
       profile_backup_json := profile_backup_json w;
       profile_json_tmp := Some (Parsed (jsonify profile));
       output := output w;
       clock := clock w;
       ticks := ticks w;
       trace := trace w |}.

(** [renameSync(tmp, PROFILE_PATH)] *)
Definition renameTmp (w : world) : world :=
  emit ERename
    {| profile_json := profile_json_tmp w;
       profile_backup_json := profile_backup_json w;
       profile_json_tmp := None;
       output := output w;
       clock := clock w;
       ticks := ticks w;
       trace := trace w |}.

Definition writeProfileAtomic (profile : value) : M unit :=
  _ ← modify (writeTmp profile);
  modify renameTmp.

(** [copyFileSync(PROFILE_PATH, BACKUP_PATH)] *)
Definition copyProfileToBackup (w : world) : world :=
  emit EBackup
    {| profile_json := profile_json w;
       profile_backup_json := profile_json w;
       profile_json_tmp := profile_json_tmp w;
       output := output w;
       clock := clock w;
       ticks := ticks w;
       trace := trace w |}.

(** ** applyByIds *)

Inductive ids_arg : Type :=
| All
| Ids (l : list Z).

Record ApplyResult : Type := {
  applied : list Z;
  skipped : list Z;
  backupCreated : bool
}.

(** [ids === "all" || ids.includes(s.id)] *)
Definition selected (ids : ids_arg) (s : Suggestion) : bool :=
  match ids with
  | All => true
  | Ids l => existsb (Z.eqb (id s)) l
  end.

(** The loop that fills [toApply] and [skipped] *)
Fixpoint partitionLoop (ids : ids_arg) (ss : list Suggestion)
    (toApply : list Suggestion) (skipped : list Z) : list Suggestion * list Z :=
  match ss with
  | [] => (toApply, skipped)
  | s :: ss' =>
      if selected ids s then partitionLoop ids ss' (toApply ++ [s]) skipped
      else partitionLoop ids ss' toApply (skipped ++ [id s])
  end.

(** The loop over [toApply]; [profile] is the object being mutated *)
Fixpoint applyLoop (jobId : option string) (toApply : list Suggestion) (profile : value) : M value :=
  match toApply with
  | [] => mret profile
  | s :: rest =>
      _ ← modify (emit (EMutate (id s)));
      profile' ← lift (applySuggestion s profile);
      _ ← logChange s "approved" jobId;
      applyLoop jobId rest profile'
  end.

Definition noProfile : exn := Error "No profile found. Run `profile init` to create one.".

Definition emptyResult : ApplyResult :=
  {| applied := []; skipped := []; backupCreated := false |}.

Definition applyByIds (ids : ids_arg) (jobId : option string) : M ApplyResult :=
  data ← loadSuggestions jobId;
  match data with
  | None => mret emptyResult
  | Some data =>
      if (length (suggestions data) =? 0)%nat then mret emptyResult
      else
        profile ← loadProfile;
        if negb (truthy profile) then throw noProfile
        else
          let '(toApply, skipped) := partitionLoop ids (suggestions data) [] [] in
          profileExists ← gets (fun w => bool_decide (is_Some (profile_json w)));
          backupCreated ←
            (if (0 <? length toApply)%nat && profileExists
             then _ ← modify copyProfileToBackup; mret true
             else mret false);
          profile' ← applyLoop jobId toApply profile;
          _ ← (if (0 <? length toApply)%nat then writeProfileAtomic profile' else mret tt);
          mret {| applied := map id toApply; skipped := skipped; backupCreated := backupCreated |}
  end.

(** ** search.ts: matchesQuery *)

Definition STOPWORDS : gset string :=
  list_to_set ["a"; "an"; "the"; "in"; "at"; "for"; "and"; "or"; "of"; "with"; "to"; "on"; "is"].

Definition lowerChar (c : ascii) : ascii :=
  let n := N_of_ascii c in
  if ((65 <=? n) && (n <=? 90))%N then ascii_of_N (n + 32) else c.

Fixpoint toLowerCase (s : string) : string :=
  match s with
  | EmptyString => EmptyString
  | String c s' => String (lowerChar c) (toLowerCase s')
  end.

(** The class [\s] *)
Definition isSpace (c : ascii) : bool :=
  let n := N_of_ascii c in ((n =? 32) || ((9 <=? n) && (n <=? 13)))%N.

(** [s.split(/\s+/)], reading [s] from left to right: [word] is the piece
    being read and [inSep] tells that the last character belonged to a
    separator.  As in JavaScript, a string that starts or ends with white
    space yields an empty first or last piece. *)
Fixpoint splitLoop (s : string) (word : string) (inSep : bool) : list string :=
  match s with
  | EmptyString => [word]
  | String c s' =>
      if isSpace c then
        if inSep then splitLoop s' EmptyString true
        else word :: splitLoop s' EmptyString true
      else splitLoop s' (word +:+ String c EmptyString) false
  end.

Definition splitWs (s : string) : list string := splitLoop s EmptyString false.

(** [hay.includes(needle)] *)
Fixpoint includes (hay needle : string) : bool :=
  String.prefix needle hay ||
  match hay with
  | EmptyString => false
  | String _ hay' => includes hay' needle
  end.

(** [w.length > 1 && !STOPWORDS.has(w)] *)
Definition meaningful (w : string) : bool :=
  (1 <? String.length w)%nat && negb (bool_decide (w ∈ STOPWORDS)).

Definition count (p : string -> bool) (words : list string) : Z :=
  Z.of_nat (length (List.filter p words)).

Definition matchesQuery (query title extraText : string) : Z :=
  let words := List.filter meaningful (splitWs (toLowerCase query)) in
  if (length words =? 0)%nat then 1%Z
  else
    let titleLower := toLowerCase title in
    let fullText := titleLower +:+ " " +:+ toLowerCase extraText in
    let titleMatches := count (includes titleLower) words in
    let fullMatches := count (includes fullText) words in
    if (fullMatches <? Z.of_nat (length words))%Z then 0%Z
    else (titleMatches * 2 + (fullMatches - titleMatches))%Z.

(** ** search.ts: dedupe *)

Record JobResult : Type := {
  title : string;
  company : string;
  location : string;
  isRemote : bool;
  jobUrl : string;
  source : string;
  datePosted : option string;
  salary : option string;
  description : string
}.

(** The characters [.] does not match *)
Definition isLineTerminator (c : ascii) : bool :=
  let n := N_of_ascii c in ((n =? 10) || (n =? 13))%N.

Definition noLineTerminator (s : string) : bool :=
  forallb (fun c => negb (isLineTerminator c)) (list_ascii_of_string s).

(** [s.replace(/\?.*$/, "")]: the match starts at the first [?] that is
    followed by no line terminator up to the end *)
Fixpoint stripQuery (s : string) : string :=
  match s with
  | EmptyString => EmptyString
  | String c s' =>
      if (c =? "?")%char && noLineTerminator s' then EmptyString
      else String c (stripQuery s')
  end.

Definition allSlashes (s : string) : bool :=
  forallb (fun c => (c =? "/")%char) (list_ascii_of_string s).

(** [s.replace(/\/+$/, "")] *)
Fixpoint stripTrailingSlashes (s : string) : string :=
  match s with
  | EmptyString => EmptyString
  | String c s' =>
      if (c =? "/")%char && allSlashes s' then EmptyString
      else String c (stripTrailingSlashes s')
  end.

Definition dedupeKey (url : string) : string :=
  toLowerCase (stripTrailingSlashes (stripQuery url)).

(** [jobs.filter(...)] with the set [seen] threaded through *)
Fixpoint dedupeLoop (seen : gset string) (jobs : list JobResult) : list JobResult :=
  match jobs with
  | [] => []
  | j :: rest =>
      let key := dedupeKey (jobUrl j) in
      if bool_decide (key ∈ seen) then dedupeLoop seen rest
      else j :: dedupeLoop ({[key]} ∪ seen) rest
  end.

Definition dedupe (jobs : list JobResult) : list JobResult := dedupeLoop ∅ jobs.

(** ** review.ts: truncate and wordWrap *)

(** [text.replace(/\n/g, " ")] *)
Fixpoint replaceNewlines (s : string) : string :=
  match s with
  | EmptyString => EmptyString
  | String c s' =>
      String (if (N_of_ascii c =? 10)%N then " "%char else c) (replaceNewlines s')
  end.

Fixpoint trimStart (s : string) : string :=
  match s with
  | EmptyString => EmptyString
  | String c s' => if isSpace c then trimStart s' else s
  end.

Fixpoint trimEnd (s : string) : string :=
  match s with
  | EmptyString => EmptyString
  | String c s' =>
      match trimEnd s' with
      | EmptyString => if isSpace c then EmptyString else String c EmptyString
      | t => String c t
      end
  end.

(** [s.trim()] *)
Definition trim (s : string) : string := trimEnd (trimStart s).

(** [s.slice(0, end)]: a negative [end] counts from the end of the string *)
Definition slice0 (s : string) (end_ : Z) : string :=
  let len := Z.of_nat (String.length s) in
  let e := if (end_ <? 0)%Z then Z.max (len + end_) 0 else Z.min end_ len in
  substring 0 (Z.to_nat e) s.

Definition truncate (text : string) (maxLen : Z) : string :=
  let oneLine := trim (replaceNewlines text) in
  if (Z.of_nat (String.length oneLine) <=? maxLen)%Z then oneLine
  else slice0 oneLine (maxLen - 3) +:+ "...".

(** The loop of [wordWrap] over the words, with [lines] and [current] *)
Fixpoint wrapLoop (width : Z) (words lines : list string) (current : string)
    : list string * string :=
  match words with
  | [] => (lines, current)
  | word :: rest =>
      if (width <? Z.of_nat (String.length current + String.length word + 1))%Z
         && (0 <? String.length current)%nat
      then wrapLoop width rest (lines ++ [current]) word
      else wrapLoop width rest lines
             (if current =? "" then word else current +:+ " " +:+ word)
  end.

Definition wordWrap (text : string) (width : Z) : list string :=
  let '(lines, current) := wrapLoop width (splitWs text) [] EmptyString in
  let lines := if current =? "" then lines else lines ++ [current] in
  if (0 <? length lines)%nat then lines else [EmptyString].

(** ** review.ts: hasSuggestions *)

Definition hasSuggestions (jobId : option string) : M bool :=
  name ← suggestionsDir jobId;
  gets (fun w => bool_decide (is_Some (output w !! name ≫= suggestions_json))).

(** ** search.ts: searchGreenhouse and searchLever *)

(** What the [fetch] of one board or site comes to: something in the [try]
    block throws (the request, the parsing of the body, or a body of another
    shape), the response is not [ok], or the body is there *)
Inductive fetched (A : Type) : Type :=
| FetchThrows
| FetchNotOk
| FetchOk (data : A).

Arguments FetchThrows {A}.
Arguments FetchNotOk {A}.
Arguments FetchOk {A} data.

(** [o || ""] *)
Definition orEmpty (o : option string) : string := default "" o.

(** [o || d] *)
Definition orElse (d : string) (o : option string) : string :=
  match o with
  | Some s => if s =? "" then d else s
  | None => d
  end.

(** [o || null] *)
Definition orNull (o : option string) : option string :=
  match o with
  | Some s => if s =? "" then None else Some s
  | None => None
  end.

(** [/remote/i.test(s)] *)
Definition mentionsRemote (s : string) : bool := includes (toLowerCase s) "remote".

(** [scored.sort((a, b) => b.score - a.score)].  The sort of an array is
    stable, which fixes its result; it is computed here by insertion, an
    element going behind those with a score at least as high. *)
Fixpoint insertScored {A} (x : A * Z) (l : list (A * Z)) : list (A * Z) :=
  match l with
  | [] => [x]
  | y :: l' => if (y.2 <? x.2)%Z then x :: l else y :: insertScored x l'
  end.

Definition sortScored {A} (l : list (A * Z)) : list (A * Z) :=
  fold_left (fun acc x => insertScored x acc) l [].

(** A job of the Greenhouse board API *)
Record GhJob : Type := {
  gh_title : string;
  gh_location_name : option string;
  gh_content : option string;
  gh_absolute_url : string;
  gh_updated_at : option string
}.

Definition ghExtra (j : GhJob) : string :=
  orEmpty (gh_location_name j) +:+ " " +:+ orEmpty (gh_content j).

(** The [scored] of one board *)
Definition ghScored (query : string) (jobs : list GhJob) : list (GhJob * Z) :=
  sortScored
    (List.filter (fun s => (0 <? s.2)%Z)
       (map (fun j => (j, matchesQuery query (gh_title j) (ghExtra j))) jobs)).

Definition ghResult (board : string) (j : GhJob) : JobResult :=
  {| title := gh_title j;
     company := board;
     location := orElse "Unknown" (gh_location_name j);
     isRemote := mentionsRemote (orEmpty (gh_location_name j));
     jobUrl := gh_absolute_url j;
     source := "greenhouse";
     datePosted := orNull (gh_updated_at j);
     salary := None;
     description := orEmpty (gh_content j) |}.

(** The loop over the boards: each board comes with what its fetch yields
    ([data.jobs] may be missing); [log] is what [console.error] has got *)
Fixpoint searchGreenhouseLoop (query : string)
    (boards : list (string * fetched (option (list GhJob))))
    (results : list JobResult) (log : list string) : list JobResult * list string :=
  match boards with
  | [] => (results, log)
  | (board, response) :: rest =>
      match response with
      | FetchThrows =>
          searchGreenhouseLoop query rest results
            (log ++ ["(greenhouse: failed to fetch " +:+ board +:+ ")"])
      | FetchNotOk => searchGreenhouseLoop query rest results log
      | FetchOk data =>
          let scored := ghScored query (default [] data) in
          searchGreenhouseLoop query rest
            (results ++ map (fun s => ghResult board s.1) scored) log
      end
  end.

Definition searchGreenhouse (query : string)
    (boards : list (string * fetched (option (list GhJob)))) : list JobResult * list string :=
  searchGreenhouseLoop query boards [] [].








(** ** server.ts: handleRequest *)

(** What [json(data, status)] is given as [data]: an object with an [error]
    message, the result of [applyByIds], a suggestions file, a JSON value, or
    [{ success: true }].  The message of a [TypeError] is the runtime's own
    text and is left open. *)
Inductive payload : Type :=
| PError (message : option string)
| PApplyResult (r : ApplyResult)
| PSuggestionsFile (data : SuggestionsFile)
| PJson (v : value)
| PSuccess.

Record response : Type := {
  status : Z;
  payload_of : payload
}.

Definition json (data : payload) (status : Z) : response :=
  {| status := status; payload_of := data |}.

(** [e.message] *)
Definition message (e : exn) : option string :=
  match e with
  | Error msg => Some msg
  | TypeError => None
  end.

(** The requests of the routes that work on the profile and the suggestions.
    A body is what [req.json()] yields, [None] when it throws; the [jobId] of
    [GetSuggestions] is [url.searchParams.get("jobId")].  [Unrouted] is a
    request that no route matches.  The routes [GET /], [GET /api/jobs] and
    [POST /api/upload] read the page, the tracker and the uploaded file, and
    are not covered. *)
Inductive request : Type :=
| GetSuggestions (jobId : option string)
| PostAccept (body : option value)
| GetProfile
| PutProfile (body : option value)
| Unrouted.

Definition dq : string := String (ascii_of_nat 34) EmptyString.

(** The ids that [ids.includes(s.id)] can find in an array: its numbers *)
Definition numbersOf (l : list value) : list Z :=
  omap (fun v => match v with VNum n => Some n | _ => None end) l.

(** The job id as [suggestionsDir] takes it: a value that is falsy selects
    the review directory, and [join] throws a [TypeError] on a value that is
    truthy and not a string *)
Definition jobIdArg (jobId : value) : res (option string) :=
  match jobId with
  | VStr s => Ret (Some s)
  | _ => if truthy jobId then Throw TypeError else Ret None
  end.

(** [try { ... review.applyByIds(ids, resolvedId) ... } catch (e) { ... }] *)
Definition acceptIds (ids : ids_arg) (jobId : value) : M response := fun w =>
  let resolvedId :=
    match jobId with
    | VStr s => if s =? "review" then VUndef else jobId
    | _ => jobId
    end in
  match jobIdArg resolvedId with
  | Ret j =>
      match applyByIds ids j w with
      | (Ret result, w') => (Ret (json (PApplyResult result) 200), w')
      | (Throw e, w') => (Ret (json (PError (message e)) 500), w')
      | (OutOfModel, w') => (OutOfModel, w')
      end
  | Throw e => (Ret (json (PError (message e)) 500), w)
  | OutOfModel => (OutOfModel, w)
  end.

(** [writeFileSync(PROFILE_PATH, JSON.stringify(body, null, 2))] *)
Definition writeProfile (body : value) (w : world) : world :=
  {| profile_json := Some (Parsed (jsonify body));
     profile_backup_json := profile_backup_json w;
     profile_json_tmp := profile_json_tmp w;
     output := output w;
     clock := clock w;
     ticks := ticks w;
     trace := trace w |}.

(** The backup path [PROFILE_PATH.replace(".json", ".backup.json")] is the
    [BACKUP_PATH] of review.ts as long as the path of the data directory does
    not itself contain [.json].  The data directory is taken to exist, so
    that [mkdirSync(DATA_DIR, { recursive: true })] does nothing. *)
Definition handleRequest (req : request) : M response :=
  match req with
  | GetSuggestions jobId =>
      match jobId with
      | None => mret (json (PError (Some "Missing jobId parameter")) 400)
      | Some jobId =>
          if jobId =? "" then mret (json (PError (Some "Missing jobId parameter")) 400)
          else
            let resolvedId := if jobId =? "review" then None else Some jobId in
            data ← loadSuggestions resolvedId;
            match data with
            | None => mret (json (PError (Some "No suggestions found")) 404)
            | Some data => mret (json (PSuggestionsFile data) 200)
            end
      end
  | PostAccept None => mret (json (PError (Some "Invalid JSON body")) 400)
  | PostAccept (Some body) =>
      ids ← lift (getProp body (PName "ids"));
      jobId ← lift (getProp body (PName "jobId"));
      if nullish ids then mret (json (PError (Some "Missing ids field")) 400)
      else
        match ids with
        | VStr s =>
            if s =? "all" then acceptIds All jobId
            else mret (json (PError (Some ("ids must be an array of numbers or "
                                            +:+ dq +:+ "all" +:+ dq))) 400)
        | VArr l =>
            if (length l =? 0)%nat then mret (json (PError (Some "ids array is empty")) 400)
            else acceptIds (Ids (numbersOf l)) jobId
        | _ => mret (json (PError (Some ("ids must be an array of numbers or "
                                          +:+ dq +:+ "all" +:+ dq))) 400)
        end
  | GetProfile =>
      f ← gets profile_json;
      match f with
      | None => mret (json (PError (Some "No profile found")) 404)
      | Some (Parsed profile) => mret (json (PJson (jsonify profile)) 200)
      | Some (Unparseable _) => mret (json (PError (Some "Invalid profile JSON")) 500)
      end
  | PutProfile None => mret (json (PError (Some "Invalid JSON body")) 400)
  | PutProfile (Some body) =>
      let name := child body "name" in
      if negb (truthy body) || negb (isContainer body) || negb (truthy name)
         || match name with VStr s => trim s =? "" | _ => true end
      then mret (json (PError (Some "name is required")) 400)
      else
        exists_ ← gets (fun w : world => bool_decide (is_Some (profile_json w)));
        _ ← (if exists_ : bool then modify copyProfileToBackup else mret tt);
        _ ← modify (writeProfile body);
        mret (json PSuccess 200)
  | Unrouted => mret (json (PError (Some "Not found")) 404)
  end.

(** ** review.ts: the interactive review *)

(** What a run of the interactive review works on: the files, the chunks
    that standard input will deliver, one for each [data] event, and what has
    been written to standard output, one entry for each write *)
Record session : Type := {
  files : world;
  stdin : list string;
  stdout : list string
}.

(** How far an asynchronous function gets: it returns, its promise is
    rejected, it waits for input that does not come, or it leaves the
    embedding *)
Inductive step (A : Type) : Type :=
| Returned (a : A)
| Rejected (e : exn)
| Awaiting
| NotCovered.

Arguments Returned {A} a.
Arguments Rejected {A} e.
Arguments Awaiting {A}.
Arguments NotCovered {A}.

Definition IO (A : Type) : Type := session -> step A * session.

#[global] Instance IO_ret : MRet IO := fun A a s => (Returned a, s).

#[global] Instance IO_bind : MBind IO := fun A B f m s =>
  match m s with
  | (Returned a, s') => f a s'
  | (Rejected e, s') => (Rejected e, s')
  | (Awaiting, s') => (Awaiting, s')
  | (NotCovered, s') => (NotCovered, s')
  end.

(** A function of review.ts that works on the files *)
Definition inFiles {A} (m : M A) : IO A := fun s =>
  let s' := {| files := (m (files s)).2; stdin := stdin s; stdout := stdout s |} in
  match (m (files s)).1 with
  | Ret a => (Returned a, s')
  | Throw e => (Rejected e, s')
  | OutOfModel => (NotCovered, s')
  end.

(** [process.stdout.write(text)] *)
Definition stdoutWrite (text : string) : IO unit := fun s =>
  (Returned tt, {| files := files s; stdin := stdin s; stdout := stdout s ++ [text] |}).

(** [console.log(text)] *)
Definition consoleLog (text : string) : IO unit := stdoutWrite (text +:+ nl).

(** The next [data] event *)
Definition onData : IO string := fun s =>
  match stdin s with
  | [] => (Awaiting, s)
  | chunk :: rest => (Returned chunk, {| files := files s; stdin := rest; stdout := stdout s |})
  end.

(** [readChar]: the first character of the next chunk, the rest of which is
    dropped; [None] is the [undefined] that an empty chunk gives *)
Definition readChar (prompt : string) : IO (option ascii) :=
  _ ← stdoutWrite prompt;
  chunk ← onData;
  let ch := match chunk with String c _ => Some c | EmptyString => None end in
  _ ← stdoutWrite (match ch with
                   | Some c => String c EmptyString
                   | None => "undefined"
                   end +:+ nl);
  mret ch.

(** [str.includes("\n")] *)
Fixpoint hasLineFeed (s : string) : bool :=
  match s with
  | EmptyString => false
  | String c s' => (N_of_ascii c =? 10)%N || hasLineFeed s'
  end.

(** [str.split("\n")] *)
Fixpoint splitLines (s : string) : list string :=
  match s with
  | EmptyString => [EmptyString]
  | String c s' =>
      if (N_of_ascii c =? 10)%N then EmptyString :: splitLines s'
      else match splitLines s' with
           | line :: lines => String c line :: lines
           | [] => [String c EmptyString]
           end
  end.

(** The [data] events of [readLine]: chunks without a line feed are
    buffered, the first chunk with one ends the line, and what follows the
    line feed in it is dropped *)
Fixpoint readLineLoop (buf : string) (chunks : list string) : option (string * list string) :=
  match chunks with
  | [] => None
  | str :: rest =>
      if hasLineFeed str then Some (trim (buf +:+ hd EmptyString (splitLines str)), rest)
      else readLineLoop (buf +:+ str) rest
  end.

Definition onLine : IO string := fun s =>
  match readLineLoop EmptyString (stdin s) with
  | Some (line, rest) =>
      (Returned line, {| files := files s; stdin := rest; stdout := stdout s |})
  | None => (Awaiting, {| files := files s; stdin := []; stdout := stdout s |})
  end.

Definition readLine (prompt : string) : IO string :=
  _ ← stdoutWrite prompt;
  onLine.

(** [s.repeat(n)] *)
Fixpoint repeatStr (s : string) (n : nat) : string :=
  match n with
  | O => EmptyString
  | S n' => s +:+ repeatStr s n'
  end.

Definition string_of_nat (n : nat) : string := string_of_N (N.of_nat n).

(** [String(n)] for an integer [n] *)
Definition string_of_Z (n : Z) : string :=
  if (n <? 0)%Z then "-" +:+ string_of_N (Z.to_N (- n)) else string_of_N (Z.to_N n).

Definition upperChar (c : ascii) : ascii :=
  let n := N_of_ascii c in
  if ((97 <=? n) && (n <=? 122))%N then ascii_of_N (n - 32) else c.

Fixpoint toUpperCase (s : string) : string :=
  match s with
  | EmptyString => EmptyString
  | String c s' => String (upperChar c) (toUpperCase s')
  end.

(** [s.replace(/\[(\d+)\]/g, " #$1")], reading [s] from left to right:
    [pending] holds the digits read behind an opening bracket that may still
    become a match *)
Fixpoint replaceIndices (s : string) (pending : option string) : string :=
  match s with
  | EmptyString =>
      match pending with
      | Some ds => "[" +:+ ds
      | None => EmptyString
      end
  | String c s' =>
      match pending with
      | Some ds =>
          if isDigit c then replaceIndices s' (Some (ds +:+ String c EmptyString))
          else if (N_of_ascii c =? 93)%N && negb (ds =? "")
          then " #" +:+ ds +:+ replaceIndices s' None
          else if (N_of_ascii c =? 91)%N then "[" +:+ ds +:+ replaceIndices s' (Some EmptyString)
          else "[" +:+ ds +:+ String c (replaceIndices s' None)
      | None =>
          if (N_of_ascii c =? 91)%N then replaceIndices s' (Some EmptyString)
          else String c (replaceIndices s' None)
      end
  end.

(** [s.replace(/\./g, " > ")] *)
Fixpoint replaceDots (s : string) : string :=
  match s with
  | EmptyString => EmptyString
  | String c s' =>
      if (N_of_ascii c =? 46)%N then " > " +:+ replaceDots s' else String c (replaceDots s')
  end.

Definition sectionLabel (section : string) : string :=
  replaceDots (replaceIndices (toUpperCase section) None).

(** [jobId ? ` ${jobId}` : ""] *)
Definition jobSuffix (jobId : option string) : string :=
  match jobId with
  | Some j => if j =? "" then "" else " " +:+ j
  | None => ""
  end.

(** An entry of [actions] *)
Record action : Type := {
  action_id : Z;
  action_section : string;
  action_name : string
}.

(** [console.log(prefix + line)] for each line *)
Fixpoint logEach (prefix : string) (lines : list string) : IO unit :=
  match lines with
  | [] => mret tt
  | line :: rest => _ ← consoleLog (prefix +:+ line); logEach prefix rest
  end.

(** The header; [trackerGet] stands for [tracker.get] and yields the title
    and the company of a job.  The hint has 38 characters. *)
Definition printHeader (trackerGet : string -> option (string * string))
    (data : SuggestionsFile) (total : nat) : IO unit :=
  _ ← consoleLog "";
  _ ← consoleLog ("+" +:+ repeatStr "-" 54 +:+ "+");
  _ ← consoleLog ("|  Resume Review — " +:+ string_of_nat total +:+ " suggestion"
                   +:+ (if (total =? 1)%nat then "" else "s")
                   +:+ repeatStr " " (35 - String.length (string_of_nat total)) +:+ "|");
  _ ← match jobId data with
      | Some j =>
          if j =? "" then mret tt
          else
            let label :=
              match trackerGet j with
              | Some (title, company) => title +:+ " @ " +:+ company
              | None => j
              end in
            let trimmed :=
              if (48 <? String.length label)%nat then slice0 label 45 +:+ "..." else label in
            consoleLog ("|  " +:+ trimmed +:+ repeatStr " " (52 - String.length trimmed) +:+ "|")
      | None => mret tt
      end;
  _ ← consoleLog ("|  " +:+ "Interactive — press a/s/e/m/q for each"
                   +:+ repeatStr " " (52 - 38) +:+ "|");
  _ ← consoleLog ("+" +:+ repeatStr "-" 54 +:+ "+");
  consoleLog "".

(** What the loop shows of a suggestion before it asks *)
Definition printSuggestion (i total : nat) (s : Suggestion) : IO unit :=
  _ ← consoleLog ("[" +:+ string_of_nat (i + 1) +:+ "/" +:+ string_of_nat total +:+ "] "
                   +:+ sectionLabel (section s) +:+ " — " +:+ typeName (type s));
  _ ← consoleLog "";
  _ ← consoleLog "  Current:";
  _ ← logEach "  > " (splitLines (current s));
  _ ← consoleLog "";
  _ ← (if isRemove (type s) then mret tt
       else
         _ ← consoleLog "  Suggested:";
         _ ← logEach "  > " (splitLines (suggested s));
         consoleLog "");
  let wrappedReason := wordWrap (reason s) 60 in
  _ ← consoleLog ("  Why: " +:+ hd "undefined" wrappedReason);
  _ ← logEach "  " (tl wrappedReason);
  _ ← consoleLog ("  (" +:+ principle s +:+ ")");
  consoleLog "".

(** The block that makes the backup before the first change; it yields the
    new [backupCreated] *)
Definition backupFirst (backupCreated : bool) : IO bool :=
  if negb backupCreated then
    exists_ ← inFiles (gets (fun w : world => bool_decide (is_Some (profile_json w))));
    if exists_ : bool then
      _ ← inFiles (modify copyProfileToBackup);
      _ ← consoleLog "  Backup saved to data/profile.backup.json";
      mret true
    else mret backupCreated
  else mret backupCreated.

(** [applySuggestion(s, profile); writeProfileAtomic(profile); logChange(s, name, jobId)] *)
Definition applyAndLog (s : Suggestion) (profile : value) (name : string)
    (jobId : option string) : IO unit :=
  profile' ← inFiles (lift (applySuggestion s profile));
  _ ← inFiles (writeProfileAtomic profile');
  inFiles (logChange s name jobId).

(** The branches of the loop; each yields the new [backupCreated],
    [changesApplied] and [actions] *)
Definition onApprove (jobId : option string) (s : Suggestion)
    (backupCreated : bool) (changesApplied : nat) (actions : list action)
    : IO (bool * nat * list action) :=
  backupCreated ← backupFirst backupCreated;
  profile ← inFiles loadProfile;
  if truthy profile then
    _ ← applyAndLog s profile "approved" jobId;
    _ ← consoleLog "  Applied.";
    mret (backupCreated, S changesApplied,
          actions ++ [{| action_id := id s; action_section := section s;
                         action_name := "approved" |}])
  else
    _ ← consoleLog "  Error: could not load profile.";
    mret (backupCreated, changesApplied, actions).

Definition onEdit (jobId : option string) (s : Suggestion)
    (backupCreated : bool) (changesApplied : nat) (actions : list action)
    : IO (bool * nat * list action) :=
  _ ← consoleLog "  Enter your version (press Enter when done):";
  edited ← readLine "  > ";
  if negb (edited =? "") then
    backupCreated ← backupFirst backupCreated;
    profile ← inFiles loadProfile;
    if truthy profile then
      let editedSuggestion :=
        {| id := id s; section := section s; type := type s; current := current s;
           suggested := edited; reason := reason s; principle := principle s |} in
      _ ← applyAndLog editedSuggestion profile "edited" jobId;
      _ ← consoleLog "  Applied (edited).";
      mret (backupCreated, S changesApplied,
            actions ++ [{| action_id := id s; action_section := section s;
                           action_name := "edited" |}])
    else mret (backupCreated, changesApplied, actions)
  else
    _ ← consoleLog "  Skipped (empty input).";
    mret (backupCreated, changesApplied,
          actions ++ [{| action_id := id s; action_section := section s;
                         action_name := "skipped" |}]).

Definition onManual (jobId : option string) (i : nat) (s : Suggestion)
    (backupCreated : bool) (changesApplied : nat) (actions : list action)
    : IO (bool * nat * list action) :=
  _ ← consoleLog "  Which section? (e.g., summary, experience[0].bullets[2]):";
  section' ← readLine "  section > ";
  _ ← consoleLog "  Enter your text:";
  text ← readLine "  text > ";
  if negb (section' =? "") && negb (text =? "") then
    backupCreated ← backupFirst backupCreated;
    profile ← inFiles loadProfile;
    if truthy profile then
      let manualSuggestion :=
        {| id := 9000 + Z.of_nat i; section := section'; type := Rewrite;
           current := "(manual)"; suggested := text;
           reason := "Manual user addition"; principle := "user" |} in
      _ ← applyAndLog manualSuggestion profile "manual" jobId;
      _ ← consoleLog "  Applied (manual).";
      mret (backupCreated, S changesApplied,
            actions ++ [{| action_id := id manualSuggestion; action_section := section';
                           action_name := "manual" |}])
    else mret (backupCreated, changesApplied, actions)
  else
    _ ← consoleLog "  Skipped (empty input).";
    mret (backupCreated, changesApplied,
          actions ++ [{| action_id := id s; action_section := section s;
                         action_name := "skipped" |}]).

Definition onSkip (jobId : option string) (s : Suggestion)
    (backupCreated : bool) (changesApplied : nat) (actions : list action)
    : IO (bool * nat * list action) :=
  _ ← inFiles (logChange s "skipped" jobId);
  _ ← consoleLog "  Skipped.";
  mret (backupCreated, changesApplied,
        actions ++ [{| action_id := id s; action_section := section s;
                       action_name := "skipped" |}]).

(** [ch === k] *)
Definition isKey (ch : option ascii) (k : ascii) : bool :=
  match ch with
  | Some c => Ascii.eqb c k
  | None => false
  end.

(** The loop over the suggestions from the [i]-th on; it yields the final
    [changesApplied] and [actions] *)
Fixpoint reviewLoop (jobId : option string) (total i : nat) (rest : list Suggestion)
    (backupCreated : bool) (changesApplied : nat) (actions : list action)
    : IO (nat * list action) :=
  match rest with
  | [] => mret (changesApplied, actions)
  | s :: rest' =>
      _ ← printSuggestion i total s;
      ch ← readChar "  [a]pprove  [s]kip  [e]dit  [m]anual add  [q]uit > ";
      _ ← consoleLog "";
      if isKey ch "q" then mret (changesApplied, actions)
      else
        st ← (if isKey ch "a" then onApprove jobId s backupCreated changesApplied actions
              else if isKey ch "e" then onEdit jobId s backupCreated changesApplied actions
              else if isKey ch "m" then onManual jobId i s backupCreated changesApplied actions
              else onSkip jobId s backupCreated changesApplied actions);
        _ ← consoleLog "";
        reviewLoop jobId total (S i) rest' st.1.1 st.1.2 st.2
  end.

(** [actions.filter((a) => a.action === name)] *)
Definition actionsNamed (name : string) (actions : list action) : list action :=
  List.filter (fun a => action_name a =? name) actions.

Definition printSummary (jobId : option string) (total changesApplied : nat)
    (actions : list action) : IO unit :=
  _ ← consoleLog ("Done! " +:+ string_of_nat changesApplied +:+ " change(s) applied out of "
                   +:+ string_of_nat total +:+ " suggestions.");
  let approved := actionsNamed "approved" actions in
  let edited := actionsNamed "edited" actions in
  let manual := actionsNamed "manual" actions in
  let skippedActions := actionsNamed "skipped" actions in
  let withSection a := "#" +:+ string_of_Z (action_id a) +:+ " " +:+ action_section a in
  _ ← (if (0 <? length approved)%nat
       then consoleLog ("  Approved: " +:+ String.concat ", " (map withSection approved))
       else mret tt);
  _ ← (if (0 <? length edited)%nat
       then consoleLog ("  Edited:   " +:+ String.concat ", " (map withSection edited))
       else mret tt);
  _ ← (if (0 <? length manual)%nat
       then consoleLog ("  Manual:   " +:+ String.concat ", " (map withSection manual))
       else mret tt);
  _ ← (if (0 <? length skippedActions)%nat
       then consoleLog ("  Skipped:  " +:+ String.concat ", "
                          (map (fun a => "#" +:+ string_of_Z (action_id a)) skippedActions))
       else mret tt);
  if (0 <? changesApplied)%nat then
    _ ← consoleLog "";
    _ ← consoleLog "Re-run the review to generate fresh suggestions:";
    consoleLog ("  bun run job-hunt.ts review" +:+ jobSuffix jobId)
  else mret tt.

Definition runInteractiveReview (trackerGet : string -> option (string * string))
    (jobId : option string) : IO unit :=
  data ← inFiles (loadSuggestions jobId);
  match data with
  | None =>
      consoleLog ("No suggestions found. Run `review" +:+ jobSuffix jobId
                  +:+ "` first to generate them.")
  | Some data =>
      if (length (suggestions data) =? 0)%nat then
        consoleLog ("No suggestions found. Run `review" +:+ jobSuffix jobId
                    +:+ "` first to generate them.")
      else
        let total := length (suggestions data) in
        _ ← printHeader trackerGet data total;
        r ← reviewLoop jobId total 0 (suggestions data) false 0 [];
        printSummary jobId total r.1 r.2
  end.

(** ** The statements of the specification *)


(** A path resolves inside the document when [resolvePath] finds a parent
    that is a map, or an array addressed by an index *)
Definition resolves_inside (d : value) (path : string) (r : resolved) : Prop :=
  resolvePath d path = Ret (Some r) ∧
  match r_parent r with
  | VObj _ => True
  | VArr _ => is_Some (arrayIndex (ToPropertyKey (r_key r)))
  | _ => False
  end.


(** Removing through a number key of an array parent, as the specification
    words it for every resolved path: the array at the parent's place gets
    shorter by one *)
Definition splices_one (s : Suggestion) (d : value) : Prop :=
  ∀ r l i, resolvePath d (section s) = Ret (Some r) →
           r_parent r = VArr l → r_key r = PIndex i →
           ∃ d' l', applySuggestion s d = Ret d' ∧
                    get d' (map ToPropertyKey (r_loc r)) = VArr l' ∧
                    S (length l') = length l.

(** The suggestions [applyByIds] is asked to apply *)
Definition toApplyOf (ids : ids_arg) (data : option SuggestionsFile) : list Suggestion :=
  match data with
  | Some data => List.filter (selected ids) (suggestions data)
  | None => []
  end.

Definition loadedSuggestions (jobId : option string) (w : world) : option SuggestionsFile :=
  match output w !! dirName jobId ≫= suggestions_json with
  | Some (Parsed data) => Some data
  | _ => None
  end.

(** The world once the directory of the job exists *)
Definition afterDir (jobId : option string) (w : world) : world :=
  if bool_decide (is_Some (output w !! dirName jobId)) then w
  else emit (EMkdir (dirName jobId)) (set_output (insert (dirName jobId) emptyDir) w).

(** What [loadProfile] returns in a world *)
Definition profileValue (w : world) : value :=
  match profile_json w with
  | Some (Parsed v) => v
  | _ => VNull
  end.

(** The profile after the suggestions have been applied one after the other *)
Fixpoint applyAll (toApply : list Suggestion) (profile : value) : res value :=
  match toApply with
  | [] => Ret profile
  | s :: rest => res_bind (applySuggestion s profile) (applyAll rest)
  end.

(** The events a call adds to the trace *)
Definition eventsOf {A} (m : M A) (w : world) : list event :=
  drop (length (trace w)) (trace (m w).2).


(** The events of the loop over [toApply] *)
Definition isLoopEvent (e : event) : bool :=
  match e with
  | EMkdir _ | EMutate _ | ELog _ => true
  | _ => false
  end.

Definition isMkdir (e : event) : bool :=
  match e with
  | EMkdir _ => true
  | _ => false
  end.

(** Two worlds with the same profile, backup and temporary files *)
Definition sameProfileFiles (w w' : world) : Prop :=
  profile_json w' = profile_json w ∧
  profile_backup_json w' = profile_backup_json w ∧
  profile_json_tmp w' = profile_json_tmp w.


(** The profile file holds a profile that [loadProfile] accepts *)
Definition profileLoads (w : world) : bool :=
  match profile_json w with
  | Some (Parsed v) => truthy v
  | _ => false
  end.

(** The tokens of a query: split at white space, lower-cased, without the
    tokens of length at most one and the stopwords *)
Definition specTokens (query : string) : list string :=
  List.filter (fun w => negb ((String.length w <=? 1)%nat || bool_decide (w ∈ STOPWORDS)))
              (map toLowerCase (splitWs query)).

(** [token] occurs in [text], ignoring case *)
Definition occursIn (text token : string) : bool :=
  includes (toLowerCase text) (toLowerCase token).





(** A string without white space *)
Definition noSpace (s : string) : bool :=
  forallb (fun c => negb (isSpace c)) (list_ascii_of_string s).

(** A string without line feed *)
Definition noLineFeed (s : string) : bool :=
  forallb (fun c => negb (N_of_ascii c =? 10)%N) (list_ascii_of_string s).

(** The words of a text: its pieces between white space that are not empty *)
Definition wordsOf (s : string) : list string :=
  List.filter (fun w => negb (w =? "")) (splitWs s).

(** The number of nodes of a document *)
Fixpoint vsize (v : value) : nat :=
  match v with
  | VArr l => S (list_sum (map vsize l))
  | VObj m => S (map_fold (fun _ x acc => (vsize x + acc)%nat) 0%nat m)
  | _ => 1
  end.

(** A document as [JSON.parse] returns it: without [undefined] *)
Fixpoint jsonClean (v : value) : bool :=
  match v with
  | VUndef => false
  | VArr l => forallb jsonClean l
  | VObj m => map_fold (fun _ x acc => jsonClean x && acc) true m
  | _ => true
  end.

(** The text of the changelog before an entry is added *)
Definition changelogBefore (jobId : option string) (w : world) : string :=
  match output w !! dirName jobId ≫= changelog_md with
  | Some text => text
  | None => "# Review Changelog" +:+ nl +:+ nl
  end.

(** The ids of the changelog entries among the events *)
Definition logged (evs : list event) : list Z :=
  omap (fun e => match e with ELog i => Some i | _ => None end) evs.

(** The keys of a list of results *)
Definition keysOf (jobs : list JobResult) : list string :=
  map (fun j => dedupeKey (jobUrl j)) jobs.

(** A string without [?] *)
Definition noQuestionMark (s : string) : bool :=
  forallb (fun c => negb (c =? "?")%char) (list_ascii_of_string s).

(** What a fetch that threw leaves in the log *)
Definition fetchThrew {A} (r : fetched A) : bool :=
  match r with FetchThrows => true | _ => false end.

(** Scores from the highest to the lowest *)
Definition descending {A} (l : list (A * Z)) : Prop :=
  StronglySorted (fun a b => (b.2 <= a.2)%Z) l.

(** The entries of a given score, in their order *)
Definition withScore {A} (s : Z) (l : list (A * Z)) : list (A * Z) :=
  List.filter (fun y => (y.2 =? s)%Z) l.


(** A body that PUT /api/profile takes: an object whose [name] is a string
    with more than white space in it *)
Definition namedProfile (body : option value) : Prop :=
  ∃ m s, body = Some (VObj m) ∧ m !! "name" = Some (VStr s) ∧ trim s ≠ "".

(** A run of [m] from a session in [P] ends in [Q] when it returns and in
    [E] when it is rejected, waits for input or leaves the embedding *)
Definition triple {A} (P : session → Prop) (m : IO A)
    (Q : A → session → Prop) (E : session → Prop) : Prop :=
  ∀ s, P s → match m s with
             | (Returned a, s') => Q a s'
             | (_, s') => E s'
             end.

(** Sessions whose files are in [F] and whose pending chunks are all [ok] *)
Definition within (F : world → Prop) (ok : string → Prop) (s : session) : Prop :=
  F (files s) ∧ Forall ok (stdin s).

(** [m] leaves the files alone and only consumes input *)
Definition quiet {A} (m : IO A) : Prop :=
  ∀ s, files (m s).2 = files s ∧ stdin (m s).2 `suffix_of` stdin s.

(** The key a chunk gives to [readChar] *)
Definition firstChar (chunk : string) : option ascii :=
  match chunk with
  | String c _ => Some c
  | EmptyString => None
  end.

(** A chunk whose key neither approves, nor edits, nor adds *)
Definition passiveKey (chunk : string) : Prop :=
  isKey (firstChar chunk) "a" = false ∧ isKey (firstChar chunk) "e" = false
  ∧ isKey (firstChar chunk) "m" = false.

(** Reading events with the backup in mind: [seen] tells whether the backup
    has been made; a second backup, or a write of the profile without a
    backup before it, gives [None] *)
Fixpoint scan (seen : bool) (evs : list event) : option bool :=
  match evs with
  | [] => Some seen
  | EBackup :: rest => if seen then None else scan true rest
  | EWriteTmp :: rest | ERename :: rest => if seen then scan seen rest else None
  | _ :: rest => scan seen rest
  end.

(** The files in the course of a review that started from [w0], [b] being
    its [backupCreated] *)
Definition reviewed (w0 : world) (b : bool) (w : world) : Prop :=
  ∃ evs, trace w = trace w0 ++ evs ∧ scan false evs = Some b ∧
         if b then profile_backup_json w = profile_json w0 else sameProfileFiles w0 w.

(** Two documents that JSON does not tell apart: they are written to the
    same file *)
Definition sameJson (a b : value) : Prop := jsonify a = jsonify b.

(** Two outcomes of the same kind, with results related by [R] *)
Definition res_rel {A} (R : A → A → Prop) (x y : res A) : Prop :=
  match x, y with
  | Ret a, Ret b => R a b
  | Throw e, Throw e' => e = e'
  | OutOfModel, OutOfModel => True
  | _, _ => False
  end.

(** The profile on disk after the suggestions have been approved one after
    the other, each approval loading the profile and writing it back *)
Fixpoint approveAll (toApply : list Suggestion) (profile : value) : res value :=
  match toApply with
  | [] => Ret profile
  | s :: rest => res_bind (applySuggestion s profile) (fun p => approveAll rest (jsonify p))
  end.

(** What [jsonify] keeps of a member *)
Definition kept (x : value) : option value :=
  match x with
  | VUndef => None
  | _ => Some (jsonify x)
  end.

(** [m] only writes to standard output, and returns *)
Definition mute (m : IO unit) : Prop :=
  ∀ s, ∃ out, m s = (Returned tt,
                     {| files := files s; stdin := stdin s; stdout := stdout s ++ out |}).

(** Sessions whose files are in [F] and whose pending chunks are [input] *)
Definition exactly (F : world → Prop) (input : list string) (s : session) : Prop :=
  F (files s) ∧ stdin s = input.

(** The profile file holds [p] and the backup file is [bk] *)
Definition disk (p : value) (bk : option (file value)) (w : world) : Prop :=
  profile_json w = Some (Parsed p) ∧ profile_backup_json w = bk.

(** A chunk whose key approves *)
Definition approving (chunk : string) : Prop := firstChar chunk = Some "a"%char.

(** ** Test data, after review.test.ts *)

Definition obj (l : list (string * value)) : value := VObj (list_to_map l).

Definition makeSuggestion (sec : string) (t : stype) (sug : string) : Suggestion :=
  {| id := 99; section := sec; type := t; current := ""; suggested := sug;
     reason := "test"; principle := "test" |}.

Definition TEST_PROFILE : value :=
  obj [("name", VStr "Test User");
       ("email", VStr "test@example.com");
       ("summary", VStr "Original summary text");
       ("experience",
        VArr [obj [("company", VStr "Company A");
                   ("title", VStr "Engineer");
                   ("dates", VStr "2020 - 2024");
                   ("bullets", VArr [VStr "First bullet"; VStr "Old bullet"; VStr "Third bullet"])];
              obj [("company", VStr "Company B");
                   ("title", VStr "Junior Dev");
                   ("dates", VStr "2018 - 2020");
                   ("bullets", VArr [VStr "Remove me"; VStr "Keep me"])]]);
       ("skills",
        VArr [obj [("category", VStr "Languages");
                   ("items", VArr [VStr "Go"; VStr "Python"; VStr "TypeScript"; VStr "SQL"])]])].

Definition TEST_SUGGESTIONS : SuggestionsFile :=
  {| generatedAt := "2026-01-01T00:00:00Z";
     jobId := Some "__test__";
     suggestions :=
       [ {| id := 1; section := "summary"; type := Rewrite;
            current := "Senior software engineer with 6 years of experience building scalable backend systems and data pipelines";
            suggested := "Backend-focused engineer who reduced deploy times 80% and built pipelines processing 2M events/day";
            reason := "More specific and measurable"; principle := "6-second scan" |};
         {| id := 2; section := "experience[0].bullets[1]"; type := Rewrite;
            current := "Old bullet"; suggested := "New XYZ bullet with metrics";
            reason := "Use XYZ formula"; principle := "XYZ formula" |};
         {| id := 3; section := "experience[1].bullets[0]"; type := Remove;
            current := "Remove me"; suggested := "";
            reason := "Weak bullet without impact"; principle := "relevance" |};
         {| id := 4; section := "skills[0].items[2]"; type := Rewrite;
            current := "TypeScript"; suggested := "TypeScript/JavaScript";
            reason := "More complete listing"; principle := "keyword match" |} ] |}.

Definition testWorld (profile : option (file value)) (sugg : option (file SuggestionsFile)) : world :=
  {| profile_json := profile;
     profile_backup_json := None;
     profile_json_tmp := None;
     output := {[ "__test__" := {| suggestions_json := sugg; changelog_md := None |} ]};
     clock := fun _ => "2026-01-01T00:00:00.000Z";
     ticks := 0;
     trace := [] |}.


(** * Properties *)

(** ** Examples from the test suite *)

Example parsePath_nested :
  parsePath "experience[0].bullets[1]" = [PName "experience"; PIndex 0; PName "bullets"; PIndex 1].
Proof. reflexivity. Qed.

Example parsePath_stray_brackets : parsePath "a[x].[12" = [PName "a"; PName "x"; PName "12"].
Proof. reflexivity. Qed.

Example parsePath_no_part : parsePath "..[]" = [].
Proof. reflexivity. Qed.

Example rewrites_nested_array_element :
  res_bind (applySuggestion (makeSuggestion "experience[0].bullets[1]" Rewrite "Improved bullet") TEST_PROFILE)
    (fun d => Ret (get d ["experience"; "0"; "bullets"; "1"], get d ["experience"; "0"; "bullets"; "0"]))
  = Ret (VStr "Improved bullet", VStr "First bullet").
Proof. vm_compute. reflexivity. Qed.

Example removes_from_array :
  res_bind (applySuggestion (makeSuggestion "experience[1].bullets[0]" Remove "") TEST_PROFILE)
    (fun d => Ret (get d ["experience"; "1"; "bullets"]))
  = Ret (VArr [VStr "Keep me"]).
Proof. vm_compute. reflexivity. Qed.

Example nonexistent_path_unchanged :
  applySuggestion (makeSuggestion "nonexistent[99].deep.path" Rewrite "x") TEST_PROFILE = Ret TEST_PROFILE.
Proof. vm_compute. reflexivity. Qed.

Example write_into_string_throws :
  applySuggestion (makeSuggestion "summary[0]" Rewrite "x") TEST_PROFILE = Throw TypeError.
Proof. vm_compute. reflexivity. Qed.

Example applies_specific_ids :
  (applyByIds (Ids [1; 3]%Z) (Some "__test__")
     (testWorld (Some (Parsed TEST_PROFILE)) (Some (Parsed TEST_SUGGESTIONS)))).1
  = Ret {| applied := [1; 3]%Z; skipped := [2; 4]%Z; backupCreated := true |}.
Proof. vm_compute. reflexivity. Qed.

Example no_backup_when_nothing_matches :
  let w := testWorld (Some (Parsed TEST_PROFILE)) (Some (Parsed TEST_SUGGESTIONS)) in
  let r := applyByIds (Ids [999]%Z) (Some "__test__") w in
  r.1 = Ret {| applied := []; skipped := [1; 2; 3; 4]%Z; backupCreated := false |} ∧
  profile_backup_json r.2 = None ∧ profile_json r.2 = profile_json w.
Proof. vm_compute. auto. Qed.

Example persists_changes :
  let w := testWorld (Some (Parsed TEST_PROFILE)) (Some (Parsed TEST_SUGGESTIONS)) in
  let w' := (applyByIds (Ids [1]%Z) (Some "__test__") w).2 in
  match profile_json w' with
  | Some (Parsed p) => get p ["summary"]
  | _ => VUndef
  end = VStr "Backend-focused engineer who reduced deploy times 80% and built pipelines processing 2M events/day"
  ∧ profile_backup_json w' = Some (Parsed TEST_PROFILE)
  ∧ trace w' = [EBackup; EMutate 1; ELog 1; EWriteTmp; ERename].
Proof. vm_compute. auto. Qed.

(** ** The path tokenizer *)

Lemma span_length p s a b :
  span p s = (a, b) → (String.length b ≤ String.length s)%nat.
Proof.
  revert a b. induction s as [|c s IH]; intros a b; simpl.
  - intros [= <- <-]. simpl. lia.
  - destruct (p c).
    + destruct (span p s) as [a' b'] eqn:E. intros [= <- <-].
      specialize (IH _ _ eq_refl). lia.
    + intros [= <- <-]. simpl. lia.
Qed.

Lemma matchAt_shorter s p rest :
  matchAt s = Some (p, rest) → (String.length rest < String.length s)%nat.
Proof.
  destruct s as [|c s]; simpl; [discriminate|].
  destruct (isNameChar c) eqn:Hc.
  - destruct (span isNameChar s) as [a b] eqn:E. intros [= <- <-].
    apply span_length in E. lia.
  - destruct (c =? "[")%char; [|discriminate].
    destruct (span isDigit s) as [a b] eqn:E.
    destruct a as [|d ds]; [discriminate|].
    destruct b as [|c' b]; [discriminate|].
    destruct (c' =? "]")%char; [|discriminate].
    intros [= <- <-]. apply span_length in E. simpl in E. lia.
Qed.

(** More fuel than the length of the text changes nothing: the loop always
    runs to the end of the path. *)
Lemma execLoop_fuel_irrelevant f f' s :
  (String.length s ≤ f)%nat → (String.length s ≤ f')%nat →
  execLoop f s = execLoop f' s.
Proof.
  revert f' s. induction f as [|f IH]; intros f' s Hf Hf'.
  - destruct s; simpl in Hf; [|lia]. destruct f'; reflexivity.
  - destruct f' as [|f'].
    + destruct s; simpl in Hf'; [reflexivity|lia].
    + destruct s as [|c s]; [reflexivity|].
      cbn [execLoop]. destruct (matchAt (String c s)) as [[p rest]|] eqn:E.
      * apply matchAt_shorter in E. simpl in *. f_equal. apply IH; lia.
      * simpl in *. apply IH; lia.
Qed.

Lemma execLoop_fuel f s :
  (String.length s ≤ f)%nat → execLoop f s = parsePath s.
Proof. intros H. apply execLoop_fuel_irrelevant; [exact H | lia]. Qed.



(** ** Reading never throws under the null checks of resolvePath *)

Lemma getProp_Ret v p : nullish v = false → ∃ c, getProp v p = Ret c.
Proof.
  unfold getProp. destruct v; simpl; try discriminate; intros _; eauto.
  - destruct (arrayIndex _); eauto. destruct (_ =? "length"); eauto.
  - destruct (arrayIndex _); eauto. destruct (_ =? "length"); eauto.
Qed.

Lemma descend_Ret ps d : ∃ r, descend d ps = Ret r.
Proof.
  revert d. induction ps as [|p ps IH]; intros d; simpl; eauto.
  destruct (nullish d) eqn:Hn; eauto.
  destruct (getProp_Ret d p Hn) as [c ->]. simpl. apply IH.
Qed.

Lemma resolvePath_Ret d path : ∃ r, resolvePath d path = Ret r.
Proof.
  unfold resolvePath. destruct (splitLast _) as [[init last]|]; eauto.
  destruct (descend_Ret init d) as [r ->]. simpl.
  destruct r as [c|]; eauto. destruct (nullish c); eauto.
Qed.





(** ** Containers are reached through containers *)



Lemma getProp_primitive v p c :
  isContainer v = false → getProp v p = Ret c → isContainer c = false.
Proof.
  unfold getProp, charAt. destruct v; simpl; try discriminate; intros _.
  - by intros [= <-].
  - by intros [= <-].
  - destruct (arrayIndex _).
    + destruct (String.get _ _); by intros [= <-].
    + destruct (_ =? "length"); by intros [= <-].
Qed.

Lemma descend_primitive ps v c :
  isContainer v = false → descend v ps = Ret (Some c) → isContainer c = false.
Proof.
  revert v. induction ps as [|p ps IH]; intros v Hv; simpl.
  - by intros [= <-].
  - destruct (nullish v); [discriminate|].
    destruct (getProp v p) as [c1| |] eqn:E; simpl; try discriminate.
    apply IH. eapply getProp_primitive; eauto.
Qed.

(** A read that yields a container is a read of a member or of an element *)
Lemma getProp_container v p c :
  getProp v p = Ret c → isContainer c = true →
  match v with
  | VObj m => m !! ToPropertyKey p = Some c
  | VArr l => ∃ i, arrayIndex (ToPropertyKey p) = Some i ∧ l !! N.to_nat i = Some c
  | _ => False
  end.
Proof.
  intros Hg Hc. destruct v;
    try (apply getProp_primitive in Hg; [congruence | reflexivity]);
    unfold getProp in Hg; simpl in Hg.
  - destruct (arrayIndex _) as [i|].
    + exists i. split; [done|]. unfold elem in Hg.
      destruct (l !! N.to_nat i); simpl in Hg; injection Hg as <-; done.
    + destruct (_ =? "length"); injection Hg as <-; done.
  - destruct (m !! _); simpl in Hg; injection Hg as <-; done.
Qed.

Lemma descend_container ps d c :
  descend d ps = Ret (Some c) → isContainer c = true →
  get d (map ToPropertyKey ps) = c ∧
  (∀ new r, get (store d ps new) (map ToPropertyKey ps ++ r) = get new r) ∧
  store d ps c = d.
Proof.
  revert d. induction ps as [|p ps IH]; intros d; simpl.
  - intros [= <-] _. auto.
  - destruct (nullish d); [discriminate|].
    destruct (getProp d p) as [c1| |] eqn:E; simpl; try discriminate.
    intros Hd Hc.
    assert (isContainer c1 = true) as Hc1.
    { destruct (isContainer c1) eqn:E1; [done|].
      by rewrite (descend_primitive _ _ _ E1 Hd) in Hc. }
    destruct (IH _ Hd Hc) as (Hget & Hhit & Hid).
    pose proof (getProp_container _ _ _ E Hc1) as Hv.
    destruct d; try done.
    + destruct Hv as (i & Hi & Hl). simpl. rewrite Hi. unfold elem. rewrite Hl.
      simpl. split; [done|]. split.
      * intros new r. rewrite Hi. unfold elem.
        rewrite list_lookup_insert_eq by (by eapply lookup_lt_Some). apply Hhit.
      * rewrite Hid. by rewrite list_insert_id.
    + simpl. rewrite Hv. simpl. split; [done|]. split.
      * intros new r. rewrite lookup_insert_eq. apply Hhit.
      * rewrite Hid. by rewrite insert_id.
Qed.

(** ** The frame of a write *)

Lemma get_undef qs : get VUndef qs = VUndef.
Proof. induction qs; simpl; auto. Qed.



Lemma elem_arraySet_eq l i v : elem (arraySet l i v) i = v.
Proof.
  unfold elem, arraySet. destruct (N.to_nat i <? length l)%nat eqn:E.
  - apply Nat.ltb_lt in E. by rewrite list_lookup_insert_eq.
  - apply Nat.ltb_ge in E. rewrite lookup_app_r by done.
    rewrite lookup_app_r by (rewrite length_replicate; lia).
    rewrite length_replicate. by replace (_ - _ - _)%nat with 0%nat by lia.
Qed.





(** What a successful [resolvePath] tells *)
Lemma resolvePath_Some d path r :
  resolvePath d path = Ret (Some r) →
  splitLast (parsePath path) = Some (r_loc r, r_key r) ∧
  descend d (r_loc r) = Ret (Some (r_parent r)) ∧
  nullish (r_parent r) = false.
Proof.
  unfold resolvePath. destruct (splitLast _) as [[init last]|]; [|discriminate].
  destruct (descend d init) as [[c|]| |] eqn:Hd; simpl; try discriminate.
  destruct (nullish c) eqn:Hc; [discriminate|]. intros [= <-]. simpl.
  repeat split; assumption.
Qed.


(** ** applySuggestion *)



(** A rewrite creates a member that the parent map did not have *)
Example rewrite_creates_member :
  res_bind (applySuggestion (makeSuggestion "experience[0].headline" Rewrite "Lead") TEST_PROFILE)
    (fun d => Ret (get d ["experience"; "0"; "headline"]))
  = Ret (VStr "Lead")
  ∧ get TEST_PROFILE ["experience"; "0"; "headline"] = VUndef.
Proof. vm_compute. auto. Qed.



(** resolvePath never throws, so a call of applySuggestion either returns the
    document as it is or runs the one statement on the resolved parent *)
Lemma applySuggestion_unresolved_or_mutates s d :
  applySuggestion s d = Ret d ∨
  ∃ r, resolvePath d (section s) = Ret (Some r) ∧
       applySuggestion s d =
       res_bind (mutate s (r_parent r) (r_key r)) (fun p => Ret (store d (r_loc r) p)).
Proof.
  unfold applySuggestion. destruct (resolvePath_Ret d (section s)) as [[r|] ->]; simpl; eauto.
Qed.

(** C3, the statement of the specification fails: a number key at or past
    the end of the array resolves, and [splice] then removes nothing. *)
Lemma remove_past_end_counterexample :
  ¬ splices_one (makeSuggestion "experience[1].bullets[5]" Remove "") TEST_PROFILE.
Proof.
  intros H.
  destruct (H (Resolved [PName "experience"; PIndex 1; PName "bullets"]
                        (VArr [VStr "Remove me"; VStr "Keep me"]) (PIndex 5))
              [VStr "Remove me"; VStr "Keep me"] 5%N)
    as (d' & l' & Happ & Hget & Hlen);
    [vm_compute; reflexivity | reflexivity | reflexivity |].
  assert (applySuggestion (makeSuggestion "experience[1].bullets[5]" Remove "") TEST_PROFILE
          = Ret TEST_PROFILE) as Hsame by (vm_compute; reflexivity).
  rewrite Hsame in Happ. injection Happ as <-.
  vm_compute in Hget. injection Hget as <-. simpl in Hlen. lia.
Qed.

(** C3, amended.  For a removal whose path resolves: when the parent is an
    array and the key a number below the length of the array, exactly the
    element at that index is removed (the array gets shorter by one, the
    elements before the index stay and those after it move one place to the
    left); when the parent is a map, the key is deleted, so that it is absent
    from the map and the other members stay. *)
Theorem applySuggestion_remove (s : Suggestion) (d : value) (r : resolved) :
  type s = Remove →
  resolvePath d (section s) = Ret (Some r) →
  (∀ l i, r_parent r = VArr l → r_key r = PIndex i → (N.to_nat i < length l)%nat →
     ∃ d' l', applySuggestion s d = Ret d' ∧
              get d' (map ToPropertyKey (r_loc r)) = VArr l' ∧
              S (length l') = length l ∧
              (∀ j, (j < N.to_nat i)%nat → l' !! j = l !! j) ∧
              (∀ j, (N.to_nat i ≤ j)%nat → l' !! j = l !! S j)) ∧
  (∀ m, r_parent r = VObj m →
     ∃ d' m', applySuggestion s d = Ret d' ∧
              get d' (map ToPropertyKey (r_loc r)) = VObj m' ∧
              m' !! ToPropertyKey (r_key r) = None ∧
              (∀ k, k ≠ ToPropertyKey (r_key r) → m' !! k = m !! k)).
Proof.
  intros Ht Hres.
  destruct (resolvePath_Some _ _ _ Hres) as (_ & Hd & _).
  split.
  - intros l i Hp Hk Hi.
    assert (isContainer (r_parent r) = true) as Hc by (by rewrite Hp).
    destruct (descend_container _ _ _ Hd Hc) as (_ & Hhit & _).
    exists (store d (r_loc r) (VArr (splice1 l i))), (splice1 l i).
    split; [|split; [|split; [|split]]].
    + unfold applySuggestion, mutate. rewrite Hres. simpl. by rewrite Ht, Hp, Hk.
    + specialize (Hhit (VArr (splice1 l i)) []). by rewrite app_nil_r in Hhit.
    + unfold splice1. rewrite length_delete by (by apply lookup_lt_is_Some_2). lia.
    + intros j Hj. by apply list_lookup_delete_lt.
    + intros j Hj. by apply list_lookup_delete_ge.
  - intros m Hp.
    assert (isContainer (r_parent r) = true) as Hc by (by rewrite Hp).
    destruct (descend_container _ _ _ Hd Hc) as (_ & Hhit & _).
    exists (store d (r_loc r) (VObj (delete (ToPropertyKey (r_key r)) m))),
           (delete (ToPropertyKey (r_key r)) m).
    split; [|split; [|split]].
    + unfold applySuggestion, mutate. rewrite Hres. simpl. rewrite Ht, Hp. done.
    + specialize (Hhit (VObj (delete (ToPropertyKey (r_key r)) m)) []).
      by rewrite app_nil_r in Hhit.
    + apply lookup_delete_eq.
    + intros k Hk. by apply lookup_delete_ne.
Qed.

Lemma applySuggestion_remove_witness :
  let s := makeSuggestion "experience[1].bullets[0]" Remove "" in
  ∃ d' l', applySuggestion s TEST_PROFILE = Ret d' ∧
           get d' ["experience"; "1"; "bullets"] = VArr l' ∧
           S (length l') = 2%nat ∧
           (∀ j, (j < 0)%nat → l' !! j = [VStr "Remove me"; VStr "Keep me"] !! j) ∧
           (∀ j, (0 ≤ j)%nat → l' !! j = [VStr "Remove me"; VStr "Keep me"] !! S j).
Proof.
  apply (proj1 (applySuggestion_remove
           (makeSuggestion "experience[1].bullets[0]" Remove "") TEST_PROFILE
           (Resolved [PName "experience"; PIndex 1; PName "bullets"]
                     (VArr [VStr "Remove me"; VStr "Keep me"]) (PIndex 0))
           eq_refl ltac:(vm_compute; reflexivity))
         [VStr "Remove me"; VStr "Keep me"] 0%N eq_refl eq_refl).
  simpl. lia.
Defined.

Example removes_top_level_field :
  res_bind (applySuggestion (makeSuggestion "summary" Remove "") TEST_PROFILE)
    (fun d => Ret (match d with VObj m => m !! "summary" | _ => Some VUndef end))
  = Ret None.
Proof. vm_compute. reflexivity. Qed.

(** ** Running applyByIds *)

Lemma suggestionsDir_run jobId w :
  suggestionsDir jobId w = (Ret (dirName jobId), afterDir jobId w).
Proof.
  unfold suggestionsDir, afterDir, mbind, M_bind, gets, modify, mret, M_ret.
  destruct (bool_decide _); reflexivity.
Qed.

Lemma afterDir_files jobId w : sameProfileFiles w (afterDir jobId w).
Proof. unfold afterDir. destruct (bool_decide _); repeat split. Qed.

Lemma afterDir_trace jobId w :
  ∃ mk, trace (afterDir jobId w) = trace w ++ mk ∧ forallb isMkdir mk = true.
Proof.
  unfold afterDir. destruct (bool_decide _).
  - exists []. by rewrite app_nil_r.
  - exists [EMkdir (dirName jobId)]. done.
Qed.

Lemma loadSuggestions_run jobId w :
  loadSuggestions jobId w = (Ret (loadedSuggestions jobId w), afterDir jobId w).
Proof.
  unfold loadSuggestions, mbind at 1, M_bind at 1. rewrite suggestionsDir_run.
  unfold mbind at 1, M_bind at 1, gets, loadedSuggestions, afterDir.
  destruct (bool_decide (is_Some (output w !! dirName jobId))) eqn:E.
  - destruct (output w !! dirName jobId) as [d|]; simpl; [|done].
    destruct (suggestions_json d) as [[data|t]|]; reflexivity.
  - apply bool_decide_eq_false in E.
    destruct (output w !! dirName jobId) as [d|] eqn:Ho; [destruct E; eauto|].
    simpl. rewrite lookup_insert_eq. reflexivity.
Qed.

Lemma loadProfile_run w : loadProfile w = (Ret (profileValue w), w).
Proof.
  unfold loadProfile, profileValue, mbind, M_bind, gets.
  destruct (profile_json w) as [[v|t]|]; reflexivity.
Qed.

Lemma logChange_run s action jobId w :
  ∃ w', logChange s action jobId w = (Ret tt, w') ∧
        sameProfileFiles w w' ∧
        trace w' = trace (afterDir jobId w) ++ [ELog (id s)].
Proof.
  unfold logChange, mbind at 1, M_bind at 1. rewrite suggestionsDir_run.
  destruct (afterDir_files jobId w) as (H1 & H2 & H3).
  eexists. split; [reflexivity|]. simpl. repeat split; assumption.
Qed.

Lemma partitionLoop_filter ids ss toApply skipped :
  partitionLoop ids ss toApply skipped =
  (toApply ++ List.filter (selected ids) ss,
   skipped ++ map id (List.filter (fun s => negb (selected ids s)) ss)).
Proof.
  revert toApply skipped. induction ss as [|s ss IH]; intros toApply skipped; simpl.
  - by rewrite !app_nil_r.
  - destruct (selected ids s); simpl; rewrite IH, <- app_assoc; reflexivity.
Qed.

Lemma applyLoop_run jobId toApply profile w :
  ∃ w' evs, applyLoop jobId toApply profile w = (applyAll toApply profile, w') ∧
            sameProfileFiles w w' ∧
            trace w' = trace w ++ evs ∧
            forallb isLoopEvent evs = true ∧
            (toApply = [] → w' = w).
Proof.
  revert profile w. induction toApply as [|s rest IH]; intros profile w.
  - exists w, []. simpl. rewrite app_nil_r. repeat split.
  - cbn [applyLoop applyAll]. unfold mbind at 1, M_bind at 1, modify at 1.
    unfold mbind at 1, M_bind at 1, lift at 1.
    destruct (applySuggestion s profile) as [p1| e |] eqn:Happ; simpl res_bind.
    + unfold mbind at 1, M_bind at 1.
      destruct (logChange_run s "approved" jobId (emit (EMutate (id s)) w))
        as (w1 & -> & (F1 & F2 & F3) & T1).
      destruct (afterDir_trace jobId (emit (EMutate (id s)) w)) as (mk & T0 & Hmk).
      destruct (IH p1 w1) as (w' & evs & -> & (G1 & G2 & G3) & T2 & Hevs & _).
      exists w', ([EMutate (id s)] ++ mk ++ [ELog (id s)] ++ evs).
      split; [reflexivity|]. split; [|split; [|split]].
      * simpl in F1, F2, F3. repeat split; congruence.
      * rewrite T2, T1, T0. simpl. by rewrite <- !app_assoc.
      * simpl. rewrite forallb_app. simpl. rewrite Hevs.
        assert (forallb isLoopEvent mk = true) as ->; [|done].
        clear -Hmk. induction mk as [|[] mk IHmk]; simpl in *; try done. by apply IHmk.
      * discriminate.
    + exists (emit (EMutate (id s)) w), [EMutate (id s)].
      split; [reflexivity|]. repeat split. discriminate.
    + exists (emit (EMutate (id s)) w), [EMutate (id s)].
      split; [reflexivity|]. repeat split. discriminate.
Qed.

(** The shape of every run of applyByIds *)
Lemma applyByIds_run ids jobId w :
  applyByIds ids jobId w =
  match loadedSuggestions jobId w with
  | None => (Ret emptyResult, afterDir jobId w)
  | Some data =>
      if (length (suggestions data) =? 0)%nat then (Ret emptyResult, afterDir jobId w)
      else if negb (truthy (profileValue w)) then (Throw noProfile, afterDir jobId w)
      else
        let toApply := List.filter (selected ids) (suggestions data) in
        let made := (0 <? length toApply)%nat && bool_decide (is_Some (profile_json w)) in
        let w2 := if made then copyProfileToBackup (afterDir jobId w) else afterDir jobId w in
        match applyLoop jobId toApply (profileValue w) w2 with
        | (Ret p', w3) =>
            (Ret {| applied := map id toApply;
                    skipped := map id (List.filter (fun s => negb (selected ids s)) (suggestions data));
                    backupCreated := made |},
             if (0 <? length toApply)%nat then renameTmp (writeTmp p' w3) else w3)
        | (Throw e, w3) => (Throw e, w3)
        | (OutOfModel, w3) => (OutOfModel, w3)
        end
  end.
Proof.
  unfold applyByIds, mbind at 1, M_bind at 1. rewrite loadSuggestions_run.
  destruct (loadedSuggestions jobId w) as [data|]; [|reflexivity].
  destruct (length (suggestions data) =? 0)%nat; [reflexivity|].
  unfold mbind at 1, M_bind at 1. rewrite loadProfile_run.
  destruct (afterDir_files jobId w) as (F1 & _).
  assert (profileValue (afterDir jobId w) = profileValue w) as ->
    by (unfold profileValue; by rewrite F1).
  destruct (negb (truthy (profileValue w))); [reflexivity|].
  rewrite partitionLoop_filter. simpl app.
  cbv zeta. unfold mbind at 1, M_bind at 1, gets at 1. rewrite F1.
  set (toApply := List.filter (selected ids) (suggestions data)).
  destruct ((0 <? length toApply)%nat) eqn:Hlen;
    destruct (bool_decide (is_Some (profile_json w))) eqn:Hex; simpl andb; cbv iota;
    unfold mbind, M_bind, modify, mret, M_ret, writeProfileAtomic;
    repeat match goal with
           | |- context [applyLoop ?j ?l ?p ?w0] =>
               destruct (applyLoop j l p w0) as [[?|?|] ?]
           end; reflexivity.
Qed.





Lemma profileLoads_value w :
  profileLoads w = truthy (profileValue w).
Proof.
  unfold profileLoads, profileValue. by destruct (profile_json w) as [[v|t]|].
Qed.

Lemma profileLoads_exists w : profileLoads w = true → is_Some (profile_json w).
Proof. unfold profileLoads. destruct (profile_json w); [eauto | discriminate]. Qed.



(** ** The order of the effects of applyByIds *)

Lemma eventsOf_app {A} (m : M A) w evs :
  trace (m w).2 = trace w ++ evs → eventsOf m w = evs.
Proof. unfold eventsOf. intros ->. apply drop_app_length. Qed.



(** The one place of an element that occurs once *)
Lemma split_at_unique {A} (x : A) (a b pre post : list A) :
  x ∉ a → a ++ x :: b = pre ++ x :: post → x ∉ b → pre = a ∧ post = b.
Proof.
  revert pre. induction a as [|y a IH]; intros pre Ha Heq Hb.
  - destruct pre as [|z pre]; simpl in Heq.
    + by injection Heq as <-.
    + injection Heq as <- Heq. destruct Hb. rewrite Heq.
      apply elem_of_app. right. by constructor.
  - destruct pre as [|z pre]; simpl in Heq.
    + injection Heq as -> _. destruct Ha. by constructor.
    + injection Heq as <- Heq.
      destruct (IH pre) as [-> ->]; auto.
      intros Hin. apply Ha. by constructor.
Qed.

(** The events of a call: the directory of the job is made if need be; the
    backup follows when something is to be applied to a profile that loads;
    then come the events of the loop and, at the end, the write of the
    profile. *)
Lemma applyByIds_trace ids jobId w :
  let made := (0 <? length (toApplyOf ids (loadedSuggestions jobId w)))%nat && profileLoads w in
  let run := applyByIds ids jobId w in
  ∃ mk loop wr,
    trace run.2 = trace w ++ mk ++ (if made then [EBackup] else []) ++ loop ++ wr ∧
    forallb isMkdir mk = true ∧
    forallb isLoopEvent loop = true ∧
    (wr = [] ∨ wr = [EWriteTmp; ERename]) ∧
    (made = false → loop = [] ∧ wr = [] ∧ sameProfileFiles w run.2) ∧
    (made = true → profile_backup_json run.2 = profile_json w) ∧
    (∀ res, run.1 = Ret res → backupCreated res = made).
Proof.
  intros made run. subst made run. rewrite applyByIds_run.
  destruct (afterDir_trace jobId w) as (mk & Hmk & Hmk').
  pose proof (afterDir_files jobId w) as Hfiles.
  assert (trace (afterDir jobId w) = trace w ++ mk ++ [] ++ [] ++ []) as Hquiet
    by (simpl; by rewrite app_nil_r).
  destruct (loadedSuggestions jobId w) as [data|] eqn:Hdata.
  - simpl toApplyOf. destruct (length (suggestions data) =? 0)%nat eqn:Hlen.
    + apply Nat.eqb_eq in Hlen. destruct (suggestions data); [|discriminate]. simpl.
      exists mk, [], []. split; [apply Hquiet|].
      repeat split; auto; try apply Hfiles; try (intros; discriminate).
      by intros res [= <-].
    + rewrite <- profileLoads_value.
      destruct (profileLoads w) eqn:Hload.
      * simpl negb. cbv iota zeta.
        apply profileLoads_exists in Hload as Hex.
        rewrite (bool_decide_eq_true_2 _ Hex). rewrite !andb_true_r.
        set (toApply := List.filter (selected ids) (suggestions data)).
        destruct (0 <? length toApply)%nat eqn:Hn.
        -- destruct (applyLoop_run jobId toApply (profileValue w)
                       (copyProfileToBackup (afterDir jobId w)))
             as (w3 & loop & -> & (F1 & F2 & F3) & T & Hloop & _).
           simpl in T, F1, F2, F3. destruct Hfiles as (G1 & G2 & G3).
           destruct (applyAll toApply (profileValue w)) as [p'| e |].
           ++ exists mk, loop, [EWriteTmp; ERename].
              split; [simpl; rewrite T, Hmk; by rewrite <- !app_assoc|].
              repeat split; auto; try (intros; discriminate).
              ** intros _. simpl. congruence.
              ** by intros res [= <-].
           ++ exists mk, loop, [].
              split; [simpl; rewrite T, Hmk, app_nil_r; by rewrite <- !app_assoc|].
              repeat split; auto; try (intros; discriminate).
              intros _. simpl. congruence.
           ++ exists mk, loop, [].
              split; [simpl; rewrite T, Hmk, app_nil_r; by rewrite <- !app_assoc|].
              repeat split; auto; try (intros; discriminate).
              intros _. simpl. congruence.
        -- assert (toApply = []) as -> by (destruct toApply; [done|discriminate]).
           simpl. exists mk, [], []. split; [apply Hquiet|].
           repeat split; auto; try apply Hfiles; try (intros; discriminate).
      by intros res [= <-].
      * simpl negb. cbv iota. rewrite andb_false_r.
        exists mk, [], []. split; [apply Hquiet|].
        repeat split; auto; try apply Hfiles; intros; discriminate.
  - simpl.
    exists mk, [], []. split; [apply Hquiet|].
    repeat split; auto; try apply Hfiles; try (intros; discriminate).
    by intros res [= <-].
Qed.




Example backup_made_once_before_mutation :
  eventsOf (applyByIds All (Some "__test__"))
    (testWorld (Some (Parsed TEST_PROFILE)) (Some (Parsed TEST_SUGGESTIONS)))
  = [EBackup; EMutate 1; ELog 1; EMutate 2; ELog 2; EMutate 3; ELog 3; EMutate 4; ELog 4;
     EWriteTmp; ERename].
Proof. vm_compute. reflexivity. Qed.

(** C6.  With a SuggestionsFile that is absent or holds no suggestion,
    applyByIds returns the empty result without an error and leaves the
    profile, backup and temporary files as they were; with suggestions to
    apply and no profile file, it throws the error whose message names the
    remedy, and writes nothing either. *)
Theorem applyByIds_missing_inputs (ids : ids_arg) (jobId : option string) (w : world) :
  ((loadedSuggestions jobId w = None ∨
    ∃ data, loadedSuggestions jobId w = Some data ∧ suggestions data = []) →
   ∃ w', applyByIds ids jobId w = (Ret emptyResult, w') ∧
         sameProfileFiles w w' ∧
         forallb isMkdir (eventsOf (applyByIds ids jobId) w) = true) ∧
  (∀ data, loadedSuggestions jobId w = Some data →
           toApplyOf ids (Some data) ≠ [] →
           profile_json w = None →
   ∃ w', applyByIds ids jobId w
           = (Throw (Error "No profile found. Run `profile init` to create one."), w') ∧
         sameProfileFiles w w').
Proof.
  destruct (afterDir_trace jobId w) as (mk & Hmk & Hmk').
  split.
  - intros H. exists (afterDir jobId w).
    assert (applyByIds ids jobId w = (Ret emptyResult, afterDir jobId w)) as Hrun.
    { rewrite applyByIds_run. destruct H as [-> | (data & -> & Hnil)]; [done|].
      by rewrite Hnil. }
    split; [done|]. split; [apply afterDir_files|].
    assert (eventsOf (applyByIds ids jobId) w = mk) as ->; [|done].
    apply eventsOf_app. by rewrite Hrun.
  - intros data Hdata Hsome Hnone. exists (afterDir jobId w).
    split; [|apply afterDir_files].
    rewrite applyByIds_run, Hdata.
    destruct (length (suggestions data) =? 0)%nat eqn:Hlen.
    + apply Nat.eqb_eq in Hlen. simpl in Hsome.
      destruct (suggestions data); [done | discriminate].
    + unfold profileValue. by rewrite Hnone.
Qed.

Lemma applyByIds_missing_inputs_witness :
  (∃ w', applyByIds All (Some "__fake__") (testWorld (Some (Parsed TEST_PROFILE)) None)
           = (Ret emptyResult, w') ∧
         sameProfileFiles (testWorld (Some (Parsed TEST_PROFILE)) None) w') ∧
  (∃ w', applyByIds (Ids [1]%Z) (Some "__test__") (testWorld None (Some (Parsed TEST_SUGGESTIONS)))
           = (Throw (Error "No profile found. Run `profile init` to create one."), w') ∧
         sameProfileFiles (testWorld None (Some (Parsed TEST_SUGGESTIONS))) w').
Proof.
  split.
  - assert (loadedSuggestions (Some "__fake__") (testWorld (Some (Parsed TEST_PROFILE)) None)
            = None) as Habsent by (vm_compute; reflexivity).
    destruct (proj1 (applyByIds_missing_inputs All (Some "__fake__")
                       (testWorld (Some (Parsed TEST_PROFILE)) None))
                (or_introl Habsent))
      as (w' & Hrun & Hsame & _).
    exists w'. split; [exact Hrun | exact Hsame].
  - apply (proj2 (applyByIds_missing_inputs (Ids [1]%Z) (Some "__test__")
                    (testWorld None (Some (Parsed TEST_SUGGESTIONS))))
             TEST_SUGGESTIONS).
    + vm_compute. reflexivity.
    + vm_compute. discriminate.
    + reflexivity.
Defined.

(** C10.  applyByIds loads the profile right after it has loaded a
    SuggestionsFile with at least one suggestion, before it partitions the
    ids: when the profile file is absent or does not parse, the call throws
    the "No profile found" error whatever [ids] is, also when no suggestion
    has one of the ids, and so never returns a result. *)
Theorem applyByIds_profile_checked_first
    (ids : ids_arg) (jobId : option string) (w : world) (data : SuggestionsFile) :
  loadedSuggestions jobId w = Some data →
  suggestions data ≠ [] →
  (profile_json w = None ∨ ∃ text, profile_json w = Some (Unparseable text)) →
  (∃ w', applyByIds ids jobId w
           = (Throw (Error "No profile found. Run `profile init` to create one."), w')) ∧
  (∀ res w', applyByIds ids jobId w ≠ (Ret res, w')).
Proof.
  intros Hdata Hne Hprofile.
  assert (applyByIds ids jobId w = (Throw noProfile, afterDir jobId w)) as Hrun.
  { rewrite applyByIds_run, Hdata.
    destruct (suggestions data) as [|s ss]; [done|]. simpl.
    unfold profileValue. by destruct Hprofile as [-> | [text ->]]. }
  split; [by eexists|]. intros res w'. by rewrite Hrun.
Qed.

Lemma applyByIds_profile_checked_first_witness :
  toApplyOf (Ids [999]%Z) (Some TEST_SUGGESTIONS) = [] ∧
  (∃ w', applyByIds (Ids [999]%Z) (Some "__test__") (testWorld None (Some (Parsed TEST_SUGGESTIONS)))
           = (Throw (Error "No profile found. Run `profile init` to create one."), w')) ∧
  (∀ res w', applyByIds (Ids [999]%Z) (Some "__test__") (testWorld None (Some (Parsed TEST_SUGGESTIONS)))
             ≠ (Ret res, w')).
Proof.
  split; [reflexivity|].
  apply (applyByIds_profile_checked_first (Ids [999]%Z) (Some "__test__")
           (testWorld None (Some (Parsed TEST_SUGGESTIONS))) TEST_SUGGESTIONS).
  - vm_compute. reflexivity.
  - discriminate.
  - left. reflexivity.
Defined.

(** ** matchesQuery *)

Lemma lowerChar_idem c : lowerChar (lowerChar c) = lowerChar c.
Proof. destruct c as [[] [] [] [] [] [] [] []]; reflexivity. Qed.

Lemma isSpace_lowerChar c : isSpace (lowerChar c) = isSpace c.
Proof. destruct c as [[] [] [] [] [] [] [] []]; reflexivity. Qed.

Lemma toLowerCase_idem s : toLowerCase (toLowerCase s) = toLowerCase s.
Proof. induction s as [|c s IH]; simpl; [done|]. by rewrite lowerChar_idem, IH. Qed.

Lemma toLowerCase_app s t : toLowerCase (s +:+ t) = toLowerCase s +:+ toLowerCase t.
Proof. induction s as [|c s IH]; simpl; [done|]. by rewrite IH. Qed.

Lemma splitLoop_lower s word inSep :
  splitLoop (toLowerCase s) (toLowerCase word) inSep
  = map toLowerCase (splitLoop s word inSep).
Proof.
  revert word inSep. induction s as [|c s IH]; intros word inSep; simpl; [done|].
  rewrite isSpace_lowerChar. destruct (isSpace c).
  - destruct inSep; simpl; [apply (IH EmptyString) | f_equal; apply (IH EmptyString)].
  - rewrite <- IH. by rewrite toLowerCase_app.
Qed.

Lemma splitWs_lower s : splitWs (toLowerCase s) = map toLowerCase (splitWs s).
Proof. apply (splitLoop_lower s EmptyString false). Qed.

Lemma meaningful_spec w :
  meaningful w = negb ((String.length w <=? 1)%nat || bool_decide (w ∈ STOPWORDS)).
Proof.
  unfold meaningful. rewrite negb_orb. f_equal.
  destruct (String.length w <=? 1)%nat eqn:E.
  - apply Nat.leb_le in E. apply Nat.ltb_ge. lia.
  - apply Nat.leb_gt in E. apply Nat.ltb_lt. lia.
Qed.

Lemma filter_ext_in {A} (p q : A → bool) (l : list A) :
  (∀ x, x ∈ l → p x = q x) → List.filter p l = List.filter q l.
Proof.
  induction l as [|x l IH]; intros H; simpl; [done|].
  rewrite (H x) by constructor. rewrite IH; [done|].
  intros y Hy. apply H. by constructor.
Qed.

Lemma queryWords_spec query :
  List.filter meaningful (splitWs (toLowerCase query)) = specTokens query.
Proof.
  unfold specTokens. rewrite splitWs_lower. apply filter_ext_in.
  intros w _. apply meaningful_spec.
Qed.

Lemma specTokens_lower query t : t ∈ specTokens query → toLowerCase t = t.
Proof.
  unfold specTokens. intros H. apply list_elem_of_In, filter_In in H as [H _].
  apply in_map_iff in H as (u & <- & _). apply toLowerCase_idem.
Qed.



Lemma count_le p l : (count p l ≤ Z.of_nat (length l))%Z.
Proof.
  unfold count. apply inj_le. induction l as [|x l IH]; simpl; [lia|].
  destruct (p x); simpl; lia.
Qed.

Lemma count_all p l : count p l = Z.of_nat (length l) ↔ forallb p l = true.
Proof.
  unfold count. rewrite Nat2Z.inj_iff. induction l as [|x l IH]; simpl; [done|].
  destruct (p x); simpl.
  - rewrite <- IH. lia.
  - split; [|done]. intros H.
    pose proof (count_le p l) as Hle. unfold count in Hle. lia.
Qed.

Lemma count_ext p q l : (∀ x, x ∈ l → p x = q x) → count p l = count q l.
Proof. intros H. unfold count. by rewrite (filter_ext_in p q l H). Qed.



Example matchesQuery_title_and_text :
  matchesQuery "Senior  backend engineer for the team" "Senior Backend Engineer" "Join our team" = 7%Z.
Proof. vm_compute. reflexivity. Qed.

Example matchesQuery_only_stopwords : matchesQuery " a  of the " "Anything" "" = 1%Z.
Proof. vm_compute. reflexivity. Qed.

(** C8, the statement of the specification fails: "senior" occurs neither
    in the title nor in the extra text, so the score is 0 and not above. *)
Lemma matchesQuery_senior_counterexample :
  ¬ (0 < matchesQuery "senior backend engineer" "Backend Engineer" "")%Z.
Proof. vm_compute. discriminate. Qed.

(** C8, amended.  matchesQuery("senior backend engineer", "Backend
    Engineer", "") returns 0, as the token "senior" is missing from the text;
    the query "backend engineer", whose tokens all occur in the title, scores
    above 0; and matchesQuery("blockchain", "Backend Engineer", "") returns
    0. *)
Theorem matchesQuery_examples :
  matchesQuery "senior backend engineer" "Backend Engineer" "" = 0%Z ∧
  (0 < matchesQuery "backend engineer" "Backend Engineer" "")%Z ∧
  matchesQuery "blockchain" "Backend Engineer" "" = 0%Z.
Proof. vm_compute. auto. Qed.

(** ** dedupe *)



Lemma dedupeLoop_fresh seen jobs j :
  j ∈ dedupeLoop seen jobs → dedupeKey (jobUrl j) ∉ seen.
Proof.
  revert seen. induction jobs as [|j0 jobs IH]; intros seen; simpl.
  - intros H. by apply not_elem_of_nil in H.
  - destruct (bool_decide _) eqn:E; [apply IH|].
    apply bool_decide_eq_false in E.
    intros H. apply elem_of_cons in H as [-> | H]; [done|].
    apply IH in H. set_solver.
Qed.

Lemma dedupeLoop_NoDup seen jobs :
  NoDup (map (fun j => dedupeKey (jobUrl j)) (dedupeLoop seen jobs)).
Proof.
  revert seen. induction jobs as [|j jobs IH]; intros seen; simpl; [constructor|].
  destruct (bool_decide _); [apply IH|]. simpl. constructor; [|apply IH].
  intros Hin. apply list_elem_of_fmap in Hin as (j' & Hk & Hj').
  apply dedupeLoop_fresh in Hj'. rewrite <- Hk in Hj'. set_solver.
Qed.





(** * Further properties of the code *)

(** ** Paths and property keys *)










(** ** More on applySuggestion *)


Lemma delete_past_end {A} (l : list A) i : (length l ≤ i)%nat → delete i l = l.
Proof.
  revert i. induction l as [|x l IH]; intros i Hi; [by destruct i|].
  destruct i as [|i]; simpl in *; [lia|]. f_equal. apply IH. lia.
Qed.

Lemma descend_store loc d c new :
  descend d loc = Ret (Some c) → isContainer c = true →
  descend (store d loc new) loc = Ret (Some new).
Proof.
  revert d. induction loc as [|p loc IH]; intros d; simpl; [done|].
  destruct (nullish d); [discriminate|].
  destruct (getProp d p) as [c1| |] eqn:E; simpl; try discriminate.
  intros Hd Hc.
  assert (isContainer c1 = true) as Hc1.
  { destruct (isContainer c1) eqn:E1; [done|].
    by rewrite (descend_primitive _ _ _ E1 Hd) in Hc. }
  pose proof (getProp_container _ _ _ E Hc1) as Hv.
  destruct d; try done.
  - destruct Hv as (i & Hi & Hl). rewrite Hi, Hl. simpl.
    unfold getProp. simpl. rewrite Hi. simpl. unfold elem.
    rewrite list_lookup_insert_eq by (by eapply lookup_lt_Some). simpl. by apply IH.
  - rewrite Hv. simpl. unfold getProp. simpl. rewrite lookup_insert_eq. simpl. by apply IH.
Qed.

Lemma deleteProp_Throw parent key e :
  deleteProp parent key = Throw e →
  e = TypeError ∧
  match parent with
  | VObj _ => False
  | VArr _ => ToPropertyKey key = "length"
  | _ => True
  end.
Proof.
  unfold deleteProp. destruct parent as [| | | | |l|m]; try discriminate.
  - by intros [= <-].
  - by intros [= <-].
  - destruct (arrayIndex _); [destruct (_ <? _)%nat | destruct (_ =? "length")];
      try discriminate; by intros [= <-].
  - destruct (arrayIndex _); [discriminate|].
    destruct (_ =? "length") eqn:El; [|discriminate].
    apply String.eqb_eq in El. by intros [= <-].
Qed.

Lemma setProp_Throw parent key v e :
  setProp parent key v = Throw e → e = TypeError ∧ isContainer parent = false.
Proof.
  unfold setProp. destruct parent as [| | | | |l|m]; try discriminate;
    try (by intros [= <-]).
  destruct (arrayIndex _); discriminate.
Qed.



(** X3.  Removing what is not there changes nothing: a removal through a
    number key at or past the end of the array, or of a key the parent map
    does not have, returns the document as it was. *)
Theorem applySuggestion_remove_absent (s : Suggestion) (d : value) (r : resolved) :
  type s = Remove →
  resolvePath d (section s) = Ret (Some r) →
  match r_parent r, r_key r with
  | VArr l, PIndex i => (length l ≤ N.to_nat i)%nat
  | VObj m, k => m !! ToPropertyKey k = None
  | _, _ => False
  end →
  applySuggestion s d = Ret d.
Proof.
  intros Ht Hres Habs.
  destruct (resolvePath_Some _ _ _ Hres) as (_ & Hd & _).
  assert (isContainer (r_parent r) = true) as Hc
    by (destruct (r_parent r); try done; by destruct (r_key r)).
  destruct (descend_container _ _ _ Hd Hc) as (_ & _ & Hid).
  unfold applySuggestion, mutate. rewrite Hres. simpl. rewrite Ht. simpl.
  destruct (r_parent r) as [| | | | |l|m] eqn:Hp; try done.
  - destruct (r_key r) as [k|i]; [done|].
    unfold splice1. rewrite delete_past_end by done. simpl. by rewrite Hid.
  - assert (deleteProp (VObj m) (r_key r) = Ret (VObj m)) as ->.
    { unfold deleteProp. rewrite delete_id; [done|]. by destruct (r_key r). }
    simpl. by rewrite Hid.
Qed.

Lemma applySuggestion_remove_absent_witness :
  applySuggestion (makeSuggestion "experience[0].bullets[3]" Remove "") TEST_PROFILE
  = Ret TEST_PROFILE.
Proof.
  apply (applySuggestion_remove_absent
           (makeSuggestion "experience[0].bullets[3]" Remove "") TEST_PROFILE
           (Resolved [PName "experience"; PIndex 0; PName "bullets"]
                     (VArr [VStr "First bullet"; VStr "Old bullet"; VStr "Third bullet"])
                     (PIndex 3))).
  - reflexivity.
  - vm_compute. reflexivity.
  - simpl. lia.
Defined.

Lemma arraySet_idem l i v : arraySet (arraySet l i v) i v = arraySet l i v.
Proof.
  assert (N.to_nat i < length (arraySet l i v))%nat as Hlt.
  { unfold arraySet. destruct (N.to_nat i <? length l)%nat eqn:E.
    - apply Nat.ltb_lt in E. by rewrite length_insert.
    - apply Nat.ltb_ge in E. rewrite !length_app, length_replicate. simpl. lia. }
  unfold arraySet at 1. rewrite (proj2 (Nat.ltb_lt _ _) Hlt).
  apply list_insert_id. pose proof (elem_arraySet_eq l i v) as He. unfold elem in He.
  destruct (arraySet l i v !! N.to_nat i) eqn:E; [by simpl in He; subst|].
  apply lookup_ge_None in E. lia.
Qed.

(** X4.  A rewrite is idempotent: applying to the result of a rewrite the
    same suggestion again returns that result unchanged. *)
Theorem applySuggestion_rewrite_idempotent (s : Suggestion) (d d' : value) (r : resolved) :
  isRemove (type s) = false →
  resolves_inside d (section s) r →
  applySuggestion s d = Ret d' →
  applySuggestion s d' = Ret d'.
Proof.
  intros Ht [Hres Hin] Happ.
  destruct (resolvePath_Some _ _ _ Hres) as (Hsplit & Hd & _).
  assert (isContainer (r_parent r) = true) as Hc by (by destruct (r_parent r)).
  unfold applySuggestion, mutate in Happ. rewrite Hres in Happ. simpl in Happ.
  rewrite Ht in Happ.
  destruct (setProp (r_parent r) (r_key r) (VStr (suggested s))) as [parent'| |] eqn:Hset;
    simpl in Happ; try discriminate.
  injection Happ as <-.
  assert (isContainer parent' = true ∧
          setProp parent' (r_key r) (VStr (suggested s)) = Ret parent') as [Hc' Hset'].
  { unfold setProp in *. destruct (r_parent r); try done.
    - destruct (arrayIndex _) as [i|]; [|done]. injection Hset as <-.
      split; [done|]. by rewrite arraySet_idem.
    - injection Hset as <-. split; [done|]. by rewrite insert_insert_eq. }
  pose proof (descend_store _ _ _ parent' Hd Hc) as Hd'.
  destruct (descend_container _ _ _ Hd' Hc') as (_ & _ & Hid).
  unfold applySuggestion, resolvePath. rewrite Hsplit, Hd'. simpl.
  assert (nullish parent' = false) as -> by (by destruct parent').
  simpl. unfold mutate. rewrite Ht, Hset'. simpl. by rewrite Hid.
Qed.

Lemma applySuggestion_rewrite_idempotent_witness :
  let s := makeSuggestion "skills[0].items[6]" Rewrite "Rust" in
  ∃ d', applySuggestion s TEST_PROFILE = Ret d' ∧ applySuggestion s d' = Ret d'.
Proof.
  eexists. split; [vm_compute; reflexivity|].
  eapply (applySuggestion_rewrite_idempotent
            (makeSuggestion "skills[0].items[6]" Rewrite "Rust") TEST_PROFILE _
            (Resolved [PName "skills"; PIndex 0; PName "items"]
                      (VArr [VStr "Go"; VStr "Python"; VStr "TypeScript"; VStr "SQL"])
                      (PIndex 6))).
  - reflexivity.
  - split; [vm_compute; reflexivity | vm_compute; eauto].
  - vm_compute. reflexivity.
Defined.

(** X5.  A removal that addresses an array element by a dotted index, as in
    [bullets.0], goes through [delete] and not through [splice]: the array
    keeps its length, the slot becomes a hole (which the profile file shows
    as [null]) and no element moves. *)
Theorem applySuggestion_remove_dotted_index
    (s : Suggestion) (d : value) (r : resolved) (l : list value) (k : string) (i : N) :
  type s = Remove →
  resolvePath d (section s) = Ret (Some r) →
  r_parent r = VArr l → r_key r = PName k →
  arrayIndex k = Some i → (N.to_nat i < length l)%nat →
  ∃ d' l', applySuggestion s d = Ret d' ∧
           get d' (map ToPropertyKey (r_loc r)) = VArr l' ∧
           length l' = length l ∧
           l' !! N.to_nat i = Some VUndef ∧
           (∀ j, j ≠ N.to_nat i → l' !! j = l !! j) ∧
           jsonify (VArr l') = VArr (<[N.to_nat i := VNull]> (map jsonify l)).
Proof.
  intros Ht Hres Hp Hk Hi Hlt.
  destruct (resolvePath_Some _ _ _ Hres) as (_ & Hd & _).
  assert (isContainer (r_parent r) = true) as Hc by (by rewrite Hp).
  destruct (descend_container _ _ _ Hd Hc) as (_ & Hhit & _).
  exists (store d (r_loc r) (VArr (<[N.to_nat i := VUndef]> l))), (<[N.to_nat i := VUndef]> l).
  split; [|split; [|split; [|split; [|split]]]].
  - unfold applySuggestion, mutate. rewrite Hres. simpl. rewrite Ht, Hp, Hk. simpl.
    unfold deleteProp. simpl. rewrite Hi. apply Nat.ltb_lt in Hlt. by rewrite Hlt.
  - specialize (Hhit (VArr (<[N.to_nat i := VUndef]> l)) []). by rewrite app_nil_r in Hhit.
  - apply length_insert.
  - by apply list_lookup_insert_eq.
  - intros j Hj. by apply list_lookup_insert_ne.
  - simpl. f_equal. clear -Hlt. revert l Hlt. generalize (N.to_nat i) as n.
    induction n as [|n IH]; intros [|x l] Hlt; simpl in *; try lia; [done|].
    f_equal. apply IH. lia.
Qed.

Lemma applySuggestion_remove_dotted_index_witness :
  ∃ d' l', applySuggestion (makeSuggestion "experience[1].bullets.0" Remove "") TEST_PROFILE = Ret d' ∧
           get d' ["experience"; "1"; "bullets"] = VArr l' ∧
           l' = [VUndef; VStr "Keep me"].
Proof.
  destruct (applySuggestion_remove_dotted_index
              (makeSuggestion "experience[1].bullets.0" Remove "") TEST_PROFILE
              (Resolved [PName "experience"; PIndex 1; PName "bullets"]
                        (VArr [VStr "Remove me"; VStr "Keep me"]) (PName "0"))
              [VStr "Remove me"; VStr "Keep me"] "0" 0%N
              eq_refl ltac:(vm_compute; reflexivity) eq_refl eq_refl eq_refl ltac:(simpl; lia))
    as (d' & l' & Happ & Hget & _).
  exists d', l'. split; [exact Happ|]. split; [exact Hget|].
  vm_compute in Happ. injection Happ as <-. vm_compute in Hget. by injection Hget as <-.
Defined.

(** ** truncate and wordWrap *)

Lemma append_length s t : String.length (s +:+ t) = (String.length s + String.length t)%nat.
Proof. induction s as [|c s IH]; simpl; [done|]. by rewrite IH. Qed.

Lemma append_cons c s t : String c s +:+ t = String c (s +:+ t).
Proof. reflexivity. Qed.

Lemma append_assoc s t u : (s +:+ t) +:+ u = s +:+ (t +:+ u).
Proof. induction s as [|c s IH]; [done|]. by rewrite !append_cons, IH. Qed.

Lemma append_empty_r s : s +:+ "" = s.
Proof. induction s as [|c s IH]; [done|]. by rewrite append_cons, IH. Qed.

Lemma substring0_length n s :
  String.length (substring 0 n s) = Nat.min n (String.length s).
Proof.
  revert s. induction n as [|n IH]; intros s; [by destruct s|].
  destruct s as [|c s]; simpl; [done|]. by rewrite IH.
Qed.

Lemma substring0_prefix n s : String.prefix (substring 0 n s) s = true.
Proof.
  revert s. induction n as [|n IH]; intros s; [by destruct s|].
  destruct s as [|c s]; simpl; [done|].
  destruct (ascii_dec c c); [apply IH | done].
Qed.

Lemma noLineFeed_append s t :
  noLineFeed (s +:+ t) = noLineFeed s && noLineFeed t.
Proof.
  unfold noLineFeed. induction s as [|c s IH]; simpl; [done|].
  by rewrite IH, andb_assoc.
Qed.

Lemma noLineFeed_replaceNewlines s : noLineFeed (replaceNewlines s) = true.
Proof.
  unfold noLineFeed. induction s as [|c s IH]; simpl; [done|].
  rewrite IH, andb_true_r. by destruct (N_of_ascii c =? 10)%N eqn:E; [|rewrite E].
Qed.

Lemma noLineFeed_trimStart s : noLineFeed s = true → noLineFeed (trimStart s) = true.
Proof.
  unfold noLineFeed. induction s as [|c s IH]; simpl; [done|].
  intros H. apply andb_true_iff in H as [Hc Hs].
  destruct (isSpace c); [by apply IH|]. simpl. by rewrite Hc, Hs.
Qed.

Lemma noLineFeed_trimEnd s : noLineFeed s = true → noLineFeed (trimEnd s) = true.
Proof.
  unfold noLineFeed. induction s as [|c s IH]; simpl; [done|].
  intros H. apply andb_true_iff in H as [Hc Hs]. specialize (IH Hs).
  destruct (trimEnd s) as [|c' t].
  - destruct (isSpace c); simpl; [done|]. by rewrite Hc.
  - simpl in *. by rewrite Hc, IH.
Qed.

Lemma noLineFeed_substring0 n s :
  noLineFeed s = true → noLineFeed (substring 0 n s) = true.
Proof.
  unfold noLineFeed. revert s. induction n as [|n IH]; intros s; [by destruct s|].
  destruct s as [|c s]; simpl; [done|].
  intros H. apply andb_true_iff in H as [Hc Hs]. by rewrite Hc, IH.
Qed.

(** X6.  For a limit of at least 3, truncate returns one line of at most
    [maxLen] characters without a line feed: the trimmed text itself when it
    fits, and otherwise exactly [maxLen] characters, namely the first
    [maxLen - 3] of the trimmed text followed by three dots. *)
Theorem truncate_fits (text : string) (maxLen : Z) :
  (3 ≤ maxLen)%Z →
  let oneLine := trim (replaceNewlines text) in
  let t := truncate text maxLen in
  (Z.of_nat (String.length t) ≤ maxLen)%Z ∧
  noLineFeed t = true ∧
  ((Z.of_nat (String.length oneLine) ≤ maxLen)%Z → t = oneLine) ∧
  ((maxLen < Z.of_nat (String.length oneLine))%Z →
     Z.of_nat (String.length t) = maxLen ∧
     ∃ pre, t = pre +:+ "..." ∧ String.prefix pre oneLine = true).
Proof.
  intros Hmax oneLine t. subst t. unfold truncate. fold oneLine.
  assert (noLineFeed oneLine = true) as Hlf
    by apply noLineFeed_trimEnd, noLineFeed_trimStart, noLineFeed_replaceNewlines.
  destruct (Z.leb_spec (Z.of_nat (String.length oneLine)) maxLen) as [Hle | Hgt].
  - split; [lia|]. split; [done|]. split; [done|]. intros ?. lia.
  - assert (String.length (slice0 oneLine (maxLen - 3)) = Z.to_nat (maxLen - 3)) as Hlen.
    { unfold slice0. destruct (Z.ltb_spec (maxLen - 3) 0); [lia|].
      rewrite substring0_length. lia. }
    split; [|split; [|split]].
    + rewrite append_length, Hlen. simpl. lia.
    + rewrite noLineFeed_append. unfold slice0. by rewrite noLineFeed_substring0.
    + lia.
    + intros _. split; [rewrite append_length, Hlen; simpl; lia|].
      exists (slice0 oneLine (maxLen - 3)). split; [done|]. apply substring0_prefix.
Qed.

Lemma truncate_fits_witness :
  let text := "  Senior engineer" +:+ nl +:+ "with six years  " in
  (Z.of_nat (String.length (truncate text 12)) ≤ 12)%Z ∧
  noLineFeed (truncate text 12) = true.
Proof.
  destruct (truncate_fits ("  Senior engineer" +:+ nl +:+ "with six years  ") 12 ltac:(lia))
    as (Hlen & Hlf & _).
  split; [exact Hlen | exact Hlf].
Defined.

Example truncate_cuts_and_joins :
  truncate ("  Senior engineer" +:+ nl +:+ "with six years  ") 12 = "Senior en..." ∧
  truncate ("  Senior engineer" +:+ nl +:+ "with six years  ") 55 = "Senior engineer with six years".
Proof. split; reflexivity. Qed.

(** Below 3 the limit is not kept: the end of the slice is negative and
    counts from the end of the text. *)
Example truncate_small_limit : truncate "abcdef" 2 = "abcde...".
Proof. reflexivity. Qed.

Lemma noSpace_append s t : noSpace (s +:+ t) = noSpace s && noSpace t.
Proof.
  unfold noSpace. induction s as [|c s IH]; simpl; [done|].
  by rewrite IH, andb_assoc.
Qed.

Lemma splitLoop_noSpace s word inSep w :
  noSpace word = true → w ∈ splitLoop s word inSep → noSpace w = true.
Proof.
  revert word inSep. induction s as [|c s IH]; intros word inSep Hword; simpl.
  - intros H. by apply list_elem_of_singleton in H as ->.
  - destruct (isSpace c) eqn:Hc.
    + destruct inSep.
      * by apply IH.
      * intros H. apply elem_of_cons in H as [-> | H]; [done|]. by apply (IH EmptyString true).
    + apply IH. rewrite noSpace_append, Hword. unfold noSpace. simpl. by rewrite Hc.
Qed.

Lemma splitWs_noSpace s w : w ∈ splitWs s → noSpace w = true.
Proof. by apply splitLoop_noSpace. Qed.

Lemma splitLoop_word w acc : noSpace w = true → splitLoop w acc false = [acc +:+ w].
Proof.
  revert acc. induction w as [|c w IH]; intros acc; cbn [splitLoop].
  - by rewrite append_empty_r.
  - unfold noSpace. cbn [list_ascii_of_string forallb].
    intros H. apply andb_true_iff in H as [Hc Hw].
    apply negb_true_iff in Hc. rewrite Hc, IH by done. by rewrite append_assoc.
Qed.

Lemma wordsOf_word w : noSpace w = true → wordsOf w = List.filter (fun w => negb (w =? "")) [w].
Proof. intros H. unfold wordsOf, splitWs. by rewrite splitLoop_word. Qed.

(** The words of a text followed by a space and more text *)
Lemma splitLoop_space_append a b word :
  List.filter (fun w => negb (w =? "")) (splitLoop (a +:+ " " +:+ b) word false)
  = List.filter (fun w => negb (w =? "")) (splitLoop a word false) ++ wordsOf b.
Proof.
  assert (∀ s inSep,
            List.filter (fun w => negb (w =? "")) (splitLoop s "" inSep)
            = List.filter (fun w => negb (w =? "")) (splitLoop s "" false)) as Hsep.
  { intros s inSep. destruct s as [|c s]; simpl; [done|].
    destruct (isSpace c); [|done]. by destruct inSep. }
  revert word. induction a as [|c a IH]; intros word.
  - simpl. rewrite Hsep. by destruct (negb (word =? "")).
  - change (String c a +:+ " " +:+ b) with (String c (a +:+ " " +:+ b)).
    cbn [splitLoop]. destruct (isSpace c).
    + cbn [List.filter]. rewrite (Hsep (a +:+ " " +:+ b)), (Hsep a), IH.
      by destruct (negb (word =? "")).
    + apply IH.
Qed.

Lemma wordsOf_space_append a b : wordsOf (a +:+ " " +:+ b) = wordsOf a ++ wordsOf b.
Proof. apply splitLoop_space_append. Qed.

Lemma wordsOf_empty : wordsOf "" = [].
Proof. reflexivity. Qed.

(** What [wrapLoop] keeps: the lines, the line being filled and the words
    still to come hold the words handled so far, and a line that holds more
    than one word fits the width. *)
Lemma wrapLoop_spec width words lines current lines' current' :
  wrapLoop width words lines current = (lines', current') →
  Forall (fun w => noSpace w = true) words →
  (flat_map wordsOf lines' ++ wordsOf current'
   = flat_map wordsOf lines ++ wordsOf current
     ++ List.filter (fun w => negb (w =? "")) words) ∧
  ((∀ line, line ∈ lines ++ [current] →
      (Z.of_nat (String.length line) ≤ width)%Z ∨ noSpace line = true) →
   ∀ line, line ∈ lines' ++ [current'] →
      (Z.of_nat (String.length line) ≤ width)%Z ∨ noSpace line = true).
Proof.
  revert lines current. induction words as [|word rest IH]; intros lines current; simpl.
  - intros [= <- <-] _. rewrite app_nil_r. auto.
  - intros Hrun Hwords. apply Forall_cons in Hwords as [Hword Hrest].
    destruct ((width <? Z.of_nat (String.length current + String.length word + 1))%Z
              && (0 <? String.length current)%nat) eqn:Hpush.
    + destruct (IH _ _ Hrun Hrest) as [Hw Hf]. split.
      * rewrite Hw, flat_map_app. simpl. rewrite app_nil_r, <- !app_assoc.
        rewrite (wordsOf_word word Hword). simpl.
        by destruct (negb (word =? "")).
      * intros Hfit. apply Hf. intros line Hin.
        apply elem_of_app in Hin as [Hin | Hin].
        -- apply Hfit. apply elem_of_app in Hin as [Hin | Hin];
             apply elem_of_app; [by left | by right].
        -- apply list_elem_of_singleton in Hin as ->. by right.
    + destruct (IH _ _ Hrun Hrest) as [Hw Hf]. split.
      * rewrite Hw. f_equal.
        destruct (String.eqb_spec current "") as [-> | Hne].
        -- simpl. rewrite (wordsOf_word word Hword). simpl.
           by destruct (negb (word =? "")).
        -- rewrite wordsOf_space_append, <- app_assoc. f_equal.
           rewrite (wordsOf_word word Hword). simpl.
           by destruct (negb (word =? "")).
      * intros Hfit. apply Hf. intros line Hin.
        apply elem_of_app in Hin as [Hin | Hin].
        -- apply Hfit. apply elem_of_app. by left.
        -- apply list_elem_of_singleton in Hin as ->.
           destruct (String.eqb_spec current "") as [-> | Hne]; [by right|].
           left. rewrite !append_length. simpl.
           apply andb_false_iff in Hpush as [Hpush | Hpush].
           ++ apply Z.ltb_ge in Hpush. lia.
           ++ apply Nat.ltb_ge in Hpush. destruct current; [done | simpl in Hpush; lia].
Qed.

Lemma splitWs_Forall_noSpace s : Forall (fun w => noSpace w = true) (splitWs s).
Proof. apply Forall_forall. intros w Hw. by apply (splitWs_noSpace s). Qed.

(** X7.  wordWrap loses no word and adds none: the words of the lines it
    returns, read line after line, are the words of the text in their
    order; and it always returns at least one line. *)
Theorem wordWrap_keeps_words (text : string) (width : Z) :
  flat_map wordsOf (wordWrap text width) = wordsOf text ∧
  wordWrap text width ≠ [].
Proof.
  unfold wordWrap.
  destruct (wrapLoop width (splitWs text) [] "") as [lines current] eqn:Hrun.
  destruct (wrapLoop_spec _ _ _ _ _ _ Hrun (splitWs_Forall_noSpace text)) as [Hw _].
  simpl in Hw. fold (wordsOf text) in Hw.
  destruct (String.eqb_spec current "") as [-> | Hne].
  - simpl in Hw. rewrite app_nil_r in Hw.
    destruct lines as [|l lines]; simpl; [by rewrite <- Hw | by rewrite <- Hw].
  - assert ((0 <? length (lines ++ [current]))%nat = true) as ->
      by (rewrite length_app; simpl; apply Nat.ltb_lt; lia).
    split; [|by destruct lines].
    rewrite flat_map_app. simpl. by rewrite app_nil_r.
Qed.

(** X8.  Every line wordWrap returns either fits the width or is a single
    word, one without white space, that is longer than the width. *)
Theorem wordWrap_lines_fit (text : string) (width : Z) (line : string) :
  line ∈ wordWrap text width →
  (Z.of_nat (String.length line) ≤ width)%Z ∨ noSpace line = true.
Proof.
  unfold wordWrap.
  destruct (wrapLoop width (splitWs text) [] "") as [lines current] eqn:Hrun.
  destruct (wrapLoop_spec _ _ _ _ _ _ Hrun (splitWs_Forall_noSpace text)) as [_ Hf].
  assert (∀ l, l ∈ lines ++ [current] →
               (Z.of_nat (String.length l) ≤ width)%Z ∨ noSpace l = true) as Hfit.
  { apply Hf. intros l Hl. apply list_elem_of_singleton in Hl as ->. by right. }
  destruct (String.eqb_spec current "") as [-> | Hne].
  - destruct lines as [|l0 lines]; simpl.
    + intros Hin. apply list_elem_of_singleton in Hin as ->. by right.
    + intros Hin. apply Hfit. apply elem_of_app. by left.
  - assert ((0 <? length (lines ++ [current]))%nat = true) as ->
      by (rewrite length_app; simpl; apply Nat.ltb_lt; lia).
    apply Hfit.
Qed.

Lemma wordWrap_lines_fit_witness :
  (Z.of_nat (String.length "measured by Y, by") ≤ 20)%Z ∨ noSpace "measured by Y, by" = true.
Proof.
  apply (wordWrap_lines_fit
           "Use the XYZ formula: accomplished X, measured by Y, by doing Z  " 20
           "measured by Y, by").
  vm_compute. repeat first [apply list_elem_of_here | apply list_elem_of_further].
Defined.

Example wordWrap_lines :
  wordWrap "Use the XYZ formula: accomplished X, measured by Y, by doing Z  " 20
  = ["Use the XYZ formula:"; "accomplished X,"; "measured by Y, by"; "doing Z "]
  ∧ wordWrap "" 60 = [""]
  ∧ wordWrap "incomprehensibilities in  short" 5 = ["incomprehensibilities"; "in"; "short"].
Proof. repeat split; reflexivity. Qed.

(** ** Induction on documents *)

Lemma vsize_elem x l : x ∈ l → (vsize x ≤ list_sum (map vsize l))%nat.
Proof.
  induction l as [|y l IH]; intros Hin.
  - by apply not_elem_of_nil in Hin.
  - simpl. apply elem_of_cons in Hin as [-> | Hin]; [lia|]. specialize (IH Hin). lia.
Qed.

Lemma vsize_member (m : gmap string value) k x :
  m !! k = Some x →
  (vsize x ≤ map_fold (fun _ y acc => (vsize y + acc)%nat) 0%nat m)%nat.
Proof.
  intros H. rewrite (map_fold_delete_L _ _ k x m); [lia | intros; lia | done].
Qed.

Lemma value_induction (P : value → Prop) :
  P VUndef → P VNull → (∀ b, P (VBool b)) → (∀ n, P (VNum n)) → (∀ s, P (VStr s)) →
  (∀ l, Forall P l → P (VArr l)) →
  (∀ m : gmap string value, map_Forall (fun _ x => P x) m → P (VObj m)) →
  ∀ v, P v.
Proof.
  intros Hu Hn Hb Hz Hs Ha Ho.
  assert (∀ n v, (vsize v < n)%nat → P v) as Hall; [|by eauto].
  induction n as [|n IH]; intros v Hv; [lia|].
  destruct v as [| | b | z | s | l | m]; auto.
  - apply Ha, Forall_forall. intros x Hx. apply IH.
    pose proof (vsize_elem x l Hx). simpl in Hv. lia.
  - apply Ho. intros k x Hk. apply IH.
    pose proof (vsize_member m k x Hk) as Hle.
    change (vsize (VObj m)) with (S (map_fold (fun _ y acc => (vsize y + acc)%nat) 0%nat m)) in Hv.
    lia.
Qed.

Lemma jsonClean_obj (m : gmap string value) :
  jsonClean (VObj m) = true ↔ map_Forall (fun _ x => jsonClean x = true) m.
Proof.
  change (jsonClean (VObj m))
    with (map_fold (fun (_ : string) x acc => jsonClean x && acc) true m).
  induction m as [|k x m Hk IH] using map_ind.
  - rewrite map_fold_empty. split; [intros _; apply map_Forall_empty | done].
  - rewrite map_fold_insert_L; [|intros; by rewrite !andb_assoc, (andb_comm (jsonClean z1)) | done].
    rewrite andb_true_iff, IH, map_Forall_insert by done. tauto.
Qed.

Lemma jsonify_clean v : jsonClean v = true → jsonify v = v.
Proof.
  induction v as [| | b | z | s | l IH | m IH] using value_induction; try done.
  - simpl. intros Hl. f_equal. induction l as [|x l IHl]; [done|].
    simpl in *. apply andb_true_iff in Hl as [Hx Hl].
    apply Forall_cons in IH as [IHx IH]. f_equal; auto.
  - intros Hm. apply jsonClean_obj in Hm.
    change (jsonify (VObj m))
      with (VObj (omap (fun x => match x with VUndef => None | _ => Some (jsonify x) end) m)).
    f_equal. apply map_eq. intros k. rewrite lookup_omap.
    destruct (m !! k) as [x|] eqn:Hk; [|done]. simpl.
    specialize (IH k x Hk (Hm k x Hk)). specialize (Hm k x Hk).
    destruct x; try done; by rewrite IH.
Qed.

Lemma jsonify_jsonClean v : jsonClean (jsonify v) = true.
Proof.
  induction v as [| | b | z | s | l IH | m IH] using value_induction; try done.
  - simpl. induction l as [|x l IHl]; [done|].
    apply Forall_cons in IH as [IHx IH]. simpl. by rewrite IHx, IHl.
  - change (jsonify (VObj m))
      with (VObj (omap (fun x => match x with VUndef => None | _ => Some (jsonify x) end) m)).
    apply jsonClean_obj. intros k y Hy. rewrite lookup_omap in Hy.
    destruct (m !! k) as [x|] eqn:Hk; [|done]. simpl in Hy.
    specialize (IH k x Hk). destruct x; try done; by injection Hy as <-.
Qed.

(** ** The files of the review *)

(** X9.  Asking for the suggestions of a job creates the directory of the
    job when it does not exist: after hasSuggestions or loadSuggestions the
    directory is there, every other directory and every existing file is as
    before; hasSuggestions answers true exactly when the file exists, also
    when loadSuggestions returns null because the file does not parse. *)
Theorem probing_creates_directory (jobId : option string) (w : world) :
  let w' := (loadSuggestions jobId w).2 in
  (hasSuggestions jobId w).2 = w' ∧
  is_Some (output w' !! dirName jobId) ∧
  (∀ name d, output w !! name = Some d → output w' !! name = Some d) ∧
  (∀ name, name ≠ dirName jobId → output w' !! name = output w !! name) ∧
  sameProfileFiles w w' ∧
  (hasSuggestions jobId w).1
    = Ret (bool_decide (is_Some (output w !! dirName jobId ≫= suggestions_json))) ∧
  (∀ data, (loadSuggestions jobId w).1 = Ret (Some data) → (hasSuggestions jobId w).1 = Ret true).
Proof.
  intros w'. subst w'. rewrite loadSuggestions_run. simpl.
  assert (hasSuggestions jobId w
          = (Ret (bool_decide (is_Some (output w !! dirName jobId ≫= suggestions_json))),
             afterDir jobId w)) as Hhas.
  { unfold hasSuggestions, mbind, M_bind. rewrite suggestionsDir_run. unfold gets.
    f_equal. f_equal. unfold afterDir.
    destruct (bool_decide (is_Some (output w !! dirName jobId))) eqn:E; [done|].
    apply bool_decide_eq_false in E.
    destruct (output w !! dirName jobId) as [d|] eqn:Ho; [destruct E; eauto|].
    simpl. rewrite lookup_insert_eq. done. }
  rewrite Hhas. simpl.
  split; [done|]. unfold afterDir.
  destruct (bool_decide (is_Some (output w !! dirName jobId))) eqn:E.
  - apply bool_decide_eq_true in E. repeat split; auto.
    intros data Hdata. injection Hdata as Hdata. unfold loadedSuggestions in Hdata.
    destruct (output w !! dirName jobId ≫= suggestions_json) as [f|]; [|done].
    rewrite bool_decide_eq_true_2; eauto.
  - apply bool_decide_eq_false in E. simpl.
    split; [rewrite lookup_insert_eq; eauto|]. split; [|split; [|split; [|split]]].
    + intros name d Hd. rewrite lookup_insert_ne; [done|]. intros <-. apply E. eauto.
    + intros name Hne. by rewrite lookup_insert_ne.
    + repeat split.
    + done.
    + intros data Hdata. injection Hdata as Hdata. unfold loadedSuggestions in Hdata.
      destruct (output w !! dirName jobId) as [d|]; [destruct E; eauto | done].
Qed.

Example probing_unknown_job :
  let w := testWorld None (Some (Unparseable "{")) in
  output w !! "__fake__" = None ∧
  (loadSuggestions (Some "__fake__") w).1 = Ret None ∧
  output (loadSuggestions (Some "__fake__") w).2 !! "__fake__" = Some emptyDir ∧
  (hasSuggestions (Some "__test__") w).1 = Ret true ∧
  (loadSuggestions (Some "__test__") w).1 = Ret None.
Proof. vm_compute. auto. Qed.

Lemma prefix_append s t : String.prefix s (s +:+ t) = true.
Proof.
  induction s as [|c s IH]; [by destruct t|]. rewrite append_cons. simpl.
  destruct (ascii_dec c c); [done | done].
Qed.

(** X10.  The changelog only grows: logChange keeps the text the changelog
    had (the title lines when there was no changelog) and writes one entry
    after it; the suggestions file next to it, the other directories and the
    profile files are left alone. *)
Theorem logChange_appends (s : Suggestion) (action : string) (jobId : option string) (w : world) :
  ∃ w' entry,
    logChange s action jobId w = (Ret tt, w') ∧
    (output w' !! dirName jobId ≫= changelog_md) = Some (changelogBefore jobId w +:+ entry) ∧
    String.prefix (changelogBefore jobId w) (changelogBefore jobId w' ) = true ∧
    (0 < String.length entry)%nat ∧
    (output w' !! dirName jobId ≫= suggestions_json)
      = (output w !! dirName jobId ≫= suggestions_json) ∧
    (∀ name, name ≠ dirName jobId → output w' !! name = output w !! name) ∧
    sameProfileFiles w w'.
Proof.
  unfold logChange, mbind at 1, M_bind at 1. rewrite suggestionsDir_run.
  unfold mbind at 1, M_bind at 1, now at 1.
  unfold mbind at 1, M_bind at 1, gets at 1, modify.
  eexists _, _. split; [reflexivity|].
  assert (default emptyDir (output (afterDir jobId w) !! dirName jobId)
          = default emptyDir (output w !! dirName jobId)) as Hd.
  { unfold afterDir. destruct (bool_decide (is_Some (output w !! dirName jobId))) eqn:E; [done|].
    apply bool_decide_eq_false in E.
    destruct (output w !! dirName jobId) as [d|]; [destruct E; eauto|].
    simpl. by rewrite lookup_insert_eq. }
  assert (match changelog_md (default emptyDir (output w !! dirName jobId)) with
          | Some text => text
          | None => "# Review Changelog" +:+ nl +:+ nl
          end = changelogBefore jobId w) as Hbefore.
  { unfold changelogBefore. by destruct (output w !! dirName jobId) as [d|]. }
  cbn [output set_output emit clock ticks]. rewrite Hd.
  split; [|split; [|split; [|split; [|split]]]].
  - rewrite lookup_insert_eq. simpl. rewrite Hbefore. reflexivity.
  - unfold changelogBefore at 2. cbn [output set_output emit].
    rewrite lookup_insert_eq. simpl. rewrite Hbefore. apply prefix_append.
  - rewrite !append_length. simpl. lia.
  - rewrite lookup_insert_eq. simpl. by destruct (output w !! dirName jobId).
  - intros name Hne. rewrite lookup_insert_ne by done.
    unfold afterDir. destruct (bool_decide _); [done|]. simpl. by rewrite lookup_insert_ne.
  - destruct (afterDir_files jobId w) as (? & ? & ?). repeat split; done.
Qed.

(** X11.  Writing the profile and loading it again is a round trip up to
    what JSON keeps: after writeProfileAtomic, loadProfile returns the
    profile with its holes turned into [null]; a profile without
    [undefined] comes back as it is; the temporary file is gone and the
    backup untouched; and writing what was loaded gives the same file. *)
Theorem writeProfileAtomic_round_trip (profile : value) (w : world) :
  let w' := (writeProfileAtomic profile w).2 in
  (writeProfileAtomic profile w).1 = Ret tt ∧
  (loadProfile w').1 = Ret (jsonify profile) ∧
  (jsonClean profile = true → (loadProfile w').1 = Ret profile) ∧
  profile_json_tmp w' = None ∧
  profile_backup_json w' = profile_backup_json w ∧
  output w' = output w ∧
  profile_json (writeProfileAtomic (jsonify profile) w').2 = profile_json w'.
Proof.
  assert (jsonify (jsonify profile) = jsonify profile) as Hidem
    by apply jsonify_clean, jsonify_jsonClean.
  simpl. rewrite Hidem. repeat split. intros Hclean. by rewrite jsonify_clean.
Qed.

Lemma writeProfileAtomic_round_trip_witness :
  (loadProfile (writeProfileAtomic TEST_PROFILE (testWorld None None)).2).1 = Ret TEST_PROFILE.
Proof.
  apply (writeProfileAtomic_round_trip TEST_PROFILE (testWorld None None)).
  vm_compute. reflexivity.
Defined.

(** ** What applyByIds leaves on disk *)

Lemma logged_app a b : logged (a ++ b) = logged a ++ logged b.
Proof. unfold logged. apply omap_app. Qed.

Lemma logged_mkdir mk : forallb isMkdir mk = true → logged mk = [].
Proof.
  induction mk as [|e mk IH]; [done|]. simpl. intros H.
  apply andb_true_iff in H as [He Hmk]. destruct e; try done. by apply IH.
Qed.

Lemma applyLoop_logged jobId toApply profile w p' :
  applyAll toApply profile = Ret p' →
  ∃ w' evs, applyLoop jobId toApply profile w = (Ret p', w') ∧
            sameProfileFiles w w' ∧
            trace w' = trace w ++ evs ∧
            logged evs = map id toApply.
Proof.
  revert profile w. induction toApply as [|s rest IH]; intros profile w.
  - intros [= <-]. exists w, []. simpl. rewrite app_nil_r. repeat split.
  - cbn [applyLoop applyAll]. intros Happ.
    unfold mbind at 1, M_bind at 1, modify at 1.
    unfold mbind at 1, M_bind at 1, lift at 1.
    destruct (applySuggestion s profile) as [p1| |]; simpl in Happ; try discriminate.
    unfold mbind at 1, M_bind at 1.
    destruct (logChange_run s "approved" jobId (emit (EMutate (id s)) w))
      as (w1 & -> & (F1 & F2 & F3) & T1).
    destruct (afterDir_trace jobId (emit (EMutate (id s)) w)) as (mk & T0 & Hmk).
    destruct (IH p1 w1 Happ) as (w' & evs & -> & (G1 & G2 & G3) & T2 & Hlog).
    exists w', ([EMutate (id s)] ++ mk ++ [ELog (id s)] ++ evs).
    split; [done|]. split; [|split].
    + simpl in F1, F2, F3. repeat split; congruence.
    + rewrite T2, T1, T0. simpl. by rewrite <- !app_assoc.
    + rewrite !logged_app, (logged_mkdir mk Hmk), Hlog. reflexivity.
Qed.

(** X12.  When a call of applyByIds with something to apply succeeds, the
    profile file holds the profile after all the selected suggestions, as
    JSON keeps it; the backup file holds the profile file from before the
    call; no temporary file is left; and the changelog has got one entry for
    each applied id, in the order of [applied]. *)
Theorem applyByIds_success_on_disk
    (ids : ids_arg) (jobId : option string) (w : world) (data : SuggestionsFile) (p' : value) :
  loadedSuggestions jobId w = Some data →
  profileLoads w = true →
  toApplyOf ids (Some data) ≠ [] →
  applyAll (toApplyOf ids (Some data)) (profileValue w) = Ret p' →
  ∃ res w', applyByIds ids jobId w = (Ret res, w') ∧
            profile_json w' = Some (Parsed (jsonify p')) ∧
            profile_backup_json w' = profile_json w ∧
            profile_json_tmp w' = None ∧
            logged (eventsOf (applyByIds ids jobId) w) = applied res.
Proof.
  intros Hdata Hload Hne Happ. simpl in Hne, Happ.
  destruct (afterDir_trace jobId w) as (mk & Hmk & Hmk').
  destruct (afterDir_files jobId w) as (F1 & F2 & F3).
  unfold eventsOf. rewrite applyByIds_run, Hdata.
  destruct (length (suggestions data) =? 0)%nat eqn:Hlen.
  { apply Nat.eqb_eq in Hlen. destruct (suggestions data); [done | discriminate]. }
  rewrite <- profileLoads_value, Hload. simpl negb. cbv iota zeta.
  rewrite (bool_decide_eq_true_2 _ (profileLoads_exists w Hload)).
  set (toApply := List.filter (selected ids) (suggestions data)) in *.
  assert ((0 <? length toApply)%nat = true) as ->
    by (destruct toApply; [done | reflexivity]).
  simpl andb. cbv iota.
  destruct (applyLoop_logged jobId toApply (profileValue w)
              (copyProfileToBackup (afterDir jobId w)) p' Happ)
    as (w3 & evs & -> & (G1 & G2 & G3) & T & Hlog).
  eexists _, _. split; [reflexivity|]. simpl in *.
  split; [done|]. split; [congruence|]. split; [done|].
  rewrite T. simpl. rewrite Hmk, <- !app_assoc, drop_app_length.
  rewrite !logged_app, (logged_mkdir mk Hmk'), Hlog. simpl. by rewrite app_nil_r.
Qed.

Lemma applyByIds_success_on_disk_witness :
  ∃ res w',
    applyByIds (Ids [3; 1]%Z) (Some "__test__")
      (testWorld (Some (Parsed TEST_PROFILE)) (Some (Parsed TEST_SUGGESTIONS))) = (Ret res, w') ∧
    profile_backup_json w' = Some (Parsed TEST_PROFILE) ∧
    profile_json_tmp w' = None ∧
    applied res = [1; 3]%Z.
Proof.
  destruct (applyByIds_success_on_disk (Ids [3; 1]%Z) (Some "__test__")
              (testWorld (Some (Parsed TEST_PROFILE)) (Some (Parsed TEST_SUGGESTIONS)))
              TEST_SUGGESTIONS
              (match applyAll (toApplyOf (Ids [3; 1]%Z) (Some TEST_SUGGESTIONS)) TEST_PROFILE with
               | Ret p => p
               | _ => VUndef
               end)
              ltac:(vm_compute; reflexivity) eq_refl ltac:(vm_compute; discriminate)
              ltac:(vm_compute; reflexivity))
    as (res & w' & Hrun & _ & Hbackup & Htmp & Hlog).
  exists res, w'. split; [exact Hrun|]. split; [exact Hbackup|]. split; [exact Htmp|].
  rewrite <- Hlog. vm_compute. reflexivity.
Defined.

(** X13.  A batch in which a suggestion throws writes nothing of the
    profile: the call throws the same error, the profile file and the
    temporary file are as before, and the backup file has nevertheless been
    overwritten with the profile file. *)
Theorem applyByIds_failure_keeps_profile
    (ids : ids_arg) (jobId : option string) (w : world) (data : SuggestionsFile) (e : exn) :
  loadedSuggestions jobId w = Some data →
  profileLoads w = true →
  applyAll (toApplyOf ids (Some data)) (profileValue w) = Throw e →
  ∃ w', applyByIds ids jobId w = (Throw e, w') ∧
        profile_json w' = profile_json w ∧
        profile_json_tmp w' = profile_json_tmp w ∧
        profile_backup_json w' = profile_json w.
Proof.
  intros Hdata Hload Happ. simpl in Happ.
  destruct (afterDir_files jobId w) as (F1 & F2 & F3).
  rewrite applyByIds_run, Hdata.
  destruct (length (suggestions data) =? 0)%nat eqn:Hlen.
  { apply Nat.eqb_eq in Hlen. destruct (suggestions data); [|discriminate].
    simpl in Happ. discriminate. }
  rewrite <- profileLoads_value, Hload. simpl negb. cbv iota zeta.
  rewrite (bool_decide_eq_true_2 _ (profileLoads_exists w Hload)).
  set (toApply := List.filter (selected ids) (suggestions data)) in *.
  assert ((0 <? length toApply)%nat = true) as ->.
  { destruct toApply; [simpl in Happ; discriminate | reflexivity]. }
  simpl andb. cbv iota.
  destruct (applyLoop_run jobId toApply (profileValue w)
              (copyProfileToBackup (afterDir jobId w)))
    as (w3 & evs & -> & (G1 & G2 & G3) & _).
  rewrite Happ. exists w3. simpl in *. repeat split; congruence.
Qed.

Lemma applyByIds_failure_keeps_profile_witness :
  let data := {| generatedAt := ""; jobId := None;
                 suggestions := [makeSuggestion "summary" Rewrite "New";
                                 makeSuggestion "summary[0]" Rewrite "x"] |} in
  let w := testWorld (Some (Parsed TEST_PROFILE)) (Some (Parsed data)) in
  ∃ w', applyByIds All (Some "__test__") w = (Throw TypeError, w') ∧
        profile_json w' = Some (Parsed TEST_PROFILE) ∧
        profile_json_tmp w' = None ∧
        profile_backup_json w' = Some (Parsed TEST_PROFILE).
Proof.
  apply (applyByIds_failure_keeps_profile All (Some "__test__")
           (testWorld (Some (Parsed TEST_PROFILE))
              (Some (Parsed {| generatedAt := ""; jobId := None;
                               suggestions := [makeSuggestion "summary" Rewrite "New";
                                               makeSuggestion "summary[0]" Rewrite "x"] |})))
           {| generatedAt := ""; jobId := None;
              suggestions := [makeSuggestion "summary" Rewrite "New";
                              makeSuggestion "summary[0]" Rewrite "x"] |}
           TypeError).
  - vm_compute. reflexivity.
  - reflexivity.
  - vm_compute. reflexivity.
Defined.

(** X14.  The backup protects one call only: when two calls of applyByIds in
    a row each make a backup, the backup file after the second call is the
    profile file the first call wrote, and no longer the one from before the
    first call. *)
Theorem applyByIds_second_backup_overwrites
    (ids1 ids2 : ids_arg) (jobId1 jobId2 : option string) (w w1 w2 : world)
    (res1 res2 : ApplyResult) :
  applyByIds ids1 jobId1 w = (Ret res1, w1) →
  backupCreated res1 = true →
  applyByIds ids2 jobId2 w1 = (Ret res2, w2) →
  backupCreated res2 = true →
  profile_backup_json w1 = profile_json w ∧
  profile_backup_json w2 = profile_json w1.
Proof.
  intros Hrun1 Hb1 Hrun2 Hb2.
  destruct (applyByIds_trace ids1 jobId1 w) as (mk1 & lp1 & wr1 & _ & _ & _ & _ & _ & Hbk1 & Hres1).
  destruct (applyByIds_trace ids2 jobId2 w1) as (mk2 & lp2 & wr2 & _ & _ & _ & _ & _ & Hbk2 & Hres2).
  rewrite Hrun1 in Hbk1, Hres1. rewrite Hrun2 in Hbk2, Hres2. simpl in *.
  split.
  - apply Hbk1. rewrite <- (Hres1 res1 eq_refl). done.
  - apply Hbk2. rewrite <- (Hres2 res2 eq_refl). done.
Qed.

Lemma applyByIds_second_backup_overwrites_witness :
  let w := testWorld (Some (Parsed TEST_PROFILE)) (Some (Parsed TEST_SUGGESTIONS)) in
  let w1 := (applyByIds (Ids [1]%Z) (Some "__test__") w).2 in
  let w2 := (applyByIds (Ids [2]%Z) (Some "__test__") w1).2 in
  profile_backup_json w1 = profile_json w ∧ profile_backup_json w2 = profile_json w1.
Proof.
  eapply (applyByIds_second_backup_overwrites (Ids [1]%Z) (Ids [2]%Z)
            (Some "__test__") (Some "__test__")).
  - vm_compute. reflexivity.
  - reflexivity.
  - vm_compute. reflexivity.
  - reflexivity.
Defined.

(** ** More on matchesQuery *)

(** The score in terms of the tokens: their number plus the number of those
    that occur in the title, when all of them occur *)
Lemma matchesQuery_tokens query title extraText :
  matchesQuery query title extraText =
  let tokens := specTokens query in
  if (length tokens =? 0)%nat then 1%Z
  else if forallb (occursIn (title +:+ " " +:+ extraText)) tokens
       then (Z.of_nat (length tokens) + count (occursIn title) tokens)%Z
       else 0%Z.
Proof.
  unfold matchesQuery. rewrite queryWords_spec. cbv zeta.
  pose proof (specTokens_lower query) as Hlow.
  set (tokens := specTokens query) in *.
  destruct (length tokens =? 0)%nat; [done|].
  assert (∀ x, x ∈ tokens → includes (toLowerCase title) x = occursIn title x) as Ht.
  { intros x Hx. unfold occursIn. by rewrite (Hlow x Hx). }
  assert (∀ x, x ∈ tokens →
            includes (toLowerCase title +:+ " " +:+ toLowerCase extraText) x
            = occursIn (title +:+ " " +:+ extraText) x) as Hf.
  { intros x Hx. unfold occursIn. rewrite (Hlow x Hx). by rewrite !toLowerCase_app. }
  rewrite (count_ext _ _ _ Ht), (count_ext _ _ _ Hf).
  destruct (forallb (occursIn (title +:+ " " +:+ extraText)) tokens) eqn:Hall.
  - apply count_all in Hall. rewrite Hall, Z.ltb_irrefl. lia.
  - assert (count (occursIn (title +:+ " " +:+ extraText)) tokens
            ≠ Z.of_nat (length tokens)) as Hne.
    { intros Heq. apply count_all in Heq. congruence. }
    pose proof (count_le (occursIn (title +:+ " " +:+ extraText)) tokens) as Hle.
    destruct (Z.ltb_spec (count (occursIn (title +:+ " " +:+ extraText)) tokens)
                         (Z.of_nat (length tokens))); [done | lia].
Qed.

Lemma count_nonneg p l : (0 ≤ count p l)%Z.
Proof. unfold count. lia. Qed.

(** X15.  The score is positive exactly when every token of the query
    occurs in the title or the extra text; it is never negative and never
    above twice the number of tokens (1 for a query without tokens), and a
    match scores at least the number of its tokens. *)
Theorem matchesQuery_positive_iff (query title extraText : string) :
  let tokens := specTokens query in
  let score := matchesQuery query title extraText in
  ((0 < score)%Z ↔ forallb (occursIn (title +:+ " " +:+ extraText)) tokens = true) ∧
  (0 ≤ score ≤ Z.max 1 (2 * Z.of_nat (length tokens)))%Z ∧
  ((0 < score)%Z → (Z.of_nat (length tokens) ≤ score)%Z).
Proof.
  cbv zeta. rewrite matchesQuery_tokens. cbv zeta.
  pose proof (count_le (occursIn title) (specTokens query)) as Hle.
  pose proof (count_nonneg (occursIn title) (specTokens query)) as H0.
  destruct (specTokens query) as [|t ts] eqn:Htok; [simpl; split; [done | lia]|].
  replace (length (t :: ts) =? 0)%nat with false by done.
  destruct (forallb _ (t :: ts)).
  - cbn [length] in *. split; [split; [done | lia] | lia].
  - cbn [length]. split; [split; [lia | done] | lia].
Qed.

Lemma toLowerCase_splitWs_tokens query :
  specTokens (toLowerCase query) = specTokens query.
Proof.
  unfold specTokens. rewrite splitWs_lower, map_map.
  f_equal. apply map_ext. intros w. apply toLowerCase_idem.
Qed.

(** X16.  The score does not depend on letter case: lower-casing the query,
    the title and the extra text changes nothing. *)
Theorem matchesQuery_case_insensitive (query title extraText : string) :
  matchesQuery (toLowerCase query) (toLowerCase title) (toLowerCase extraText)
  = matchesQuery query title extraText.
Proof.
  rewrite !matchesQuery_tokens. cbv zeta. rewrite toLowerCase_splitWs_tokens.
  assert (∀ text x, occursIn (toLowerCase text) x = occursIn text x) as Hocc
    by (intros text x; unfold occursIn; by rewrite toLowerCase_idem).
  assert (toLowerCase title +:+ " " +:+ toLowerCase extraText
          = toLowerCase (title +:+ " " +:+ extraText)) as ->
    by (by rewrite !toLowerCase_app).
  rewrite (count_ext _ (occursIn title) _ (fun x _ => Hocc title x)).
  assert (forallb (occursIn (toLowerCase (title +:+ " " +:+ extraText))) (specTokens query)
          = forallb (occursIn (title +:+ " " +:+ extraText)) (specTokens query)) as ->; [|done].
  induction (specTokens query) as [|x l IH]; [done|]. simpl. by rewrite Hocc, IH.
Qed.

Lemma count_Permutation p l l' : l ≡ₚ l' → count p l = count p l'.
Proof.
  unfold count. intros H. f_equal.
  induction H as [|x l l' _ IH|x y l|l l' l'' _ IH1 _ IH2]; simpl; try done.
  - destruct (p x); simpl; lia.
  - destruct (p x), (p y); simpl; lia.
  - lia.
Qed.

Lemma forallb_Permutation {A} (p : A → bool) l l' :
  l ≡ₚ l' → forallb p l = forallb p l'.
Proof.
  intros H. induction H as [|x l l' _ IH|x y l|l l' l'' _ IH1 _ IH2]; simpl; try done.
  - by rewrite IH.
  - destruct (p x), (p y); done.
  - congruence.
Qed.

(** X17.  The order of the words of the query does not matter: two queries
    with the same tokens up to their order score alike on every title and
    text. *)
Theorem matchesQuery_word_order (query query' title extraText : string) :
  specTokens query ≡ₚ specTokens query' →
  matchesQuery query title extraText = matchesQuery query' title extraText.
Proof.
  intros Hperm. rewrite !matchesQuery_tokens. cbv zeta.
  rewrite (Permutation_length Hperm), (forallb_Permutation _ _ _ Hperm),
    (count_Permutation _ _ _ Hperm). done.
Qed.

Lemma matchesQuery_word_order_witness :
  matchesQuery "backend senior engineer" "Senior Engineer" "Backend team"
  = matchesQuery "an Engineer of a SENIOR  backend" "Senior Engineer" "Backend team".
Proof.
  apply (matchesQuery_word_order "backend senior engineer" "an Engineer of a SENIOR  backend"
           "Senior Engineer" "Backend team").
  vm_compute. apply (Permutation_rev ["backend"; "senior"; "engineer"]).
Defined.

(** ** More on dedupe *)

Lemma dedupeLoop_id seen jobs :
  NoDup (keysOf jobs) → (∀ k, k ∈ keysOf jobs → k ∉ seen) →
  dedupeLoop seen jobs = jobs.
Proof.
  revert seen. induction jobs as [|j jobs IH]; intros seen Hnd Hfresh; [done|].
  cbn [keysOf map] in *. apply NoDup_cons in Hnd as [Hj Hnd]. simpl.
  rewrite bool_decide_eq_false_2 by (apply Hfresh; constructor).
  f_equal. apply IH; [done|]. intros k Hk Hin.
  apply elem_of_union in Hin as [Hin | Hin].
  - apply elem_of_singleton in Hin as ->. done.
  - apply (Hfresh k); [by constructor | done].
Qed.

(** X18.  dedupe is idempotent, and it returns its argument unchanged
    exactly when the keys of the results are pairwise distinct. *)
Theorem dedupe_idempotent (jobs : list JobResult) :
  dedupe (dedupe jobs) = dedupe jobs ∧
  (dedupe jobs = jobs ↔ NoDup (keysOf jobs)).
Proof.
  assert (∀ l, NoDup (keysOf l) → dedupe l = l) as Hid.
  { intros l Hl. apply dedupeLoop_id; [done|]. intros k _. apply not_elem_of_empty. }
  split; [apply Hid, dedupeLoop_NoDup|]. split; [|apply Hid].
  intros Heq. rewrite <- Heq. apply dedupeLoop_NoDup.
Qed.

Lemma union_absorb (k : string) (seen1 seen2 : gset string) :
  k ∈ seen1 → seen1 ∪ ({[k]} ∪ seen2) = seen1 ∪ seen2.
Proof.
  intros Hk. apply set_eq. intros x. rewrite !elem_of_union, elem_of_singleton.
  split; [intros [?|[->|?]]; auto | intros [?|?]; auto].
Qed.

Lemma union_swap (k : string) (seen1 seen2 : gset string) :
  {[k]} ∪ (seen1 ∪ seen2) = seen1 ∪ ({[k]} ∪ seen2).
Proof.
  apply set_eq. intros x. rewrite !elem_of_union, elem_of_singleton. tauto.
Qed.

Lemma dedupeLoop_union seen1 seen2 jobs :
  dedupeLoop (seen1 ∪ seen2) jobs
  = List.filter (fun j => negb (bool_decide (dedupeKey (jobUrl j) ∈ seen1)))
                (dedupeLoop seen2 jobs).
Proof.
  revert seen2. induction jobs as [|j jobs IH]; intros seen2; [done|]. simpl.
  destruct (decide (dedupeKey (jobUrl j) ∈ seen2)) as [Hin2 | Hin2].
  - rewrite (bool_decide_eq_true_2 (_ ∈ seen2)) by done.
    rewrite bool_decide_eq_true_2 by (apply elem_of_union; by right). apply IH.
  - rewrite (bool_decide_eq_false_2 (_ ∈ seen2)) by done. simpl.
    destruct (decide (dedupeKey (jobUrl j) ∈ seen1)) as [Hin1 | Hin1].
    + rewrite bool_decide_eq_true_2 by (apply elem_of_union; by left).
      rewrite (bool_decide_eq_true_2 (_ ∈ seen1)) by done. simpl.
      rewrite <- IH. f_equal. symmetry. by apply union_absorb.
    + rewrite bool_decide_eq_false_2
        by (intros Hu; apply elem_of_union in Hu as [?|?]; done).
      rewrite (bool_decide_eq_false_2 (_ ∈ seen1)) by done. simpl.
      f_equal. rewrite <- IH. f_equal. apply union_swap.
Qed.

Lemma dedupeLoop_app seen l1 l2 :
  dedupeLoop seen (l1 ++ l2)
  = dedupeLoop seen l1 ++ dedupeLoop (list_to_set (keysOf l1) ∪ seen) l2.
Proof.
  revert seen. induction l1 as [|j l1 IH]; intros seen.
  - simpl. f_equal. by rewrite (left_id_L ∅ (∪)).
  - cbn [app dedupeLoop keysOf map list_to_set].
    destruct (decide (dedupeKey (jobUrl j) ∈ seen)) as [Hin | Hin].
    + rewrite bool_decide_eq_true_2 by done. rewrite IH. f_equal. f_equal.
      apply set_eq. intros x. rewrite !elem_of_union, elem_of_singleton.
      split; [tauto | intros [[->|?]|?]; auto].
    + rewrite bool_decide_eq_false_2 by done. cbn [app]. rewrite IH. f_equal. f_equal.
      f_equal. apply set_eq. intros x. rewrite !elem_of_union, elem_of_singleton. tauto.
Qed.

(** X19.  The results that come first win: deduplicating two lists one
    after the other gives the deduplicated first list followed by those
    results of the deduplicated second list whose key the first list does
    not have. *)
Theorem dedupe_app (jobs1 jobs2 : list JobResult) :
  dedupe (jobs1 ++ jobs2)
  = dedupe jobs1
    ++ List.filter (fun j => negb (bool_decide (dedupeKey (jobUrl j) ∈ keysOf jobs1)))
                   (dedupe jobs2).
Proof.
  unfold dedupe. rewrite dedupeLoop_app, dedupeLoop_union. f_equal.
  apply filter_ext_in. intros j _. f_equal. apply bool_decide_ext.
  apply elem_of_list_to_set.
Qed.

Lemma toLowerCase_stripQuery s : toLowerCase (stripQuery s) = stripQuery (toLowerCase s).
Proof.
  assert (∀ s, noLineTerminator (toLowerCase s) = noLineTerminator s) as Hlt.
  { unfold noLineTerminator. intros t. induction t as [|c t IH]; [done|]. simpl.
    rewrite IH. f_equal. by destruct c as [[] [] [] [] [] [] [] []]. }
  induction s as [|c s IH]; [done|]. simpl. rewrite Hlt.
  assert ((lowerChar c =? "?")%char = (c =? "?")%char) as ->
    by (by destruct c as [[] [] [] [] [] [] [] []]).
  destruct ((c =? "?")%char && noLineTerminator s); [done|]. simpl. by rewrite IH.
Qed.

Lemma toLowerCase_stripTrailingSlashes s :
  toLowerCase (stripTrailingSlashes s) = stripTrailingSlashes (toLowerCase s).
Proof.
  assert (∀ s, allSlashes (toLowerCase s) = allSlashes s) as Hsl.
  { unfold allSlashes. intros t. induction t as [|c t IH]; [done|]. simpl.
    rewrite IH. f_equal. by destruct c as [[] [] [] [] [] [] [] []]. }
  induction s as [|c s IH]; [done|]. simpl. rewrite Hsl.
  assert ((lowerChar c =? "/")%char = (c =? "/")%char) as ->
    by (by destruct c as [[] [] [] [] [] [] [] []]).
  destruct ((c =? "/")%char && allSlashes s); [done|]. simpl. by rewrite IH.
Qed.

Lemma stripQuery_no_question s : noQuestionMark s = true → stripQuery s = s.
Proof.
  unfold noQuestionMark. induction s as [|c s IH]; [done|]. simpl. intros H.
  apply andb_true_iff in H as [Hc Hs]. apply negb_true_iff in Hc. rewrite Hc. simpl.
  by rewrite IH.
Qed.

Lemma stripQuery_append_query s q :
  noQuestionMark s = true → noLineTerminator q = true →
  stripQuery (s +:+ "?" +:+ q) = s.
Proof.
  unfold noQuestionMark. induction s as [|c s IH]; intros Hs Hq.
  - simpl. change (noLineTerminator q) with (noLineTerminator q) in Hq.
    unfold append. fold append. simpl. by rewrite Hq.
  - simpl in Hs. apply andb_true_iff in Hs as [Hc Hs]. apply negb_true_iff in Hc.
    rewrite append_cons. simpl. rewrite Hc. simpl. by rewrite IH.
Qed.

Lemma stripTrailingSlashes_append_slash s :
  stripTrailingSlashes (s +:+ "/") = stripTrailingSlashes s.
Proof.
  assert (∀ s, allSlashes (s +:+ "/") = allSlashes s) as Hall.
  { unfold allSlashes. intros t. induction t as [|c t IH]; [done|].
    rewrite append_cons. simpl. by rewrite IH. }
  induction s as [|c s IH]; [done|]. rewrite append_cons. simpl.
  rewrite Hall. destruct ((c =? "/")%char && allSlashes s); [done|]. by rewrite IH.
Qed.

(** X20.  URLs that differ in letter case, by a trailing slash or by a query
    string have the same deduplication key. *)
Theorem dedupeKey_insensitive (url : string) :
  dedupeKey (toLowerCase url) = dedupeKey url ∧
  (noQuestionMark url = true →
     dedupeKey (url +:+ "/") = dedupeKey url ∧
     ∀ q, noLineTerminator q = true → dedupeKey (url +:+ "?" +:+ q) = dedupeKey url).
Proof.
  unfold dedupeKey. split.
  - by rewrite <- toLowerCase_stripQuery, <- toLowerCase_stripTrailingSlashes, toLowerCase_idem.
  - intros Hq. split.
    + rewrite !stripQuery_no_question; [by rewrite stripTrailingSlashes_append_slash | done |].
      unfold noQuestionMark in *. clear -Hq. induction url as [|c url IH]; [done|].
      rewrite append_cons. simpl in *. apply andb_true_iff in Hq as [Hc Hu].
      by rewrite Hc, IH.
    + intros q Hlt. by rewrite stripQuery_append_query, stripQuery_no_question.
Qed.

Lemma dedupeKey_insensitive_witness :
  dedupeKey ("https://x.com/Job/1" +:+ "/") = dedupeKey "https://x.com/Job/1" ∧
  dedupeKey ("https://x.com/Job/1" +:+ "?" +:+ "ref=abc") = dedupeKey "https://x.com/Job/1".
Proof.
  destruct (proj2 (dedupeKey_insensitive "https://x.com/Job/1") eq_refl) as [Hs Hq].
  split; [exact Hs | exact (Hq "ref=abc" eq_refl)].
Defined.

(** ** The adapters of search.ts *)

Lemma insertScored_Permutation {A} (x : A * Z) (l : list (A * Z)) :
  insertScored x l ≡ₚ x :: l.
Proof.
  induction l as [|y l IH]; simpl; [reflexivity|].
  destruct (y.2 <? x.2)%Z; [reflexivity|].
  rewrite IH. apply Permutation_swap.
Qed.

Lemma sortLoop_Permutation {A} (l acc : list (A * Z)) :
  fold_left (fun acc x => insertScored x acc) l acc ≡ₚ acc ++ l.
Proof.
  revert acc; induction l as [|x l IH]; intros acc; simpl.
  - rewrite app_nil_r. reflexivity.
  - rewrite IH, insertScored_Permutation. simpl. apply Permutation_middle.
Qed.

Lemma sortScored_Permutation {A} (l : list (A * Z)) : sortScored l ≡ₚ l.
Proof. unfold sortScored. rewrite sortLoop_Permutation. reflexivity. Qed.

Lemma insertScored_descending {A} (x : A * Z) (l : list (A * Z)) :
  descending l -> descending (insertScored x l).
Proof.
  unfold descending.
  induction l as [|y l IH]; intros Hs; simpl.
  - constructor; constructor.
  - inversion Hs as [|? ? Hl Hy]; subst.
    destruct (y.2 <? x.2)%Z eqn:Hlt.
    + apply Z.ltb_lt in Hlt. constructor; [exact Hs|].
      constructor; [lia|].
      eapply Forall_impl; [exact Hy|]. simpl. intros z Hz. lia.
    + apply Z.ltb_ge in Hlt. constructor; [apply IH; exact Hl|].
      rewrite insertScored_Permutation. constructor; [exact Hlt | exact Hy].
Qed.

Lemma sortLoop_descending {A} (l acc : list (A * Z)) :
  descending acc -> descending (fold_left (fun acc x => insertScored x acc) l acc).
Proof.
  revert acc; induction l as [|x l IH]; intros acc Hacc; simpl; [exact Hacc|].
  apply IH, insertScored_descending, Hacc.
Qed.

Lemma withScore_below {A} (s : Z) (l : list (A * Z)) :
  Forall (fun y => (y.2 < s)%Z) l -> withScore s l = [].
Proof.
  induction 1 as [|y l Hy _ IH]; simpl; [reflexivity|].
  destruct (Z.eqb_spec y.2 s); [lia | exact IH].
Qed.

Lemma withScore_app {A} (s : Z) (l1 l2 : list (A * Z)) :
  withScore s (l1 ++ l2) = withScore s l1 ++ withScore s l2.
Proof. apply List.filter_app. Qed.

Lemma insertScored_withScore {A} (s : Z) (x : A * Z) (l : list (A * Z)) :
  descending l ->
  withScore s (insertScored x l) = withScore s l ++ withScore s [x].
Proof.
  unfold descending.
  induction l as [|y l IH]; intros Hs; [reflexivity|].
  inversion Hs as [|? ? Hl Hy]; subst.
  cbn [insertScored].
  destruct (y.2 <? x.2)%Z eqn:Hlt.
  - apply Z.ltb_lt in Hlt.
    change (x :: y :: l) with ([x] ++ y :: l). rewrite withScore_app.
    simpl (withScore s [x]).
    destruct (Z.eqb_spec x.2 s) as [Hx|Hx]; [|rewrite app_nil_r; reflexivity].
    rewrite (withScore_below s (y :: l)); [reflexivity|].
    constructor; [lia|].
    eapply Forall_impl; [exact Hy|]. simpl. intros z Hz. lia.
  - change (withScore s (y :: insertScored x l))
      with (withScore s ([y] ++ insertScored x l)).
    rewrite withScore_app, (IH Hl).
    change (y :: l) with ([y] ++ l). rewrite withScore_app, app_assoc. reflexivity.
Qed.

Lemma sortLoop_withScore {A} (s : Z) (l acc : list (A * Z)) :
  descending acc ->
  withScore s (fold_left (fun acc x => insertScored x acc) l acc)
  = withScore s acc ++ withScore s l.
Proof.
  revert acc; induction l as [|x l IH]; intros acc Hacc; simpl fold_left.
  - simpl. rewrite app_nil_r. reflexivity.
  - rewrite IH by (apply insertScored_descending, Hacc).
    rewrite (insertScored_withScore s x acc Hacc).
    change (x :: l) with ([x] ++ l). rewrite withScore_app, app_assoc. reflexivity.
Qed.

Lemma sortScored_descending {A} (l : list (A * Z)) : descending (sortScored l).
Proof. apply sortLoop_descending. constructor. Qed.

Lemma sortScored_withScore {A} (s : Z) (l : list (A * Z)) :
  withScore s (sortScored l) = withScore s l.
Proof. unfold sortScored. rewrite sortLoop_withScore by constructor. reflexivity. Qed.

Lemma filter_map_pairs {A B} (f : B -> bool) (g : A -> B) (l : list A) :
  List.filter f (map g l) = map g (List.filter (fun x => f (g x)) l).
Proof.
  induction l as [|x l IH]; [reflexivity|].
  cbn [map List.filter]. destruct (f (g x)); cbn [map]; rewrite IH; reflexivity.
Qed.

Lemma filter_positive_score {A} (score : A -> Z) (s : Z) (l : list A) :
  (0 < s)%Z ->
  List.filter (fun j => (score j =? s)%Z) (List.filter (fun j => (0 <? score j)%Z) l)
  = List.filter (fun j => (score j =? s)%Z) l.
Proof.
  intros Hs. induction l as [|x l IH]; [reflexivity|].
  cbn [List.filter].
  destruct (Z.ltb_spec 0 (score x)) as [Hp|Hp]; cbn [List.filter].
  - rewrite IH. reflexivity.
  - destruct (Z.eqb_spec (score x) s); [lia | exact IH].
Qed.

Lemma ghScored_elem_of (query : string) (jobs : list GhJob) (j : GhJob) (s : Z) :
  (j, s) ∈ ghScored query jobs
  <-> j ∈ jobs /\ s = matchesQuery query (gh_title j) (ghExtra j) /\ (0 < s)%Z.
Proof.
  unfold ghScored. rewrite sortScored_Permutation.
  rewrite list_elem_of_In, filter_In, <- !list_elem_of_In.
  rewrite list_elem_of_fmap. simpl. split.
  - intros [(j' & Heq & Hj') Hpos]. inversion Heq; subst.
    apply Z.ltb_lt in Hpos. auto.
  - intros (Hj & -> & Hpos). split; [exists j; auto | apply Z.ltb_lt, Hpos].
Qed.

(** X21.  The [scored] list that searchGreenhouse builds for one board holds
    exactly the jobs whose score against the query is positive, each with
    that score; it runs from the highest score to the lowest, and the jobs
    of one score keep the order in which the board listed them. *)
Theorem ghScored_ranked (query : string) (jobs : list GhJob) :
  let score j := matchesQuery query (gh_title j) (ghExtra j) in
  (forall j s, (j, s) ∈ ghScored query jobs <-> j ∈ jobs /\ s = score j /\ (0 < s)%Z)
  /\ length (ghScored query jobs)
     = length (List.filter (fun j => (0 <? score j)%Z) jobs)
  /\ descending (ghScored query jobs)
  /\ forall s, (0 < s)%Z ->
       map fst (withScore s (ghScored query jobs))
       = List.filter (fun j => (score j =? s)%Z) jobs.
Proof.
  intros score. unfold ghScored. fold score.
  set (pairs := map (fun j => (j, score j)) jobs).
  split; [|split; [|split]].
  - intros j s. apply ghScored_elem_of.
  - rewrite (Permutation_length (sortScored_Permutation _)). unfold pairs.
    rewrite filter_map_pairs, length_map. reflexivity.
  - apply sortScored_descending.
  - intros s Hs. rewrite sortScored_withScore. unfold pairs, withScore.
    rewrite !filter_map_pairs, map_map, map_id. simpl.
    apply filter_positive_score, Hs.
Qed.

Lemma searchGreenhouseLoop_acc (query : string) boards results log :
  searchGreenhouseLoop query boards results log
  = (results ++ (searchGreenhouse query boards).1, log ++ (searchGreenhouse query boards).2).
Proof.
  unfold searchGreenhouse.
  revert results log; induction boards as [|[board response] rest IH]; intros results log.
  - simpl. rewrite !app_nil_r. reflexivity.
  - cbn [searchGreenhouseLoop]. destruct response as [| |data].
    + rewrite IH, (IH [] ([] ++ _)). simpl. rewrite <- app_assoc. reflexivity.
    + apply IH.
    + cbv zeta. rewrite IH, (IH ([] ++ _) []). simpl. rewrite <- app_assoc. reflexivity.
Qed.


(** X22.  searchGreenhouse over several boards: a result is returned exactly
    when it is the rendering of a job that a board with a good response
    lists and whose score against the query is positive; a board whose fetch
    throws or is not ok contributes no result and stops nothing; the log gets
    one line for each board that threw and none for the others; and the
    results and log lines of a list of boards are those of its first part
    followed by those of the rest. *)
Theorem searchGreenhouse_boards (query : string)
    (boards : list (string * fetched (option (list GhJob)))) :
  (forall r, r ∈ (searchGreenhouse query boards).1 <->
     exists board data j,
       (board, FetchOk data) ∈ boards /\ j ∈ default [] data
       /\ (0 < matchesQuery query (gh_title j) (ghExtra j))%Z
       /\ r = ghResult board j)
  /\ (searchGreenhouse query boards).2
     = map (fun b => "(greenhouse: failed to fetch " +:+ b.1 +:+ ")")
         (List.filter (fun b => fetchThrew b.2) boards)
  /\ forall boards1 boards2, boards = boards1 ++ boards2 ->
       searchGreenhouse query boards
       = ((searchGreenhouse query boards1).1 ++ (searchGreenhouse query boards2).1,
          (searchGreenhouse query boards1).2 ++ (searchGreenhouse query boards2).2).
Proof.
  split; [|split].
  - induction boards as [|[board response] rest IH]; intros r.
    + simpl. split; [intros H; inversion H|].
      intros (b & d & j & H & _). inversion H.
    + unfold searchGreenhouse. cbn [searchGreenhouseLoop].
      destruct response as [| |data].
      * rewrite searchGreenhouseLoop_acc. cbn [fst app]. rewrite IH.
        split; intros (b & d & j & Hin & Hrest);
          exists b, d, j; (split; [|exact Hrest]).
        -- right. exact Hin.
        -- apply elem_of_cons in Hin as [Heq|Hin]; [discriminate | exact Hin].
      * fold (searchGreenhouse query rest). rewrite IH.
        split; intros (b & d & j & Hin & Hrest);
          exists b, d, j; (split; [|exact Hrest]).
        -- right. exact Hin.
        -- apply elem_of_cons in Hin as [Heq|Hin]; [discriminate | exact Hin].
      * cbv zeta. rewrite searchGreenhouseLoop_acc. cbn [fst app].
        rewrite elem_of_app, IH, list_elem_of_fmap. split.
        -- intros [([j s] & -> & Hjs)|(b & d & j & Hin & Hrest)].
           ++ apply (proj1 (ghScored_elem_of query (default [] data) j s)) in Hjs.
              destruct Hjs as (Hj & -> & Hpos).
              exists board, data, j. simpl. repeat split; auto. left.
           ++ exists b, d, j. split; [right; exact Hin | exact Hrest].
        -- intros (b & d & j & Hin & Hj & Hpos & ->).
           apply elem_of_cons in Hin as [Heq|Hin].
           ++ inversion Heq; subst.
              left. exists (j, matchesQuery query (gh_title j) (ghExtra j)).
              split; [reflexivity|].
              apply ghScored_elem_of. auto.
           ++ right. exists b, d, j. auto.
  - induction boards as [|[board response] rest IH]; [reflexivity|].
    unfold searchGreenhouse. cbn [searchGreenhouseLoop].
    destruct response as [| |data]; cbn [List.filter fetchThrew snd map fst].
    + rewrite searchGreenhouseLoop_acc. cbn [snd app]. rewrite IH. reflexivity.
    + exact IH.
    + cbv zeta. rewrite searchGreenhouseLoop_acc. cbn [snd app]. exact IH.
  - intros boards1 boards2 ->.
    induction boards1 as [|[board response] rest IH].
    + simpl. destruct (searchGreenhouse query boards2); reflexivity.
    + unfold searchGreenhouse. cbn [app searchGreenhouseLoop].
      destruct response as [| |data]; cbv zeta;
        rewrite ?searchGreenhouseLoop_acc, ?(searchGreenhouseLoop_acc query rest);
        fold (searchGreenhouse query (rest ++ boards2));
        fold (searchGreenhouse query rest);
        rewrite ?IH; cbn [fst snd];
        rewrite ?app_nil_l, ?app_assoc; reflexivity.
Qed.



(** ** The routes of server.ts *)

Lemma applySuggestion_Throw s d e : applySuggestion s d = Throw e → e = TypeError.
Proof.
  intros H.
  destruct (applySuggestion_unresolved_or_mutates s d) as [Hr | (r & Hres & Hrun)];
    [congruence|].
  rewrite Hrun in H.
  destruct (mutate s (r_parent r) (r_key r)) as [p'| e' |] eqn:Hm; simpl in H; try discriminate.
  injection H as ->. unfold mutate in Hm.
  destruct (isRemove (type s)).
  - assert (deleteProp (r_parent r) (r_key r) = Throw e) as Hdel.
    { destruct (r_parent r) as [| | | | |l|m]; try done. by destruct (r_key r). }
    by apply deleteProp_Throw in Hdel as [-> _].
  - by apply setProp_Throw in Hm as [-> _].
Qed.

Lemma applyAll_Throw toApply profile e : applyAll toApply profile = Throw e → e = TypeError.
Proof.
  revert profile. induction toApply as [|s rest IH]; intros profile; simpl; [discriminate|].
  destruct (applySuggestion s profile) as [p| e' |] eqn:Happ; simpl.
  - apply IH.
  - intros [= <-]. eapply applySuggestion_Throw, Happ.
  - discriminate.
Qed.




Lemma jsonify_idem v : jsonify (jsonify v) = jsonify v.
Proof. apply jsonify_clean, jsonify_jsonClean. Qed.

Lemma putProfile_guard (b : value) :
  (negb (truthy b) || negb (isContainer b) || negb (truthy (child b "name"))
   || match child b "name" with VStr s => trim s =? "" | _ => true end) = false
  ↔ namedProfile (Some b).
Proof.
  split.
  - destruct b as [| | bb | n | s | l | m]; simpl; try discriminate;
      try (destruct bb; discriminate);
      try (destruct (negb (n =? 0)%Z); discriminate);
      try (destruct (negb (s =? "")); discriminate).
    destruct (m !! "name") as [name|] eqn:Hname; simpl; [|discriminate].
    destruct name as [| | bb | n | s | l | m0]; simpl; try discriminate;
      try (destruct bb; discriminate);
      try (destruct (negb (n =? 0)%Z); discriminate).
    destruct (negb (s =? "")); simpl; [|discriminate].
    destruct (String.eqb_spec (trim s) ""); [discriminate|].
    intros _. by exists m, s.
  - intros (m & s & [= ->] & Hname & Ht). simpl. rewrite Hname. simpl.
    destruct (String.eqb_spec s "") as [-> | Hs]; [by destruct Ht|]. simpl.
    by destruct (String.eqb_spec (trim s) "").
Qed.

(** X25.  PUT /api/profile and GET /api/profile.  A PUT answers 200 or 400,
    and 400 exactly when the body is not an object with a [name] that is a
    string with more than white space in it; nothing has then been touched.
    After a PUT answered with 200 the backup file holds the profile file
    from before the request if there was one and is untouched otherwise,
    the suggestions are untouched, a GET answers 200 with the body as JSON
    keeps it and changes nothing, and applyByIds finds a profile, so that it
    does not throw the missing-profile error. *)
Theorem putProfile_then_getProfile (body : option value) (w : world) :
  ∃ resp w',
    handleRequest (PutProfile body) w = (Ret resp, w')
    ∧ (status resp = 200 ∨ status resp = 400)%Z
    ∧ (status resp = 400%Z ↔ ¬ namedProfile body)
    ∧ (status resp = 400%Z → w' = w)
    ∧ (status resp = 200%Z →
         ∃ b, body = Some b
           ∧ profile_backup_json w'
             = (if bool_decide (is_Some (profile_json w)) then profile_json w
                else profile_backup_json w)
           ∧ output w' = output w
           ∧ handleRequest GetProfile w' = (Ret (json (PJson (jsonify b)) 200), w')
           ∧ profileLoads w' = true
           ∧ ∀ ids jobId, (applyByIds ids jobId w').1 ≠ Throw noProfile).
Proof.
  destruct body as [b|]; cbn [handleRequest].
  2:{ eexists _, _. split; [reflexivity|]. simpl.
      split; [by right|]. split; [|split; [done | discriminate]].
      split; [|done]. intros _ (m & s & [=] & _). }
  pose proof (putProfile_guard b) as Hguard.
  destruct (negb (truthy b) || _ || _ || _) eqn:Hcond.
  { eexists _, _. split; [reflexivity|]. simpl.
    split; [by right|]. split; [|split; [done | discriminate]].
    split; [|done]. intros _ Hn. apply Hguard in Hn. discriminate. }
  assert (truthy (jsonify b) = true) as Htruthy.
  { destruct (proj1 Hguard eq_refl) as (m & s & [= ->] & _). reflexivity. }
  unfold mbind, M_bind, gets, modify, mret, M_ret.
  destruct (bool_decide (is_Some (profile_json w)));
    (eexists _, _; split; [reflexivity|]); simpl;
    (split; [by left|]);
    (split; [split; [discriminate|]; intros Hno; destruct Hno; by apply Hguard|]);
    (split; [discriminate|]); intros _; exists b;
    (split; [done|]); (split; [done|]); (split; [done|]);
    (split; [rewrite <- (jsonify_idem b) at 2; reflexivity|]);
    (split; [exact Htruthy|]); intros ids jobId; rewrite applyByIds_run;
    destruct (loadedSuggestions _ _); try discriminate;
    destruct (_ =? _)%nat; try discriminate; unfold profileValue; simpl;
    rewrite Htruthy; simpl; cbv zeta;
    match goal with
    | |- context [applyLoop ?j ?l ?p ?w0] =>
        let H := fresh in
        destruct (applyLoop_run j l p w0) as (? & ? & H & _); rewrite H;
        let E := fresh in
        destruct (applyAll l p) eqn:E; simpl;
        [discriminate | intros [= ->]; apply applyAll_Throw in E; discriminate
        | discriminate]
    end.
Qed.

(** X26.  GET /api/suggestions.  Without a job id, or with an empty one, the
    answer is 400 and nothing is touched.  Otherwise the route answers as
    loadSuggestions of that job id does, 200 with the file or 404 when there
    is none that parses; the case it makes of the id "review" changes
    nothing, that id naming the review directory anyway.  Its one effect is
    that of loadSuggestions: the directory of the job is created when it
    does not exist, also when the answer is 404; the profile files are never
    touched. *)
Theorem getSuggestions_answers (jobId : option string) (w : world) :
  ∃ resp w',
    handleRequest (GetSuggestions jobId) w = (Ret resp, w')
    ∧ sameProfileFiles w w'
    ∧ (status resp = 400%Z ↔ jobId = None ∨ jobId = Some "")
    ∧ (status resp = 400%Z → w' = w)
    ∧ (status resp ≠ 400%Z →
         w' = (loadSuggestions jobId w).2
         ∧ (output w !! dirName jobId = None →
              output w' = <[dirName jobId := emptyDir]> (output w) ∧ status resp = 404%Z)
         ∧ match (loadSuggestions jobId w).1 with
           | Ret (Some data) => resp = json (PSuggestionsFile data) 200
           | _ => status resp = 404%Z
           end).
Proof.
  destruct jobId as [j|]; cbn [handleRequest].
  2:{ eexists _, _. split; [reflexivity|]. simpl. split; [done|].
      split; [split; auto|]. split; [done|]. done. }
  destruct (String.eqb_spec j "") as [-> | Hj].
  { eexists _, _. split; [reflexivity|]. simpl. split; [done|].
    split; [split; auto|]. split; [done|]. done. }
  assert (dirName (if j =? "review" then None else Some j) = dirName (Some j)) as Hdir.
  { destruct (String.eqb_spec j "review") as [-> | _]; reflexivity. }
  assert (loadSuggestions (if j =? "review" then None else Some j) w
          = loadSuggestions (Some j) w) as Hload.
  { rewrite !loadSuggestions_run. unfold loadedSuggestions, afterDir. by rewrite Hdir. }
  unfold mbind, M_bind. rewrite Hload, loadSuggestions_run. simpl.
  assert (output w !! dirName (Some j) = None →
          loadedSuggestions (Some j) w = None
          ∧ output (afterDir (Some j) w) = <[dirName (Some j) := emptyDir]> (output w))
    as Hnew.
  { intros Hnone. unfold loadedSuggestions, afterDir. rewrite Hnone. done. }
  destruct (loadedSuggestions (Some j) w) as [data|] eqn:Hdata;
    (eexists _, _; split; [reflexivity|]); simpl;
    (split; [apply afterDir_files|]);
    (split; [split; [discriminate | intros [[=] | [= ->]]; by destruct Hj]|]);
    (split; [discriminate|]); intros _; (split; [done|]).
  - split; [|done]. intros Hnone. by destruct (Hnew Hnone).
  - split; [|done]. intros Hnone. by destruct (Hnew Hnone).
Qed.

(** ** The interactive review *)

Lemma triple_ret {A} (P : session → Prop) (a : A) (Q : A → session → Prop) E :
  (∀ s, P s → Q a s) → triple P (mret a) Q E.
Proof. intros H s HP. apply H, HP. Qed.

Lemma triple_bind {A B} (P : session → Prop) (m : IO A) (Q : A → session → Prop)
    (k : A → IO B) (R : B → session → Prop) (E : session → Prop) :
  triple P m Q E → (∀ a, triple (Q a) (k a) R E) → triple P (m ≫= k) R E.
Proof.
  intros Hm Hk s HP. unfold mbind, IO_bind. specialize (Hm s HP).
  destruct (m s) as [[a|e| |] s']; auto. by apply Hk.
Qed.

Lemma triple_weaken {A} (P P' : session → Prop) (m : IO A)
    (Q Q' : A → session → Prop) (E E' : session → Prop) :
  triple P m Q E → (∀ s, P' s → P s) → (∀ a s, Q a s → Q' a s) → (∀ s, E s → E' s) →
  triple P' m Q' E'.
Proof.
  intros Hm HP HQ HE s Hs. specialize (Hm s (HP s Hs)).
  destruct (m s) as [[a|e| |] s']; auto.
Qed.

Lemma triple_inFiles {A} (F : world → Prop) ok (m : M A) (G : A → world → Prop)
    (E : world → Prop) :
  (∀ w, F w → match m w with
              | (Ret a, w') => G a w'
              | (_, w') => E w'
              end) →
  triple (within F ok) (inFiles m) (fun a => within (G a) ok) (within E ok).
Proof.
  intros H s [HF Hok]. unfold inFiles. specialize (H (files s) HF).
  destruct (m (files s)) as [[a|e|] w']; simpl; by split.
Qed.

Lemma quiet_ret {A} (a : A) : quiet (mret a : IO A).
Proof. intros s. by split. Qed.

Lemma quiet_bind {A B} (m : IO A) (k : A → IO B) :
  quiet m → (∀ a, quiet (k a)) → quiet (m ≫= k).
Proof.
  intros Hm Hk s. unfold mbind, IO_bind. destruct (Hm s) as [H1 H2].
  destruct (m s) as [[a|e| |] s'] eqn:Ems; simpl in *; try by split.
  destruct (Hk a s') as [H3 H4]. split; [congruence|]. by etrans.
Qed.

Lemma quiet_stdoutWrite text : quiet (stdoutWrite text).
Proof. intros s. by split. Qed.

Lemma quiet_consoleLog text : quiet (consoleLog text).
Proof. apply quiet_stdoutWrite. Qed.

Lemma quiet_onData : quiet onData.
Proof.
  intros s. unfold onData. destruct (stdin s) as [|chunk rest] eqn:E; simpl.
  - split; [done|]. by rewrite E.
  - split; [done|]. by apply suffix_cons_r.
Qed.

Lemma readLineLoop_suffix buf chunks line rest :
  readLineLoop buf chunks = Some (line, rest) → rest `suffix_of` chunks.
Proof.
  revert buf. induction chunks as [|str chunks IH]; intros buf; simpl; [discriminate|].
  destruct (hasLineFeed str).
  - intros [= _ <-]. by apply suffix_cons_r.
  - intros H. apply suffix_cons_r. eapply IH, H.
Qed.

Lemma quiet_onLine : quiet onLine.
Proof.
  intros s. unfold onLine.
  destruct (readLineLoop "" (stdin s)) as [[line rest]|] eqn:E; simpl.
  - split; [done|]. eapply readLineLoop_suffix, E.
  - split; [done|]. apply suffix_nil.
Qed.

Lemma quiet_readChar prompt : quiet (readChar prompt).
Proof.
  unfold readChar.
  repeat first [ apply quiet_bind; [|intros ?] | apply quiet_stdoutWrite
               | apply quiet_onData | apply quiet_ret ].
Qed.

Lemma quiet_readLine prompt : quiet (readLine prompt).
Proof.
  unfold readLine. apply quiet_bind; [apply quiet_stdoutWrite | intros _; apply quiet_onLine].
Qed.

Lemma quiet_logEach prefix lines : quiet (logEach prefix lines).
Proof.
  induction lines as [|line lines IH]; simpl; [apply quiet_ret|].
  apply quiet_bind; [apply quiet_consoleLog | intros _; apply IH].
Qed.

Ltac quiet_steps :=
  repeat first [ apply quiet_bind; [|intros ?] | apply quiet_consoleLog
               | apply quiet_stdoutWrite | apply quiet_logEach | apply quiet_ret
               | apply quiet_readChar | apply quiet_readLine
               | match goal with |- quiet (if ?c then _ else _) => destruct c end
               | match goal with |- quiet (match ?c with _ => _ end) => destruct c end ].

Lemma quiet_printSuggestion i total s : quiet (printSuggestion i total s).
Proof. unfold printSuggestion. quiet_steps. Qed.

Lemma quiet_printHeader trackerGet data total : quiet (printHeader trackerGet data total).
Proof. unfold printHeader. quiet_steps. Qed.

Lemma quiet_printSummary jobId total changesApplied actions :
  quiet (printSummary jobId total changesApplied actions).
Proof. unfold printSummary. cbv zeta. quiet_steps. Qed.

Lemma triple_quiet {A} (F E : world → Prop) ok (m : IO A) :
  quiet m → (∀ w, F w → E w) →
  triple (within F ok) m (fun _ => within F ok) (within E ok).
Proof.
  intros Hq HE s [HF Hok]. destruct (Hq s) as [H1 H2].
  assert (Forall ok (stdin (m s).2)) as Hok'.
  { destruct H2 as [pre H2]. rewrite H2 in Hok. by apply Forall_app in Hok as [_ ?]. }
  rewrite <- H1 in HF.
  destruct (m s) as [[a|e| |] s']; split; auto.
Qed.

(** The key [readChar] returns is that of a chunk that was pending *)
Lemma triple_readChar (F E : world → Prop) (ok : string → Prop) prompt :
  (∀ w, F w → E w) →
  triple (within F ok) (readChar prompt)
    (fun ch s => within F ok s ∧ ∃ chunk, ok chunk ∧ ch = firstChar chunk)
    (within E ok).
Proof.
  intros HE s [HF Hok]. unfold readChar, mbind, IO_bind, stdoutWrite, onData, mret, IO_ret.
  simpl. destruct (stdin s) as [|chunk rest]; simpl; [split; auto|].
  apply Forall_cons in Hok as [Hc Hrest].
  split; [by split|]. exists chunk. split; [done|]. by destruct chunk.
Qed.

Lemma scan_app seen evs1 evs2 :
  scan seen (evs1 ++ evs2) = scan seen evs1 ≫= fun seen' => scan seen' evs2.
Proof.
  revert seen. induction evs1 as [|e evs1 IH]; intros seen; [done|].
  destruct e; simpl; try apply IH; destruct seen; simpl; try done; apply IH.
Qed.

Lemma scan_mkdir seen mk : forallb isMkdir mk = true → scan seen mk = Some seen.
Proof.
  induction mk as [|e mk IH]; [done|]. simpl. intros H.
  apply andb_true_iff in H as [He Hmk]. destruct e; try done. by apply IH.
Qed.

(** What [scan] has checked *)
Lemma scan_seen evs b :
  scan true evs = Some b → b = true ∧ EBackup ∉ evs.
Proof.
  induction evs as [|e evs IH]; simpl.
  - intros [= <-]. split; [done|]. by intros H; inversion H.
  - destruct e; try discriminate; intros H; destruct (IH H) as [-> Hn];
      (split; [done|]); intros Hin; apply elem_of_cons in Hin as [?|?]; done.
Qed.

Lemma scan_unseen evs b :
  scan false evs = Some b →
  if b
  then ∃ pre post, evs = pre ++ EBackup :: post ∧
                   (EBackup ∉ pre) ∧ (EWriteTmp ∉ pre) ∧ (ERename ∉ pre) ∧ (EBackup ∉ post)
  else (EBackup ∉ evs) ∧ (EWriteTmp ∉ evs) ∧ (ERename ∉ evs).
Proof.
  induction evs as [|e evs IH]; simpl.
  - intros [= <-]. repeat split; by intros H; inversion H.
  - assert (∀ (x y : event) l, x ≠ y → x ∉ l → x ∉ y :: l) as Hcons.
    { intros x y l Hx Hn Hin. apply elem_of_cons in Hin as [?|?]; done. }
    destruct e; try discriminate.
    + intros H. specialize (IH H). destruct b.
      * destruct IH as (pre & post & -> & H1 & H2 & H3 & H4).
        exists (EMkdir name :: pre), post. repeat split; first [done | apply Hcons; [done | assumption]].
      * destruct IH as (H1 & H2 & H3). repeat split; first [done | apply Hcons; [done | assumption]].
    + intros H. apply scan_seen in H as [-> Hn].
      exists [], evs. repeat split; try done; by intros Hin; inversion Hin.
    + intros H. specialize (IH H). destruct b.
      * destruct IH as (pre & post & -> & H1 & H2 & H3 & H4).
        exists (EMutate i :: pre), post. repeat split; first [done | apply Hcons; [done | assumption]].
      * destruct IH as (H1 & H2 & H3). repeat split; first [done | apply Hcons; [done | assumption]].
    + intros H. specialize (IH H). destruct b.
      * destruct IH as (pre & post & -> & H1 & H2 & H3 & H4).
        exists (ELog i :: pre), post. repeat split; first [done | apply Hcons; [done | assumption]].
      * destruct IH as (H1 & H2 & H3). repeat split; first [done | apply Hcons; [done | assumption]].
Qed.

Lemma reviewed_start w0 : reviewed w0 false w0.
Proof. exists []. rewrite app_nil_r. repeat split. Qed.

Lemma reviewed_events w0 b w w' evs :
  reviewed w0 b w →
  trace w' = trace w ++ evs →
  scan b evs = Some b →
  sameProfileFiles w w' →
  reviewed w0 b w'.
Proof.
  intros (evs0 & Ht & Hs & Hf) Ht' Hs' (F1 & F2 & F3).
  exists (evs0 ++ evs). split; [by rewrite Ht', Ht, app_assoc|].
  split; [by rewrite scan_app, Hs|].
  destruct b; [congruence|]. destruct Hf as (G1 & G2 & G3). repeat split; congruence.
Qed.

Lemma reviewed_afterDir w0 b jobId w : reviewed w0 b w → reviewed w0 b (afterDir jobId w).
Proof.
  intros H. destruct (afterDir_trace jobId w) as (mk & Ht & Hmk).
  eapply reviewed_events; [exact H | exact Ht | by apply scan_mkdir | apply afterDir_files].
Qed.

Lemma reviewed_logChange w0 b s name jobId w :
  reviewed w0 b w →
  ∃ w', logChange s name jobId w = (Ret tt, w') ∧ reviewed w0 b w'.
Proof.
  intros H. destruct (logChange_run s name jobId w) as (w' & Hrun & Hf & Ht).
  exists w'. split; [done|].
  destruct (afterDir_trace jobId w) as (mk & Ht0 & Hmk).
  eapply (reviewed_events w0 b w w' (mk ++ [ELog (id s)])); [exact H | | | exact Hf].
  - by rewrite Ht, Ht0, app_assoc.
  - rewrite scan_app, (scan_mkdir _ _ Hmk). reflexivity.
Qed.

Lemma reviewed_backup w0 w :
  reviewed w0 false w → reviewed w0 true (copyProfileToBackup w).
Proof.
  intros (evs & Ht & Hs & F1 & F2 & F3). exists (evs ++ [EBackup]).
  split; [simpl; by rewrite Ht, app_assoc|].
  split; [by rewrite scan_app, Hs|]. simpl. congruence.
Qed.

Lemma reviewed_write w0 profile w :
  reviewed w0 true w → reviewed w0 true (renameTmp (writeTmp profile w)).
Proof.
  intros (evs & Ht & Hs & Hf). exists (evs ++ [EWriteTmp; ERename]).
  split; [simpl; by rewrite Ht, <- !app_assoc|].
  split; [by rewrite scan_app, Hs|]. exact Hf.
Qed.

Section Review.

Variable w0 : world.
Variable ok : string → Prop.

(** Some [backupCreated] fits *)
Let underway (w : world) : Prop := ∃ b, reviewed w0 b w.

Ltac to_underway :=
  intros ? ?; first [ eexists; eassumption
                    | match goal with H : _ ∧ _ |- _ => destruct H; eexists; eassumption end ].

Lemma triple_backupFirst (b : bool) :
  triple (within (reviewed w0 b) ok) (backupFirst b)
    (fun b' => within (fun w => reviewed w0 b' w ∧ (b' = false → profile_json w = None)) ok)
    (within underway ok).
Proof.
  unfold backupFirst. destruct b; simpl.
  { apply triple_ret. intros s [H1 H2]. by split. }
  eapply triple_bind.
  { apply (triple_inFiles (reviewed w0 false) ok _
             (fun a w => reviewed w0 false w ∧ a = bool_decide (is_Some (profile_json w)))
             underway).
    intros w Hw. simpl. by split. }
  intros [|].
  - eapply triple_bind.
    { apply (triple_inFiles _ ok _ (fun _ w => reviewed w0 true w) underway).
      intros w [Hw _]. simpl. by apply reviewed_backup. }
    intros ?. eapply triple_bind; [apply triple_quiet; [apply quiet_consoleLog | to_underway]|].
    intros ?. apply triple_ret. intros s [H1 H2]. by split.
  - apply triple_ret. intros s [[H1 H3] H2]. split; [|done]. split; [done|].
    intros _. symmetry in H3. apply bool_decide_eq_false in H3.
    destruct (profile_json (files s)); [|done]. destruct H3. eauto.
Qed.

Lemma triple_applyAndLog (s : Suggestion) (profile : value) (name : string)
    (jobId : option string) :
  triple (within (reviewed w0 true) ok) (applyAndLog s profile name jobId)
    (fun _ => within (reviewed w0 true) ok) (within underway ok).
Proof.
  unfold applyAndLog. eapply triple_bind.
  { apply (triple_inFiles _ ok _ (fun _ w => reviewed w0 true w) underway).
    intros w Hw. unfold lift. destruct (applySuggestion s profile); [done | by exists true..]. }
  intros profile'. eapply triple_bind.
  { apply (triple_inFiles _ ok _ (fun _ w => reviewed w0 true w) underway).
    intros w Hw. by apply reviewed_write. }
  intros ?.
  apply (triple_inFiles _ ok _ (fun _ w => reviewed w0 true w) underway).
  intros w Hw. destruct (reviewed_logChange w0 true s name jobId w Hw) as (w' & Hrun & Hw').
  rewrite Hrun. exact Hw'.
Qed.

(** Loading the profile after the backup block, and applying when it loads *)
Lemma triple_load_apply {A} (b : bool) (k : value → IO A) (Q : A → session → Prop) :
  (∀ profile, truthy profile = true → b = true →
     triple (within (reviewed w0 true) ok) (k profile) Q (within underway ok)) →
  (∀ profile, truthy profile = false →
     triple (within (reviewed w0 b) ok) (k profile) Q (within underway ok)) →
  triple (within (fun w => reviewed w0 b w ∧ (b = false → profile_json w = None)) ok)
    (inFiles loadProfile ≫= k) Q (within underway ok).
Proof.
  intros Hyes Hno s [[Hw Hb] Hok].
  unfold mbind, IO_bind, inFiles. rewrite loadProfile_run. simpl.
  assert ({| files := files s; stdin := stdin s; stdout := stdout s |} = s) as ->
    by by destruct s.
  destruct (truthy (profileValue (files s))) eqn:Ht.
  - assert (b = true) as Hbt.
    { destruct b; [done|].
      unfold profileValue in Ht. rewrite (Hb eq_refl) in Ht. discriminate. }
    apply Hyes; [exact Ht | exact Hbt |]. split; [|done]. by rewrite <- Hbt.
  - apply Hno; [exact Ht|]. by split.
Qed.

Lemma triple_onApprove jobId s b changesApplied actions :
  triple (within (reviewed w0 b) ok) (onApprove jobId s b changesApplied actions)
    (fun st => within (reviewed w0 st.1.1) ok) (within underway ok).
Proof.
  unfold onApprove. eapply triple_bind; [apply triple_backupFirst|].
  intros b'. apply triple_load_apply.
  - intros profile Ht ->. rewrite Ht.
    eapply triple_bind; [apply triple_applyAndLog|]. intros ?.
    eapply triple_bind; [apply triple_quiet; [apply quiet_consoleLog | to_underway]|]. intros ?.
    by apply triple_ret.
  - intros profile Ht. rewrite Ht.
    eapply triple_bind; [apply triple_quiet; [apply quiet_consoleLog | to_underway]|]. intros ?.
    by apply triple_ret.
Qed.
Lemma triple_onEdit jobId s b changesApplied actions :
  triple (within (reviewed w0 b) ok) (onEdit jobId s b changesApplied actions)
    (fun st => within (reviewed w0 st.1.1) ok) (within underway ok).
Proof.
  unfold onEdit.
  eapply triple_bind; [apply triple_quiet; [apply quiet_consoleLog | to_underway]|].
  intros ?.
  eapply triple_bind; [apply triple_quiet; [apply quiet_readLine | to_underway]|].
  intros edited. destruct (negb (edited =? "")).
  - eapply triple_bind; [apply triple_backupFirst|].
    intros b'. apply triple_load_apply.
    + intros profile Ht ->. rewrite Ht.
      eapply triple_bind; [apply triple_applyAndLog|]. intros ?.
      eapply triple_bind; [apply triple_quiet; [apply quiet_consoleLog | to_underway]|].
      intros ?. by apply triple_ret.
    + intros profile Ht. rewrite Ht. by apply triple_ret.
  - eapply triple_bind; [apply triple_quiet; [apply quiet_consoleLog | to_underway]|].
    intros ?. by apply triple_ret.
Qed.

Lemma triple_onManual jobId i s b changesApplied actions :
  triple (within (reviewed w0 b) ok) (onManual jobId i s b changesApplied actions)
    (fun st => within (reviewed w0 st.1.1) ok) (within underway ok).
Proof.
  unfold onManual.
  eapply triple_bind; [apply triple_quiet; [apply quiet_consoleLog | to_underway]|].
  intros ?.
  eapply triple_bind; [apply triple_quiet; [apply quiet_readLine | to_underway]|].
  intros section'.
  eapply triple_bind; [apply triple_quiet; [apply quiet_consoleLog | to_underway]|].
  intros ?.
  eapply triple_bind; [apply triple_quiet; [apply quiet_readLine | to_underway]|].
  intros text. destruct (negb (section' =? "") && negb (text =? "")).
  - eapply triple_bind; [apply triple_backupFirst|].
    intros b'. apply triple_load_apply.
    + intros profile Ht ->. rewrite Ht.
      eapply triple_bind; [apply triple_applyAndLog|]. intros ?.
      eapply triple_bind; [apply triple_quiet; [apply quiet_consoleLog | to_underway]|].
      intros ?. by apply triple_ret.
    + intros profile Ht. rewrite Ht. by apply triple_ret.
  - eapply triple_bind; [apply triple_quiet; [apply quiet_consoleLog | to_underway]|].
    intros ?. by apply triple_ret.
Qed.

Lemma triple_onSkip jobId s b changesApplied actions :
  triple (within (reviewed w0 b) ok) (onSkip jobId s b changesApplied actions)
    (fun st s' => within (reviewed w0 b) ok s' ∧ st.1.1 = b) (within (reviewed w0 b) ok).
Proof.
  unfold onSkip. eapply triple_bind.
  { apply (triple_inFiles _ ok _ (fun _ w => reviewed w0 b w) (reviewed w0 b)).
    intros w Hw. destruct (reviewed_logChange w0 b s "skipped" jobId w Hw) as (w' & Hrun & Hw').
    rewrite Hrun. exact Hw'. }
  intros ?.
  eapply triple_bind; [apply triple_quiet; [apply quiet_consoleLog | done]|].
  intros ?. by apply triple_ret.
Qed.

(** Every pending chunk has a key that neither approves, nor edits, nor adds *)
Let passive : Prop := ∀ chunk, ok chunk → passiveKey chunk.

(** Where a review that was at [b] can end *)
Let final (b : bool) (w : world) : Prop :=
  ∃ b', reviewed w0 b' w ∧ (passive → b = false → b' = false).

Lemma final_here b w : reviewed w0 b w → final b w.
Proof. intros H. exists b. by split. Qed.

Lemma final_active b w : ¬ passive → underway w → final b w.
Proof. intros Hn [b' H]. exists b'. split; [done|]. intros Hp. by destruct Hn. Qed.

Lemma triple_reviewLoop jobId total rest :
  ∀ i b changesApplied actions,
    triple (within (reviewed w0 b) ok)
      (reviewLoop jobId total i rest b changesApplied actions)
      (fun _ => within (final b) ok) (within (final b) ok).
Proof.
  induction rest as [|s rest IH]; intros i b changesApplied actions; cbn [reviewLoop].
  { apply triple_ret. intros s [H1 H2]. split; [by apply final_here | done]. }
  eapply triple_bind;
    [apply triple_quiet; [apply quiet_printSuggestion | apply final_here]|].
  intros ?. eapply triple_bind; [apply triple_readChar, final_here|].
  intros ch s1 [Hs1 (chunk & Hchunk & ->)]. revert s1 Hs1.
  change (triple (within (reviewed w0 b) ok)
            (_ ← consoleLog "";
             if isKey (firstChar chunk) "q" then mret (changesApplied, actions)
             else
               st ← (if isKey (firstChar chunk) "a"
                     then onApprove jobId s b changesApplied actions
                     else if isKey (firstChar chunk) "e"
                     then onEdit jobId s b changesApplied actions
                     else if isKey (firstChar chunk) "m"
                     then onManual jobId i s b changesApplied actions
                     else onSkip jobId s b changesApplied actions);
               _ ← consoleLog "";
               reviewLoop jobId total (S i) rest st.1.1 st.1.2 st.2)
            (fun _ => within (final b) ok) (within (final b) ok)).
  eapply triple_bind;
    [apply triple_quiet; [apply quiet_consoleLog | apply final_here]|].
  intros ?. destruct (isKey (firstChar chunk) "q").
  { apply triple_ret. intros s1 [H1 H2]. split; [by apply final_here | done]. }
  assert (∀ st : bool * nat * list action,
            (passive → b = false → st.1.1 = false) →
            triple (within (reviewed w0 st.1.1) ok)
              (_ ← consoleLog ""; reviewLoop jobId total (S i) rest st.1.1 st.1.2 st.2)
              (fun _ => within (final b) ok) (within (final b) ok)) as Hnext.
  { intros st Hst.
    assert (∀ w, final st.1.1 w → final b w) as Hmono.
    { intros w (b'' & Hr & Hb''). exists b''. split; [done|]. auto. }
    eapply triple_bind.
    { apply triple_quiet; [apply quiet_consoleLog|].
      intros w Hw. apply Hmono, final_here, Hw. }
    intros ?. eapply triple_weaken; [apply IH | done | |].
    - intros _ s1 [H1 H2]. split; [by apply Hmono | done].
    - intros s1 [H1 H2]. split; [by apply Hmono | done]. }
  assert (∀ key, isKey (firstChar chunk) key = true →
                 (key = "a" ∨ key = "e" ∨ key = "m")%char → ¬ passive) as Hactive.
  { intros key Hkey Hk Hp. destruct (Hp chunk Hchunk) as (Ha & He & Hm).
    destruct Hk as [-> | [-> | ->]]; congruence. }
  destruct (isKey (firstChar chunk) "a") eqn:Ha;
    [|destruct (isKey (firstChar chunk) "e") eqn:He;
      [|destruct (isKey (firstChar chunk) "m") eqn:Hm]].
  - pose proof (Hactive _ Ha (or_introl eq_refl)) as Hn.
    eapply triple_bind.
    { eapply triple_weaken; [apply triple_onApprove | done | done |].
      intros s1 [H1 H2]. split; [by apply final_active | done]. }
    intros st. apply Hnext. intros Hp. by destruct Hn.
  - pose proof (Hactive _ He (or_intror (or_introl eq_refl))) as Hn.
    eapply triple_bind.
    { eapply triple_weaken; [apply triple_onEdit | done | done |].
      intros s1 [H1 H2]. split; [by apply final_active | done]. }
    intros st. apply Hnext. intros Hp. by destruct Hn.
  - pose proof (Hactive _ Hm (or_intror (or_intror eq_refl))) as Hn.
    eapply triple_bind.
    { eapply triple_weaken; [apply triple_onManual | done | done |].
      intros s1 [H1 H2]. split; [by apply final_active | done]. }
    intros st. apply Hnext. intros Hp. by destruct Hn.
  - eapply triple_bind.
    { eapply triple_weaken; [apply triple_onSkip | done | |].
      - intros st s1 H. exact H.
      - intros s1 [H1 H2]. split; [by apply final_here | done]. }
    intros st s1 [Hs1 Hst]. apply (Hnext st); [intros _ Hb; by rewrite Hst | by rewrite Hst].
Qed.
End Review.

Lemma triple_quiet_to {A} (F G : world → Prop) ok (m : IO A) :
  quiet m → (∀ w, F w → G w) →
  triple (within F ok) m (fun _ => within G ok) (within G ok).
Proof.
  intros Hq HG. eapply triple_weaken; [apply (triple_quiet F G ok m Hq HG) | done | | done].
  intros _ s [H1 H2]. split; auto.
Qed.

(** Where a run of the interactive review ends, whatever its outcome *)
Lemma runInteractiveReview_final (ok : string → Prop) trackerGet jobId (s : session) :
  Forall ok (stdin s) →
  ∃ b, reviewed (files s) b (files (runInteractiveReview trackerGet jobId s).2)
       ∧ ((∀ chunk, ok chunk → passiveKey chunk) → b = false).
Proof.
  intros Hok.
  set (final := fun w => ∃ b, reviewed (files s) b w
                              ∧ ((∀ chunk, ok chunk → passiveKey chunk) → false = false → b = false)).
  assert (∀ w, reviewed (files s) false w → final w) as Hhere.
  { intros w Hw. exists false. by split. }
  assert (triple (within (fun w => w = files s) ok) (runInteractiveReview trackerGet jobId)
            (fun _ => within final ok) (within final ok)) as Hrun.
  { unfold runInteractiveReview. eapply triple_bind.
    { apply (triple_inFiles _ ok _ (fun _ w => reviewed (files s) false w) final).
      intros w ->. rewrite loadSuggestions_run. cbv iota beta.
      apply reviewed_afterDir, reviewed_start. }
    intros [data|]; [|apply triple_quiet_to; [apply quiet_consoleLog | exact Hhere]].
    destruct (length (suggestions data) =? 0)%nat;
      [apply triple_quiet_to; [apply quiet_consoleLog | exact Hhere]|].
    eapply triple_bind; [apply triple_quiet; [apply quiet_printHeader | exact Hhere]|].
    intros ?. eapply triple_bind; [apply triple_reviewLoop|].
    intros r. apply triple_quiet; [apply quiet_printSummary | done]. }
  specialize (Hrun s (conj eq_refl Hok)).
  destruct (runInteractiveReview trackerGet jobId s) as [[[]|e| |] s']; simpl;
    destruct Hrun as [(b & Hb & Hp) _]; exists b; (split; [exact Hb | auto]).
Qed.

(** X27.  In a run of the interactive review, however it ends (it returns,
    an application throws, or the input runs out), the backup copy of the
    profile file is made at most once and before the profile file is first
    written; when it has been made the backup file holds the profile file
    from before the run, whatever has been approved since; when it has not,
    the profile, backup and temporary files are as before the run and the
    profile has not been written. *)
Theorem review_backup_once
    (trackerGet : string → option (string * string)) (jobId : option string) (s : session) :
  let run := runInteractiveReview trackerGet jobId s in
  ∃ evs, trace (files run.2) = trace (files s) ++ evs ∧
    (∀ pre post, evs = pre ++ EBackup :: post →
       (EBackup ∉ pre) ∧ (EWriteTmp ∉ pre) ∧ (ERename ∉ pre) ∧ (EBackup ∉ post)) ∧
    (EBackup ∈ evs → profile_backup_json (files run.2) = profile_json (files s)) ∧
    (EBackup ∉ evs →
       sameProfileFiles (files s) (files run.2) ∧ (EWriteTmp ∉ evs) ∧ (ERename ∉ evs)).
Proof.
  intros run.
  destruct (runInteractiveReview_final (fun _ => True) trackerGet jobId s)
    as (b & (evs & Ht & Hscan & Hfiles) & _).
  { by apply Forall_forall. }
  exists evs. split; [exact Ht|].
  apply scan_unseen in Hscan. destruct b.
  - destruct Hscan as (pre0 & post0 & -> & H1 & H2 & H3 & H4).
    split; [|split].
    + intros pre post Heq.
      destruct (split_at_unique EBackup pre0 post0 pre post H1 Heq H4) as [-> ->]. auto.
    + intros _. exact Hfiles.
    + intros Hn. destruct Hn. apply elem_of_app. right. by constructor.
  - destruct Hscan as (H1 & H2 & H3). split; [|split].
    + intros pre post ->. destruct H1. apply elem_of_app. right. by constructor.
    + intros Hin. by destruct H1.
    + intros _. auto.
Qed.

(** X28.  A review in which no key approves, edits or adds (each pending
    chunk starts with another character than a, e and m) leaves the profile,
    backup and temporary files as they were and makes no backup, however
    many suggestions are skipped and whether it ends with q, at the last
    suggestion or for lack of input. *)
Theorem review_passive_keeps_profile
    (trackerGet : string → option (string * string)) (jobId : option string) (s : session) :
  Forall passiveKey (stdin s) →
  let run := runInteractiveReview trackerGet jobId s in
  sameProfileFiles (files s) (files run.2) ∧
  ∃ evs, trace (files run.2) = trace (files s) ++ evs ∧
         (EBackup ∉ evs) ∧ (EWriteTmp ∉ evs) ∧ (ERename ∉ evs).
Proof.
  intros Hok run.
  destruct (runInteractiveReview_final passiveKey trackerGet jobId s Hok)
    as (b & (evs & Ht & Hscan & Hfiles) & Hb).
  rewrite (Hb (fun _ H => H)) in *.
  split; [exact Hfiles|]. exists evs. split; [exact Ht|].
  by apply scan_unseen in Hscan.
Qed.

Lemma review_passive_keeps_profile_witness :
  let s := {| files := testWorld (Some (Parsed TEST_PROFILE)) (Some (Parsed TEST_SUGGESTIONS));
              stdin := ["s"; "x"; "q"];
              stdout := [] |} in
  profile_json (files (runInteractiveReview (fun _ => None) (Some "__test__") s).2)
  = Some (Parsed TEST_PROFILE).
Proof.
  intros s.
  destruct (review_passive_keeps_profile (fun _ => None) (Some "__test__") s)
    as [(H1 & _) _].
  - repeat constructor.
  - rewrite H1. reflexivity.
Defined.

(** ** applySuggestion and the JSON file *)

Lemma jsonify_obj (m : gmap string value) : jsonify (VObj m) = VObj (omap kept m).
Proof. reflexivity. Qed.

Lemma jsonify_arr l : jsonify (VArr l) = VArr (jsonify <$> l).
Proof. reflexivity. Qed.

Lemma kept_Some x : nullish x = false → kept x = Some (jsonify x).
Proof. by destruct x. Qed.

Lemma sameJson_refl a : sameJson a a.
Proof. reflexivity. Qed.

Lemma sameJson_jsonify a : sameJson (jsonify a) a.
Proof. apply jsonify_idem. Qed.

Lemma sameJson_nullish a b : sameJson a b → nullish a = nullish b.
Proof. unfold sameJson. destruct a, b; simpl; intros H; try done; discriminate. Qed.

Lemma sameJson_obj (ma : gmap string value) b :
  sameJson (VObj ma) b → ∃ mb, b = VObj mb ∧ omap kept ma = omap kept mb.
Proof.
  unfold sameJson. rewrite jsonify_obj. destruct b; simpl; try discriminate.
  intros [= H]. eauto.
Qed.

Lemma sameJson_arr (la : list value) b :
  sameJson (VArr la) b → ∃ lb, b = VArr lb ∧ jsonify <$> la = jsonify <$> lb.
Proof.
  unfold sameJson. rewrite jsonify_arr. destruct b; simpl; try discriminate.
  intros [= H]. eauto.
Qed.

Lemma sameJson_primitive a b :
  sameJson a b → isContainer a = false → nullish a = false → b = a.
Proof. unfold sameJson. destruct a, b; simpl; try done; congruence. Qed.

(** Members under the same key of two maps that JSON does not tell apart *)
Lemma sameJson_member (ma mb : gmap string value) (k : string) :
  omap kept ma = omap kept mb →
  sameJson (default VUndef (ma !! k)) (default VUndef (mb !! k)).
Proof.
  intros H. assert (ma !! k ≫= kept = mb !! k ≫= kept) as Hk
    by by rewrite <- !lookup_omap, H.
  unfold sameJson.
  destruct (ma !! k) as [x|], (mb !! k) as [y|]; simpl in *;
    try destruct x; try destruct y; simpl in *; congruence.
Qed.

Lemma sameJson_elem (la lb : list value) i :
  jsonify <$> la = jsonify <$> lb → sameJson (elem la i) (elem lb i).
Proof.
  intros H. assert (jsonify <$> la !! N.to_nat i = jsonify <$> lb !! N.to_nat i) as Hi
    by by rewrite <- !list_lookup_fmap, H.
  unfold sameJson, elem.
  destruct (la !! N.to_nat i), (lb !! N.to_nat i); simpl in *; congruence.
Qed.

Lemma sameJson_length (la lb : list value) :
  jsonify <$> la = jsonify <$> lb → length la = length lb.
Proof. intros H. by rewrite <- (length_fmap jsonify la), H, length_fmap. Qed.

Lemma res_rel_refl {A} (R : A → A → Prop) (x : res A) :
  (∀ a, x = Ret a → R a a) → res_rel R x x.
Proof. destruct x; simpl; auto. Qed.

Lemma getProp_sameJson a b p :
  sameJson a b → res_rel sameJson (getProp a p) (getProp b p).
Proof.
  intros H. pose proof (sameJson_nullish a b H) as Hn.
  destruct a as [| | ba | na | sa | la | ma].
  - destruct b; try discriminate; reflexivity.
  - destruct b; try discriminate; reflexivity.
  - rewrite (sameJson_primitive _ b H); [|done..]. by apply res_rel_refl.
  - rewrite (sameJson_primitive _ b H); [|done..]. by apply res_rel_refl.
  - rewrite (sameJson_primitive _ b H); [|done..]. by apply res_rel_refl.
  - apply sameJson_arr in H as (lb & -> & H). unfold getProp.
    destruct (arrayIndex (ToPropertyKey p)) as [i|]; simpl.
    + by apply sameJson_elem.
    + rewrite (sameJson_length _ _ H). by destruct (_ =? _).
  - apply sameJson_obj in H as (mb & -> & H). simpl. by apply sameJson_member.
Qed.

Lemma descend_sameJson ps : ∀ a b,
  sameJson a b →
  res_rel (option_Forall2 sameJson) (descend a ps) (descend b ps).
Proof.
  induction ps as [|p ps IH]; intros a b H; simpl.
  - by constructor.
  - rewrite <- (sameJson_nullish a b H). destruct (nullish a); [by constructor|].
    pose proof (getProp_sameJson a b p H) as Hg.
    destruct (getProp a p), (getProp b p); simpl in *; try done. by apply IH.
Qed.

Lemma descend_parent c ps parent :
  descend c ps = Ret (Some parent) → nullish parent = false → nullish c = false.
Proof.
  destruct ps as [|p ps]; simpl.
  - by intros [= ->].
  - destruct (nullish c); [discriminate | done].
Qed.

Lemma store_nullish loc : ∀ d new,
  nullish d = false → nullish new = false → nullish (store d loc new) = false.
Proof.
  destruct loc as [|p rest]; intros d new Hd Hn; simpl; [done|].
  destruct d as [| | | | | l | m]; try done.
  - destruct (arrayIndex _); [|done]. by destruct (l !! _).
  - by destruct (m !! _).
Qed.

Lemma store_sameJson loc : ∀ a b parent na nb,
  descend a loc = Ret (Some parent) → nullish parent = false →
  sameJson a b → sameJson na nb → nullish na = false → nullish nb = false →
  sameJson (store a loc na) (store b loc nb).
Proof.
  induction loc as [|p rest IH]; intros a b parent na nb Hd Hp Hab Hn Hna Hnb; [done|].
  simpl in Hd. destruct (nullish a) eqn:Ha; [discriminate|].
  destruct (getProp a p) as [ca| |] eqn:Hg; simpl in Hd; try discriminate.
  pose proof (descend_parent ca rest parent Hd Hp) as Hca.
  destruct a as [| | ba | na' | sa | la | ma]; try discriminate.
  - rewrite (sameJson_primitive _ b Hab); [|done..]. reflexivity.
  - rewrite (sameJson_primitive _ b Hab); [|done..]. reflexivity.
  - rewrite (sameJson_primitive _ b Hab); [|done..]. reflexivity.
  - apply sameJson_arr in Hab as (lb & -> & Hl). cbn [store].
    unfold getProp in Hg.
    destruct (arrayIndex (ToPropertyKey p)) as [i|]; [|by unfold sameJson; rewrite !jsonify_arr, Hl].
    injection Hg as Hg. unfold elem in Hg.
    destruct (la !! N.to_nat i) as [ca'|] eqn:Hla; simpl in Hg; [subst ca'|by subst ca].
    assert (jsonify <$> la !! N.to_nat i = jsonify <$> lb !! N.to_nat i) as Hi
      by by rewrite <- !list_lookup_fmap, Hl.
    rewrite Hla in Hi. destruct (lb !! N.to_nat i) as [cb|] eqn:Hlb; [|discriminate].
    injection Hi as Hi.
    unfold sameJson. rewrite !jsonify_arr, !list_fmap_insert, Hl. do 2 f_equal.
    apply (IH ca cb parent); auto.
  - apply sameJson_obj in Hab as (mb & -> & Hm). cbn [store].
    simpl in Hg. injection Hg as Hg.
    destruct (ma !! ToPropertyKey p) as [ca'|] eqn:Hma; simpl in Hg; [subst ca'|by subst ca].
    assert (ma !! ToPropertyKey p ≫= kept = mb !! ToPropertyKey p ≫= kept) as Hk
      by by rewrite <- !lookup_omap, Hm.
    rewrite Hma in Hk. simpl in Hk. rewrite (kept_Some ca Hca) in Hk.
    destruct (mb !! ToPropertyKey p) as [cb|] eqn:Hmb; [|discriminate].
    assert (nullish cb = false ∧ jsonify ca = jsonify cb) as [Hcb Hc].
    { assert (jsonify ca = jsonify cb) as Hc
        by (destruct cb; cbv beta iota delta [kept mbind option_bind] in Hk;
            first [discriminate Hk | by injection Hk]).
      split; [|exact Hc]. by rewrite <- (sameJson_nullish ca cb Hc). }
    unfold sameJson. rewrite !jsonify_obj.
    rewrite (omap_insert_Some kept ma _ _ (jsonify (store ca rest na)))
      by (apply kept_Some, store_nullish; auto).
    rewrite (omap_insert_Some kept mb _ _ (jsonify (store cb rest nb)))
      by (apply kept_Some, store_nullish; auto).
    rewrite Hm. do 2 f_equal. apply (IH ca cb parent); auto.
Qed.

(** The outcomes of a mutation on parents that JSON does not tell apart *)
Lemma mutate_sameJson s pa pb key :
  sameJson pa pb → nullish pa = false →
  res_rel (fun x y => sameJson x y ∧ nullish x = false ∧ nullish y = false)
    (mutate s pa key) (mutate s pb key).
Proof.
  intros H Hpa. unfold mutate.
  destruct pa as [| | ba | na | sa | la | ma]; try discriminate.
  - rewrite (sameJson_primitive _ pb H); [|done..].
    destruct (isRemove (type s)); simpl; by repeat split.
  - rewrite (sameJson_primitive _ pb H); [|done..].
    destruct (isRemove (type s)); simpl; by repeat split.
  - rewrite (sameJson_primitive _ pb H); [|done..].
    destruct (isRemove (type s)); [|done].
    apply res_rel_refl. unfold deleteProp. intros a Ha.
    repeat match type of Ha with context [match ?c with _ => _ end] => destruct c end;
      try discriminate; injection Ha as <-; by repeat split.
  - apply sameJson_arr in H as (lb & -> & Hl).
    pose proof (sameJson_length _ _ Hl) as Hlen.
    destruct (isRemove (type s)).
    + destruct key as [name|i].
      * unfold deleteProp. destruct (arrayIndex _) as [i|]; simpl.
        -- rewrite Hlen. split; [|done]. unfold sameJson. rewrite !jsonify_arr.
           destruct (_ <? _)%nat; [|by rewrite Hl].
           by rewrite !list_fmap_insert, Hl.
        -- destruct (_ =? _); simpl; [done|]. split; [|done].
           unfold sameJson. by rewrite !jsonify_arr, Hl.
      * simpl. split; [|done]. unfold sameJson, splice1.
        by rewrite !jsonify_arr, !list_fmap_delete, Hl.
    + unfold setProp. destruct (arrayIndex _) as [i|]; simpl; [|done].
      split; [|done]. unfold sameJson, arraySet. rewrite !jsonify_arr, Hlen.
      destruct (_ <? _)%nat.
      * by rewrite !list_fmap_insert, Hl.
      * by rewrite !fmap_app, !fmap_replicate, Hl.
  - apply sameJson_obj in H as (mb & -> & Hm).
    destruct (isRemove (type s)).
    + assert (res_rel (fun x y => sameJson x y ∧ nullish x = false ∧ nullish y = false)
                (deleteProp (VObj ma) key) (deleteProp (VObj mb) key)) as Hdel.
      { simpl. split; [|done]. unfold sameJson. by rewrite !jsonify_obj, !omap_delete, Hm. }
      by destruct key.
    + simpl. split; [|done]. unfold sameJson. rewrite !jsonify_obj.
      by rewrite !(omap_insert_Some kept _ _ _ (VStr (suggested s))), Hm.
Qed.

Lemma applySuggestion_sameJson s a b :
  sameJson a b → res_rel sameJson (applySuggestion s a) (applySuggestion s b).
Proof.
  intros H. unfold applySuggestion, resolvePath.
  destruct (splitLast (parsePath (section s))) as [[init last]|]; simpl; [|exact H].
  pose proof (descend_sameJson init a b H) as Hd.
  destruct (descend a init) as [[pa|]| |] eqn:Hda, (descend b init) as [[pb|]| |] eqn:Hdb;
    simpl in *; try done; try (by inversion Hd).
  inversion Hd as [? ? Hp|]; subst.
  rewrite <- (sameJson_nullish pa pb Hp).
  destruct (nullish pa) eqn:Hpa; simpl; [exact H|].
  pose proof (mutate_sameJson s pa pb last Hp Hpa) as Hm.
  destruct (mutate s pa last), (mutate s pb last); simpl in *; try done.
  destruct Hm as (Hn & Hna & Hnb).
  by apply (store_sameJson init a b pa).
Qed.

Lemma approveAll_sameJson toApply : ∀ a b,
  sameJson a b → res_rel sameJson (approveAll toApply a) (applyAll toApply b).
Proof.
  induction toApply as [|s' rest IH]; intros a b H; simpl; [exact H|].
  pose proof (applySuggestion_sameJson s' a b H) as Hs.
  destruct (applySuggestion s' a) as [pa| |], (applySuggestion s' b) as [pb| |];
    simpl in *; try done.
  apply IH. unfold sameJson in *. by rewrite jsonify_idem.
Qed.

(** X29.  Saving the profile and loading it again makes no difference to a
    suggestion: applied to a profile and to the profile as JSON keeps it,
    applySuggestion has the same outcome, with results that are written to
    the same file.  Hence the suggestions approved one after the other,
    each on the profile loaded from the file the one before has written,
    leave the file that applying them all in memory leaves. *)
Theorem applySuggestion_json_round_trip (s : Suggestion) (profile : value) :
  res_rel sameJson (applySuggestion s (jsonify profile)) (applySuggestion s profile)
  ∧ ∀ toApply,
      res_rel sameJson (approveAll toApply (jsonify profile)) (applyAll toApply profile).
Proof.
  split; [apply applySuggestion_sameJson, sameJson_jsonify|].
  intros toApply. apply approveAll_sameJson, sameJson_jsonify.
Qed.

(** ** Approving everything *)

Lemma mute_ret : mute (mret tt).
Proof. intros s. exists []. rewrite app_nil_r. by destruct s. Qed.

Lemma mute_consoleLog text : mute (consoleLog text).
Proof. intros s. by exists [text +:+ nl]. Qed.

Lemma mute_bind (m : IO unit) (k : unit → IO unit) :
  mute m → (∀ u, mute (k u)) → mute (m ≫= k).
Proof.
  intros Hm Hk s. unfold mbind, IO_bind. destruct (Hm s) as [out1 ->].
  destruct (Hk tt {| files := files s; stdin := stdin s; stdout := stdout s ++ out1 |})
    as [out2 ->].
  exists (out1 ++ out2). simpl. by rewrite app_assoc.
Qed.

Lemma mute_logEach prefix lines : mute (logEach prefix lines).
Proof.
  induction lines as [|line lines IH]; simpl; [apply mute_ret|].
  apply mute_bind; [apply mute_consoleLog | intros _; apply IH].
Qed.

Ltac mute_steps :=
  repeat first [ apply mute_bind; [|intros ?] | apply mute_consoleLog
               | apply mute_logEach | apply mute_ret
               | match goal with |- mute (if ?c then _ else _) => destruct c end
               | match goal with |- mute (match ?c with _ => _ end) => destruct c end ].

Lemma mute_printSuggestion i total s : mute (printSuggestion i total s).
Proof. unfold printSuggestion. mute_steps. Qed.

Lemma mute_printHeader trackerGet data total : mute (printHeader trackerGet data total).
Proof. unfold printHeader. mute_steps. Qed.

Lemma mute_printSummary jobId total changesApplied actions :
  mute (printSummary jobId total changesApplied actions).
Proof. unfold printSummary. cbv zeta. mute_steps. Qed.

Lemma triple_mute (F : world → Prop) input (m : IO unit) E :
  mute m → triple (exactly F input) m (fun _ => exactly F input) E.
Proof. intros Hm s [HF Hin]. destruct (Hm s) as [out ->]. by split. Qed.

Lemma triple_inFiles_exactly {A} (F : world → Prop) input (m : M A)
    (G : A → world → Prop) E :
  (∀ w, F w → ∃ a w', m w = (Ret a, w') ∧ G a w') →
  triple (exactly F input) (inFiles m) (fun a => exactly (G a) input) E.
Proof.
  intros H s [HF Hin]. unfold inFiles. destruct (H (files s) HF) as (a & w' & -> & HG).
  by split.
Qed.

Lemma triple_readChar_exactly (F : world → Prop) chunk input prompt E :
  triple (exactly F (chunk :: input)) (readChar prompt)
    (fun ch s => exactly F input s ∧ ch = firstChar chunk) E.
Proof.
  intros s [HF Hin]. unfold readChar, mbind, IO_bind, stdoutWrite, onData, mret, IO_ret.
  simpl. rewrite Hin. simpl. split; [by split | by destruct chunk].
Qed.

(** A step whose result is known *)
Lemma triple_bind_eq {A B} (P F : session → Prop) (m : IO A) (v : A)
    (k : A → IO B) (R : B → session → Prop) E :
  triple P m (fun a s => F s ∧ a = v) E → triple F (k v) R E → triple P (m ≫= k) R E.
Proof.
  intros Hm Hk. eapply triple_bind; [exact Hm|]. intros a s [HF ->]. by apply Hk.
Qed.

Lemma applySuggestion_truthy s p q :
  truthy p = true → applySuggestion s p = Ret q → truthy (jsonify q) = true.
Proof.
  intros Hp Happ.
  assert (truthy (jsonify p) = true) as Hjp by by destruct p.
  destruct (applySuggestion_unresolved_or_mutates s p) as [Hr | (r & Hres & Hrun)].
  { rewrite Hr in Happ. by injection Happ as <-. }
  rewrite Hrun in Happ.
  destruct (mutate s (r_parent r) (r_key r)) as [parent'| |] eqn:Hm; try discriminate.
  injection Happ as <-.
  assert (isContainer parent' = true ∨ parent' = r_parent r) as Hparent.
  { unfold mutate in Hm. destruct (isRemove (type s)).
    - destruct (r_parent r) as [| | | | |l|m]; simpl in Hm;
        try (destruct (r_key r)); unfold deleteProp in Hm;
        repeat match type of Hm with context [match ?c with _ => _ end] => destruct c end;
        try discriminate; injection Hm as <-; auto.
    - unfold setProp in Hm.
      repeat match type of Hm with context [match ?c with _ => _ end] => destruct c end;
        try discriminate; injection Hm as <-; auto. }
  unfold resolvePath in Hres.
  destruct (splitLast (parsePath (section s))) as [[init last]|]; [|discriminate].
  destruct (descend p init) as [[parent|]| |] eqn:Hd; simpl in Hres; try discriminate.
  destruct (nullish parent) eqn:Hn; [discriminate|]. injection Hres as <-. simpl in *.
  destruct init as [|k init]; simpl.
  - simpl in Hd. injection Hd as ->.
    destruct Hparent as [Hc | ->]; [by destruct parent' | exact Hjp].
  - destruct p as [| | | | |l|m]; try exact Hjp.
    + destruct (arrayIndex _); [|done]. by destruct (l !! _).
    + by destruct (m !! _).
Qed.

Section ApproveAll.

Variable E : session → Prop.
Variable input : list string.

Lemma triple_backupFirst_exactly b p bk :
  triple (exactly (disk p bk) input) (backupFirst b)
    (fun b' s => exactly (disk p (if b then bk else Some (Parsed p))) input s ∧ b' = true) E.
Proof.
  intros s [[Hp Hb] Hin]. unfold backupFirst. destruct b; simpl; [by repeat split|].
  unfold mbind, IO_bind, inFiles, gets, modify, consoleLog, stdoutWrite, mret, IO_ret.
  simpl. rewrite Hp. simpl. by repeat split.
Qed.

Lemma triple_loadProfile_exactly p bk :
  triple (exactly (disk p bk) input) (inFiles loadProfile)
    (fun a s => exactly (disk p bk) input s ∧ a = p) E.
Proof.
  intros s [[Hp Hb] Hin]. unfold inFiles. rewrite loadProfile_run. simpl.
  unfold profileValue. rewrite Hp. by repeat split.
Qed.

Lemma triple_applyAndLog_exactly s p q bk name jobId :
  applySuggestion s p = Ret q →
  triple (exactly (disk p bk) input) (applyAndLog s p name jobId)
    (fun _ => exactly (disk (jsonify q) bk) input) E.
Proof.
  intros Happ. unfold applyAndLog.
  eapply (triple_bind_eq _ (exactly (disk p bk) input) _ q).
  { eapply triple_weaken;
      [apply (triple_inFiles_exactly (disk p bk) input _ (fun a w => disk p bk w ∧ a = q) E)
      | done | | done].
    - intros w Hw. exists q, w. unfold lift. rewrite Happ. split; [done|]. by split.
    - intros a s' [[H1 H2] H3]. cbv beta. split; [by split | exact H2]. }
  eapply triple_bind.
  { apply (triple_inFiles_exactly _ input _ (fun _ w => disk (jsonify q) bk w) E).
    intros w [Hp Hb]. eexists tt, _. split; [reflexivity|]. by split. }
  intros ?.
  apply (triple_inFiles_exactly _ input _ (fun _ w => disk (jsonify q) bk w) E).
  intros w [Hp Hb]. destruct (logChange_run s name jobId w) as (w' & Hrun & (F1 & F2 & F3) & _).
  exists tt, w'. split; [exact Hrun|]. split; congruence.
Qed.

Lemma triple_onApprove_exactly jobId s b changesApplied actions p q bk :
  truthy p = true → applySuggestion s p = Ret q →
  triple (exactly (disk p bk) input) (onApprove jobId s b changesApplied actions)
    (fun st s' => exactly (disk (jsonify q) (if b then bk else Some (Parsed p))) input s'
                  ∧ st = (true, S changesApplied,
                          actions ++ [{| action_id := id s; action_section := section s;
                                         action_name := "approved" |}])) E.
Proof.
  intros Hp Happ. unfold onApprove.
  eapply triple_bind_eq; [apply triple_backupFirst_exactly|].
  eapply triple_bind_eq; [apply triple_loadProfile_exactly|].
  rewrite Hp.
  eapply triple_bind; [by apply (triple_applyAndLog_exactly s p q)|]. intros ?.
  eapply triple_bind; [apply triple_mute, mute_consoleLog|]. intros ?.
  by apply triple_ret.
Qed.

End ApproveAll.

Lemma triple_reviewLoop_approve E jobId total rest :
  ∀ i b changesApplied actions chunks more p bk p',
    length chunks = length rest → Forall approving chunks →
    truthy p = true → approveAll rest p = Ret p' →
    triple (exactly (disk p bk) (chunks ++ more))
      (reviewLoop jobId total i rest b changesApplied actions)
      (fun _ => exactly (disk p' (if b || (length rest =? 0)%nat
                                  then bk else Some (Parsed p))) more) E.
Proof.
  induction rest as [|s rest IH];
    intros i b changesApplied actions chunks more p bk p' Hlen Hok Hp Hall.
  - destruct chunks; [|discriminate]. simpl in Hall. injection Hall as <-.
    apply triple_ret. intros s. by rewrite orb_true_r.
  - destruct chunks as [|chunk chunks]; [discriminate|].
    apply Forall_cons in Hok as [Hchunk Hok]. injection Hlen as Hlen.
    simpl in Hall.
    destruct (applySuggestion s p) as [q| |] eqn:Happ; simpl in Hall; try discriminate.
    cbn [reviewLoop]. simpl app.
    eapply triple_bind; [apply triple_mute, mute_printSuggestion|]. intros ?.
    eapply triple_bind_eq; [apply triple_readChar_exactly|].
    eapply triple_bind; [apply triple_mute, mute_consoleLog|]. intros ?.
    rewrite Hchunk. simpl isKey. cbv iota.
    eapply triple_bind_eq; [by apply (triple_onApprove_exactly E (chunks ++ more) jobId s b _ _ p q)|].
    eapply triple_bind; [apply triple_mute, mute_consoleLog|]. intros ?.
    simpl. rewrite orb_false_r.
    eapply triple_weaken;
      [apply (IH (S i) true _ _ chunks more (jsonify q)
                (if b then bk else Some (Parsed p)) p' Hlen Hok)
      | done | | done].
    + eapply applySuggestion_truthy; eauto.
    + exact Hall.
    + intros ? s'. simpl. by destruct b.
Qed.

(** X30.  Approving every suggestion comes to applying them all at once.
    When the suggestions and the profile load, applying all the suggestions
    in memory succeeds, and the input holds one chunk for each suggestion,
    each starting with [a], the interactive review returns, has consumed
    exactly these chunks, and leaves the profile file and the backup file
    that [applyByIds("all")] leaves from the same files: the profile after
    all the suggestions, and the profile file from before as backup. *)
Theorem review_approve_all_is_batch
    (trackerGet : string → option (string * string)) (jobId : option string)
    (s : session) (data : SuggestionsFile) (p0 q : value) (chunks more : list string) :
  loadedSuggestions jobId (files s) = Some data →
  suggestions data ≠ [] →
  profile_json (files s) = Some (Parsed p0) →
  truthy p0 = true →
  applyAll (suggestions data) p0 = Ret q →
  stdin s = chunks ++ more →
  length chunks = length (suggestions data) →
  Forall approving chunks →
  let run := runInteractiveReview trackerGet jobId s in
  let batch := applyByIds All jobId (files s) in
  run.1 = Returned tt ∧ stdin run.2 = more ∧
  (∃ res, batch.1 = Ret res ∧ skipped res = []) ∧
  profile_json (files run.2) = Some (Parsed (jsonify q)) ∧
  profile_json (files run.2) = profile_json batch.2 ∧
  profile_backup_json (files run.2) = profile_json (files s) ∧
  profile_backup_json (files run.2) = profile_backup_json batch.2.
Proof.
  intros Hdata Hne Hp0 Ht Hall Hin Hlen Hok run batch.
  (* the interactive run *)
  pose proof (approveAll_sameJson (suggestions data) p0 p0 (sameJson_refl p0)) as Hrel.
  rewrite Hall in Hrel.
  destruct (approveAll (suggestions data) p0) as [p'| |] eqn:Happrove; try done.
  simpl in Hrel.
  assert (jsonify p' = p') as Hclean.
  { clear -Happrove Hne. revert p0 Happrove.
    induction (suggestions data) as [|s1 rest IH]; [done|]. intros p0. simpl.
    destruct (applySuggestion s1 p0) as [q1| |]; simpl; try discriminate.
    destruct rest as [|s2 rest].
    - simpl. intros [= <-]. apply jsonify_idem.
    - intros H. by apply (IH ltac:(done) (jsonify q1)). }
  assert (triple (fun s' => s' = s)
            (runInteractiveReview trackerGet jobId)
            (fun _ => exactly (disk p' (Some (Parsed p0))) more) (fun _ => False)) as Hrun.
  { unfold runInteractiveReview.
    eapply (triple_bind_eq _ (exactly (disk p0 (profile_backup_json (files s))) (chunks ++ more))
              _ (Some data)).
    { eapply triple_weaken;
        [apply (triple_inFiles_exactly (fun w => w = files s) (chunks ++ more) _
                  (fun a w => disk p0 (profile_backup_json (files s)) w ∧ a = Some data)
                  (fun _ => False))
        | | | done].
      - intros w ->. rewrite loadSuggestions_run, Hdata.
        eexists _, _. split; [reflexivity|].
        destruct (afterDir_files jobId (files s)) as (F1 & F2 & F3).
        split; [|done]. split; congruence.
      - intros s' ->. by split.
      - intros a s' [[H1 H2] H3]. cbv beta. split; [by split | exact H2]. }
    destruct (length (suggestions data) =? 0)%nat eqn:Hz.
    { apply Nat.eqb_eq in Hz. by destruct (suggestions data). }
    eapply triple_bind; [apply triple_mute, mute_printHeader|]. intros ?.
    eapply triple_bind.
    { apply (triple_reviewLoop_approve (fun _ => False) jobId _ (suggestions data)
               0 false 0 [] chunks more p0 _ p' Hlen Hok Ht Happrove). }
    intros r. simpl. rewrite Hz. apply triple_mute, mute_printSummary. }
  specialize (Hrun s eq_refl). unfold run.
  destruct (runInteractiveReview trackerGet jobId s) as [[[]|e| |] s']; try done.
  destruct Hrun as [[Hp' Hbk] Hin'].
  simpl.
  (* the batch *)
  assert (List.filter (selected All) (suggestions data) = suggestions data) as Hsel.
  { clear. induction (suggestions data) as [|x l IH]; [done|]. simpl. by rewrite IH. }
  assert (List.filter (fun s0 => negb (selected All s0)) (suggestions data) = []) as Hnot.
  { clear. induction (suggestions data) as [|x l IH]; [done|]. simpl. exact IH. }
  unfold batch. rewrite applyByIds_run, Hdata. cbv zeta. rewrite Hsel, Hnot.
  destruct (length (suggestions data) =? 0)%nat eqn:Hz.
  { apply Nat.eqb_eq in Hz. by destruct (suggestions data). }
  assert (profileValue (files s) = p0) as Hpv by (unfold profileValue; by rewrite Hp0).
  rewrite Hpv, Ht. cbn [negb].
  assert ((0 <? length (suggestions data))%nat = true) as ->
    by (destruct (suggestions data); [done | reflexivity]).
  rewrite bool_decide_eq_true_2 by (rewrite Hp0; eauto). simpl andb. cbv iota.
  destruct (applyLoop_logged jobId (suggestions data) p0
              (copyProfileToBackup (afterDir jobId (files s))) q Hall)
    as (w3 & evs & -> & (G1 & G2 & G3) & _).
  destruct (afterDir_files jobId (files s)) as (F1 & F2 & F3).
  simpl in *.
  assert (p' = jsonify q) as -> by (unfold sameJson in Hrel; congruence).
  repeat split; try done; try congruence.
  eexists. split; [reflexivity | done].
Qed.

Lemma review_approve_all_is_batch_witness :
  let s := {| files := testWorld (Some (Parsed TEST_PROFILE)) (Some (Parsed TEST_SUGGESTIONS));
              stdin := ["a"; "a"; "a"; "a"; "q"];
              stdout := [] |} in
  let run := runInteractiveReview (fun _ => None) (Some "__test__") s in
  run.1 = Returned tt ∧ stdin run.2 = ["q"] ∧
  profile_backup_json (files run.2) = Some (Parsed TEST_PROFILE).
Proof.
  intros s run.
  destruct (review_approve_all_is_batch (fun _ => None) (Some "__test__") s
              TEST_SUGGESTIONS TEST_PROFILE
              (match applyAll (suggestions TEST_SUGGESTIONS) TEST_PROFILE with
               | Ret p => p
               | _ => VUndef
               end)
              ["a"; "a"; "a"; "a"] ["q"])
    as (H1 & H2 & _ & _ & _ & H3 & _).
  - vm_compute. reflexivity.
  - discriminate.
  - reflexivity.
  - reflexivity.
  - vm_compute. reflexivity.
  - reflexivity.
  - reflexivity.
  - repeat constructor.
  - split; [exact H1|]. split; [exact H2 | exact H3].
Defined.
